(** * Red Specter AI Usage Watchdog: agent and log viewer

    A shallow embedding of [agent/redspecter_ai_usage_watchdog.py] and
    [tools/watchdog_view.py], with the properties of the matcher, the
    de-duplicated scan cycle, the JSONL event log and the aggregator.

    Python values are modelled as follows.
    - [str] is the list of its code points ([pystr]).
    - A [dict] that holds JSON data is an association list in insertion
      order ([JObj]); [None] is [JNull].
    - The [set] of (pid, signature name) pairs is a [gset].
    - [str.lower], the clock, [datetime.fromisoformat] and
      [datetime.isoformat] are the fields of the class [PyRuntime]: the
      development holds for every implementation of them. *)

From Stdlib Require Import ZArith NArith List Ascii String Bool Lia.
From Stdlib Require Import DecimalFacts DecimalPos DecimalN DecimalZ.
From stdpp Require Import base decidable option list countable gmap.

#[local] Set Warnings "-register-all".

Local Open Scope N_scope.
Local Open Scope list_scope.

(* ===================================================================== *)
(** * Strings *)
(* ===================================================================== *)

(** A Python [str]: its sequence of code points. *)
Abbreviation pystr := (list N).

(** An ASCII literal as a [pystr]. *)
Definition pys (s : string) : pystr :=
  List.map N_of_ascii (list_ascii_of_string s).

(** [s.startswith(p)] *)
Fixpoint startswith (p s : pystr) : bool :=
  match p, s with
  | [], _ => true
  | _ :: _, [] => false
  | a :: p', b :: s' => (a =? b) && startswith p' s'
  end.

(** [p in s] for two strings: [p] occurs in [s] as a contiguous run. *)
Fixpoint contains (p s : pystr) : bool :=
  startswith p s ||
  match s with
  | [] => false
  | _ :: s' => contains p s'
  end.

(** [sep.join(l)] *)
Fixpoint str_join (sep : pystr) (l : list pystr) : pystr :=
  match l with
  | [] => []
  | [x] => x
  | x :: l' => x ++ sep ++ str_join sep l'
  end.

(** [s.replace(old, new)] for a one-character [old]. *)
Definition replace_char (old : N) (new s : pystr) : pystr :=
  flat_map (fun c => if c =? old then new else [c]) s.

(** [str == str] *)
Definition str_eqb (a b : pystr) : bool := bool_decide (a = b).

(** [str.isspace] on one code point (the Unicode white space of CPython). *)
Definition is_space (c : N) : bool :=
  ((9 <=? c) && (c <=? 13)) || ((28 <=? c) && (c <=? 32)) ||
  (c =? 133) || (c =? 160) || (c =? 5760) ||
  ((8192 <=? c) && (c <=? 8202)) ||
  (c =? 8232) || (c =? 8233) || (c =? 8239) || (c =? 8287) || (c =? 12288).

Fixpoint lstrip (s : pystr) : pystr :=
  match s with
  | c :: s' => if is_space c then lstrip s' else s
  | [] => []
  end.

(** [s.strip()] *)
Definition strip (s : pystr) : pystr := rev (lstrip (rev (lstrip s))).

(** [str.lower] restricted to ASCII letters. *)
Definition ascii_lower_char (c : N) : N :=
  if (65 <=? c) && (c <=? 90) then c + 32 else c.

Definition ascii_lower (s : pystr) : pystr := List.map ascii_lower_char s.

Definition is_ascii (s : pystr) : Prop := Forall (fun c => c < 128) s.

(** A [datetime]: the wall-clock time in microseconds, and the UTC offset
    when the value is aware. *)
Record datetime := {
  dt_wall : Z;
  dt_offset : option Z
}.

(** What the two programs take from the Python runtime without it being
    modelled here: [str.lower]; the clock, as the text that the [n]-th
    call of [utc_now_iso()] in a run returns; [datetime.fromisoformat],
    with [None] when it raises [ValueError]; [datetime.isoformat]. *)
Class PyRuntime := {
  lower : pystr -> pystr;
  utc_now_iso : nat -> pystr;
  fromisoformat : pystr -> option datetime;
  isoformat : datetime -> pystr
}.

(** What the development uses of Python's [str.lower]: it keeps the empty
    string empty and no other, and on ASCII text it is the ASCII lower
    casing. *)
Record lower_spec (rt : PyRuntime) : Prop := {
  lower_nil_iff : forall s, lower s = [] <-> s = [];
  lower_ascii : forall s, is_ascii s -> lower s = ascii_lower s
}.

(* ===================================================================== *)
(** * Signatures and process snapshots *)
(* ===================================================================== *)

(** One entry of [SIGNATURES]. A key read with [sig.get] may be absent
    ([None]); ["name"] is read with [sig["name"]] and is always there. *)
Record signature := {
  sig_name : pystr;
  sig_description : option pystr;
  sig_match_type : option pystr;
  sig_pattern : option pystr;
  sig_risk : option pystr;
  sig_category : option pystr
}.

(** [proc.info]: a field that is missing or [None] is [None] here. *)
Record proc_info := {
  pi_pid : Z;
  pi_name : option pystr;
  pi_cmdline : option (list pystr);
  pi_username : option pystr
}.

Definition process_name_contains : pystr := pys "process_name_contains".
Definition cmdline_contains : pystr := pys "cmdline_contains".

Definition mk_sig (name description match_type pattern risk category : string)
  : signature :=
  {| sig_name := pys name;
     sig_description := Some (pys description);
     sig_match_type := Some (pys match_type);
     sig_pattern := Some (pys pattern);
     sig_risk := Some (pys risk);
     sig_category := Some (pys category) |}.

Definition SIGNATURES : list signature :=
  [ mk_sig "ollama_local_llm" "Local LLM runtime (Ollama)"
      "process_name_contains" "ollama" "medium" "local_llm";
    mk_sig "open_webui_frontend" "Open WebUI interface"
      "process_name_contains" "open-webui" "medium" "local_llm_ui";
    mk_sig "openai_api_call" "Process calling OpenAI API endpoint"
      "cmdline_contains" "api.openai.com" "high" "remote_llm";
    mk_sig "anthropic_api_call" "Process calling Anthropic API endpoint"
      "cmdline_contains" "api.anthropic.com" "high" "remote_llm";
    mk_sig "google_gemini_api_call"
      "Process calling Google Gemini / generative AI endpoint"
      "cmdline_contains" "generativelanguage.googleapis.com" "high"
      "remote_llm";
    mk_sig "generic_llm_keyword"
      "Process with generic LLM-related keyword in command line"
      "cmdline_contains" "llm" "low" "generic_ai" ].

Section Matcher.

Context {rt : PyRuntime}.

(** [match_signature(sig, proc_info)] *)
Definition match_signature (sig : signature) (info : proc_info) : bool :=
  let pname := lower (default [] (pi_name info)) in
  let cmdline_list := default [] (pi_cmdline info) in
  let cmdline_str := lower (str_join (pys " ") cmdline_list) in
  let pattern := lower (default [] (sig_pattern sig)) in
  let mtype := default [] (sig_match_type sig) in
  if str_eqb pattern [] || str_eqb mtype [] then false
  else if str_eqb mtype process_name_contains then contains pattern pname
  else if str_eqb mtype cmdline_contains then contains pattern cmdline_str
  else false.

(** The reference definition, in the words of the specification. *)
Definition substring_of (p s : pystr) : Prop :=
  exists pre post, s = pre ++ p ++ post.

Definition matches_spec (sig : signature) (info : proc_info) : Prop :=
  let pattern := default [] (sig_pattern sig) in
  pattern <> [] /\
  ((sig_match_type sig = Some process_name_contains /\
    substring_of (lower pattern) (lower (default [] (pi_name info)))) \/
   (sig_match_type sig = Some cmdline_contains /\
    substring_of (lower pattern)
      (lower (str_join (pys " ") (default [] (pi_cmdline info)))))).

End Matcher.

(* ===================================================================== *)
(** * JSON: [json.dumps(..., ensure_ascii=False)] and [json.loads] *)
(* ===================================================================== *)

(** The Python values that [json.loads] builds. A float keeps the text of
    its literal (float arithmetic is not modelled; no event written by
    the agent holds a float). A [dict] is its list of items in insertion
    order. *)
Inductive json :=
| JNull
| JBool (b : bool)
| JInt (z : Z)
| JFloat (lit : pystr)
| JStr (s : pystr)
| JArr (l : list json)
| JObj (m : list (pystr * json)).

(** ** Encoder *)

Definition hex_digit (n : N) : N := if n <? 10 then 48 + n else 87 + n.

(** [ESCAPE_DCT]: the replacement of one character of a string. *)
Definition escape_char (c : N) : pystr :=
  if c =? 34 then [92; 34]
  else if c =? 92 then [92; 92]
  else if c =? 10 then [92; 110]
  else if c =? 13 then [92; 114]
  else if c =? 9 then [92; 116]
  else if c =? 8 then [92; 98]
  else if c =? 12 then [92; 102]
  else if c <? 32 then [92; 117; 48; 48; hex_digit (c / 16); hex_digit (c mod 16)]
  else [c].

(** [encode_basestring(s)] *)
Definition encode_basestring (s : pystr) : pystr :=
  34 :: flat_map escape_char s ++ [34].

Fixpoint uint_digits (u : Decimal.uint) : pystr :=
  match u with
  | Decimal.Nil => []
  | Decimal.D0 u => 48 :: uint_digits u
  | Decimal.D1 u => 49 :: uint_digits u
  | Decimal.D2 u => 50 :: uint_digits u
  | Decimal.D3 u => 51 :: uint_digits u
  | Decimal.D4 u => 52 :: uint_digits u
  | Decimal.D5 u => 53 :: uint_digits u
  | Decimal.D6 u => 54 :: uint_digits u
  | Decimal.D7 u => 55 :: uint_digits u
  | Decimal.D8 u => 56 :: uint_digits u
  | Decimal.D9 u => 57 :: uint_digits u
  end.

(** [int.__repr__] *)
Definition int_repr (z : Z) : pystr :=
  match Z.to_int z with
  | Decimal.Pos u => uint_digits u
  | Decimal.Neg u => 45 :: uint_digits u
  end.

Definition item_separator : pystr := pys ", ".
Definition key_separator : pystr := pys ": ".

(** [json.dumps(v, ensure_ascii=False)] *)
Fixpoint dumps (v : json) : pystr :=
  match v with
  | JNull => pys "null"
  | JBool true => pys "true"
  | JBool false => pys "false"
  | JInt z => int_repr z
  | JFloat lit => lit
  | JStr s => encode_basestring s
  | JArr l => 91 :: str_join item_separator (List.map dumps l) ++ [93]
  | JObj m =>
      123 :: str_join item_separator
               (List.map (fun '(k, x) =>
                            encode_basestring k ++ key_separator ++ dumps x) m)
          ++ [125]
  end.

(** ** Decoder *)

Inductive parse_result (A : Type) :=
| Parsed (a : A) (rest : pystr)
| DecodeError
| OutOfFuel.
Arguments Parsed {A} a rest.
Arguments DecodeError {A}.
Arguments OutOfFuel {A}.

(** [WHITESPACE.match]: skip blanks, tabs and line ends. *)
Definition is_json_ws (c : N) : bool :=
  (c =? 32) || (c =? 9) || (c =? 10) || (c =? 13).

Fixpoint skip_ws (s : pystr) : pystr :=
  match s with
  | c :: s' => if is_json_ws c then skip_ws s' else s
  | [] => []
  end.

Definition is_digit (c : N) : bool := (48 <=? c) && (c <=? 57).

Definition hex_value (c : N) : option N :=
  if (48 <=? c) && (c <=? 57) then Some (c - 48)
  else if (97 <=? c) && (c <=? 102) then Some (c - 87)
  else if (65 <=? c) && (c <=? 70) then Some (c - 55)
  else None.

Definition hex4 (a b c d : N) : option N :=
  match hex_value a, hex_value b, hex_value c, hex_value d with
  | Some x, Some y, Some z, Some w => Some (((x * 16 + y) * 16 + z) * 16 + w)
  | _, _, _, _ => None
  end.

Definition is_high_surrogate (c : N) : bool := (55296 <=? c) && (c <=? 56319).
Definition is_low_surrogate (c : N) : bool := (56320 <=? c) && (c <=? 57343).
Definition join_surrogates (hi lo : N) : N :=
  65536 + (hi - 55296) * 1024 + (lo - 56320).

(** The backslash escapes other than [\u]. *)
Definition simple_escape (c : N) : option N :=
  if c =? 34 then Some 34
  else if c =? 92 then Some 92
  else if c =? 47 then Some 47
  else if c =? 98 then Some 8
  else if c =? 102 then Some 12
  else if c =? 110 then Some 10
  else if c =? 114 then Some 13
  else if c =? 116 then Some 9
  else None.

Definition cons_char (c : N) (r : parse_result pystr) : parse_result pystr :=
  match r with
  | Parsed str rest => Parsed (c :: str) rest
  | DecodeError => DecodeError
  | OutOfFuel => OutOfFuel
  end.

(** [scanstring(s, end, strict=True)], from just after the opening quote:
    the decoded string and what follows the closing quote. A [\u] escape
    needs its four digits and one more character after them; a high
    surrogate is joined with a low one that follows it. *)
Fixpoint scanstring (s : pystr) : parse_result pystr :=
  match s with
  | [] => DecodeError
  | c :: s1 =>
      if c =? 34 then Parsed [] s1
      else if c =? 92 then
        match s1 with
        | [] => DecodeError
        | e :: s2 =>
            if e =? 117 then
              match s2 with
              | h1 :: h2 :: h3 :: h4 :: s6 =>
                  match s6 with
                  | [] => DecodeError
                  | _ :: _ =>
                      match hex4 h1 h2 h3 h4 with
                      | None => DecodeError
                      | Some u =>
                          if is_high_surrogate u then
                            match s6 with
                            | b :: u' :: g1 :: g2 :: g3 :: g4 :: (_ :: _) as s12 =>
                                if (b =? 92) && (u' =? 117) then
                                  match hex4 g1 g2 g3 g4 with
                                  | None => DecodeError
                                  | Some u2 =>
                                      if is_low_surrogate u2
                                      then cons_char (join_surrogates u u2)
                                             (scanstring s12)
                                      else cons_char u (scanstring s6)
                                  end
                                else cons_char u (scanstring s6)
                            | _ => cons_char u (scanstring s6)
                            end
                          else cons_char u (scanstring s6)
                      end
                  end
              | _ => DecodeError
              end
            else
              match simple_escape e with
              | Some d => cons_char d (scanstring s2)
              | None => DecodeError
              end
        end
      else if c <=? 31 then DecodeError
      else cons_char c (scanstring s1)
  end.

Fixpoint span_digits (s : pystr) : pystr * pystr :=
  match s with
  | c :: s' =>
      if is_digit c then let '(d, r) := span_digits s' in (c :: d, r)
      else ([], s)
  | [] => ([], [])
  end.

Definition uint_cons (c : N) (u : Decimal.uint) : Decimal.uint :=
  if c =? 48 then Decimal.D0 u
  else if c =? 49 then Decimal.D1 u
  else if c =? 50 then Decimal.D2 u
  else if c =? 51 then Decimal.D3 u
  else if c =? 52 then Decimal.D4 u
  else if c =? 53 then Decimal.D5 u
  else if c =? 54 then Decimal.D6 u
  else if c =? 55 then Decimal.D7 u
  else if c =? 56 then Decimal.D8 u
  else Decimal.D9 u.

Fixpoint digits_uint (ds : pystr) : Decimal.uint :=
  match ds with
  | [] => Decimal.Nil
  | c :: ds' => uint_cons c (digits_uint ds')
  end.

(** [int(numstr)] for an optional sign and a run of digits. *)
Definition py_int (sign ds : pystr) : Z :=
  match sign with
  | [] => Z.of_int (Decimal.Pos (digits_uint ds))
  | _ :: _ => Z.of_int (Decimal.Neg (digits_uint ds))
  end.

(** [_match_number]: an integer part, then a fraction and an exponent when
    they are complete; an integer literal is an [int], any other a float. *)
Definition match_number (s : pystr) : parse_result json :=
  let '(sign, s1) :=
    match s with
    | c :: s' => if c =? 45 then ([45], s') else ([], s)
    | [] => ([], s)
    end in
  match s1 with
  | [] => DecodeError
  | c :: s2 =>
      let int_part :=
        if (49 <=? c) && (c <=? 57)
        then Some (let '(d, r) := span_digits s2 in (c :: d, r))
        else if c =? 48 then Some ([48], s2)
        else None in
      match int_part with
      | None => DecodeError
      | Some (ds, s3) =>
          let '(frac, s4) :=
            match s3 with
            | p :: d :: s' =>
                if (p =? 46) && is_digit d
                then let '(fd, r) := span_digits s' in (46 :: d :: fd, r)
                else ([], s3)
            | _ => ([], s3)
            end in
          let '(exp, s5) :=
            match s4 with
            | e :: s' =>
                if (e =? 101) || (e =? 69) then
                  let '(sg, s'') :=
                    match s' with
                    | g :: t => if (g =? 45) || (g =? 43) then ([g], t)
                                else ([], s')
                    | [] => ([], s')
                    end in
                  let '(ed, r) := span_digits s'' in
                  match ed with
                  | [] => ([], s4)
                  | _ :: _ => (e :: sg ++ ed, r)
                  end
                else ([], s4)
            | [] => ([], s4)
            end in
          match frac, exp with
          | [], [] => Parsed (JInt (py_int sign ds)) s5
          | _, _ => Parsed (JFloat (sign ++ ds ++ frac ++ exp)) s5
          end
      end
  end.

Definition parse_map {A B} (f : A -> B) (r : parse_result A) : parse_result B :=
  match r with
  | Parsed a rest => Parsed (f a) rest
  | DecodeError => DecodeError
  | OutOfFuel => OutOfFuel
  end.

(** The loop of [JSONArray], from the start of a value; [pv] scans one
    value and [n] bounds the number of turns. *)
Fixpoint parse_array_items (pv : pystr -> parse_result json) (n : nat)
    (s : pystr) : parse_result (list json) :=
  match n with
  | O => OutOfFuel
  | S n' =>
      match pv s with
      | Parsed v r =>
          match skip_ws r with
          | c :: r' =>
              if c =? 93 then Parsed [v] r'
              else if c =? 44
              then parse_map (cons v) (parse_array_items pv n' (skip_ws r'))
              else DecodeError
          | [] => DecodeError
          end
      | DecodeError => DecodeError
      | OutOfFuel => OutOfFuel
      end
  end.

(** [JSONArray], from just after the opening bracket. *)
Definition parse_array (pv : pystr -> parse_result json) (s : pystr)
  : parse_result (list json) :=
  match skip_ws s with
  | c :: r =>
      if c =? 93 then Parsed [] r
      else parse_array_items pv (S (length s)) (skip_ws s)
  | [] => DecodeError
  end.

(** The loop of [JSONObject], from the start of a key. *)
Fixpoint parse_object_items (pv : pystr -> parse_result json) (n : nat)
    (s : pystr) : parse_result (list (pystr * json)) :=
  match n with
  | O => OutOfFuel
  | S n' =>
      match s with
      | q :: s1 =>
          if q =? 34 then
            match scanstring s1 with
            | Parsed k r =>
                match skip_ws r with
                | c :: r1 =>
                    if c =? 58 then
                      match pv (skip_ws r1) with
                      | Parsed v r2 =>
                          match skip_ws r2 with
                          | d :: r3 =>
                              if d =? 125 then Parsed [(k, v)] r3
                              else if d =? 44
                              then parse_map (cons (k, v))
                                     (parse_object_items pv n' (skip_ws r3))
                              else DecodeError
                          | [] => DecodeError
                          end
                      | DecodeError => DecodeError
                      | OutOfFuel => OutOfFuel
                      end
                    else DecodeError
                | [] => DecodeError
                end
            | DecodeError => DecodeError
            | OutOfFuel => OutOfFuel
            end
          else DecodeError
      | [] => DecodeError
      end
  end.

(** [d[k] = v] on a dict in insertion order. *)
Fixpoint dict_set (k : pystr) (v : json) (m : list (pystr * json))
  : list (pystr * json) :=
  match m with
  | [] => [(k, v)]
  | (k', v') :: m' =>
      if str_eqb k' k then (k', v) :: m' else (k', v') :: dict_set k v m'
  end.

(** The dict built from the pairs of an object, in the order read. *)
Definition dict_of_pairs (l : list (pystr * json)) : list (pystr * json) :=
  fold_left (fun d '(k, v) => dict_set k v d) l [].

(** [JSONObject], from just after the opening brace. *)
Definition parse_object (pv : pystr -> parse_result json) (s : pystr)
  : parse_result (list (pystr * json)) :=
  match skip_ws s with
  | c :: r =>
      if c =? 125 then Parsed [] r
      else parse_map dict_of_pairs
             (parse_object_items pv (S (length s)) (skip_ws s))
  | [] => DecodeError
  end.

(** [scan_once(string, idx)]: one JSON value at the head of [s]. The
    fuel bounds the nesting depth. *)
Fixpoint parse_value (fuel : nat) (s : pystr) : parse_result json :=
  match fuel with
  | O => OutOfFuel
  | S fuel' =>
      match s with
      | [] => DecodeError
      | c :: s' =>
          if c =? 34 then parse_map JStr (scanstring s')
          else if c =? 123 then parse_map JObj (parse_object (parse_value fuel') s')
          else if c =? 91 then parse_map JArr (parse_array (parse_value fuel') s')
          else if startswith (pys "null") s then Parsed JNull (drop 4 s)
          else if startswith (pys "true") s then Parsed (JBool true) (drop 4 s)
          else if startswith (pys "false") s then Parsed (JBool false) (drop 5 s)
          else if startswith (pys "NaN") s then Parsed (JFloat (pys "NaN")) (drop 3 s)
          else if startswith (pys "Infinity") s
          then Parsed (JFloat (pys "Infinity")) (drop 8 s)
          else if startswith (pys "-Infinity") s
          then Parsed (JFloat (pys "-Infinity")) (drop 9 s)
          else match_number s
      end
  end.

(** [JSONDecoder.decode]: one value between white space, and nothing
    else. The nesting depth of a text is below its length, so the fuel
    given here is never used up ([decode_fuel] below). *)
Definition decode (s : pystr) : parse_result json :=
  if startswith [65279] s then DecodeError
  else
    match parse_value (S (length s)) (skip_ws s) with
    | Parsed v rest =>
        match skip_ws rest with
        | [] => Parsed v []
        | _ :: _ => DecodeError
        end
    | DecodeError => DecodeError
    | OutOfFuel => OutOfFuel
    end.

(** [json.loads(s)]: [None] stands for [json.JSONDecodeError]. The
    decoder of the library also gives up, with [RecursionError], on
    values nested some hundreds of levels deep, and, with a plain
    [ValueError], on an integer of more than 4300 digits (a limit that
    can be set, to 640 digits at the lowest); neither is told apart
    here, where such a text decodes or gives [None] like any other. What
    is proved of lines that do not decode is therefore stated for lines
    within these bounds. *)
Definition loads (s : pystr) : option json :=
  match decode s with
  | Parsed v _ => Some v
  | _ => None
  end.

(* ===================================================================== *)
(** * The agent *)
(* ===================================================================== *)

(** The exceptions that the two programs meet. *)
Inductive exn :=
| OSError (strerror : pystr)
| KeyboardInterrupt
| AttributeError
| TypeError
| UnicodeEncodeError.

Inductive outcome (A : Type) :=
| Returns (a : A)
| Raises (e : exn).
Arguments Returns {A} a.
Arguments Raises {A} e.

(** What the agent prints, one constructor per [print] call. *)
Inductive agent_msg :=
| MsgStarting (hostname : pystr)
| MsgMatch (ts : json) (pname : json) (pid : Z) (signame : json) (risk : json)
| MsgWriteFailed (e : pystr)
| MsgScanComplete (events : nat)
| MsgCycleComplete (events : nat)
| MsgStopped.

(** One entry of [psutil.process_iter]: its [info], or a process that
    went away or denies access when [info] is read. *)
Inductive proc :=
| Proc (info : proc_info)
| ProcGone.

(** What one scan cycle meets outside the program: the process table;
    the result of opening the log (an exception, if any); the result of
    the call of [f.write] that follows [k] calls of the cycle that
    returned; the result of closing the file when records of the cycle
    are in its buffer; the number of these records that are on the disk
    all the same when closing fails; and whether Ctrl+C arrives during
    the sleep after the cycle.

    The log is a buffered text file. A call of [f.write] that returns
    has put its text into the buffer, and the text is on the disk at the
    latest when the [with] block closes the file: a full disk shows as a
    failure there, after the writes of the cycle have returned. What
    [f.write] raises is for [c_write] to tell, whatever the text: an
    [OSError] when the buffer is flushed on the way, Ctrl+C, or the
    [UnicodeEncodeError] of a text with a lone surrogate in it, which the
    model does not work out from the text. A record reaches the disk
    whole or not at all. *)
Record cycle := {
  c_procs : list proc;
  c_open : option exn;
  c_write : nat -> option exn;
  c_close : option exn;
  c_flushed : nat;
  c_sleep_interrupted : bool
}.

(** The state of one agent run: the set [seen], the log file (absent, or
    the chunks of text appended to it so far), the console, and the
    number of clock readings taken. *)
Record agent_state := {
  seen : gset (Z * pystr);
  log : option (list pystr);
  stdout : list agent_msg;
  clock : nat
}.

(** [x.get(k)] on a dict. *)
Fixpoint dict_get (k : pystr) (m : list (pystr * json)) : option json :=
  match m with
  | [] => None
  | (k', v) :: m' => if str_eqb k' k then Some v else dict_get k m'
  end.

Definition opt_json (o : option pystr) : json :=
  match o with
  | Some s => JStr s
  | None => JNull
  end.

(** [x or d] for an optional string. *)
Definition str_or (o : option pystr) (d : pystr) : pystr :=
  match o with
  | Some (c :: s) => c :: s
  | _ => d
  end.

(** The [event] dict of [scan_once]. *)
Definition make_event (ts hostname : pystr) (info : proc_info)
    (sig : signature) : json :=
  JObj
    [ (pys "timestamp_utc", JStr ts);
      (pys "hostname", JStr hostname);
      (pys "username", JStr (str_or (pi_username info) (pys "unknown")));
      (pys "pid", JInt (pi_pid info));
      (pys "process_name", JStr (str_or (pi_name info) []));
      (pys "cmdline", JArr (List.map JStr (default [] (pi_cmdline info))));
      (pys "signature_name", JStr (sig_name sig));
      (pys "signature_description", opt_json (sig_description sig));
      (pys "risk", JStr (default (pys "unknown") (sig_risk sig)));
      (pys "category", JStr (default (pys "unknown") (sig_category sig)));
      (pys "version", JStr (pys "v0.1"));
      (pys "product", JStr (pys "Red Specter AI Usage Watchdog")) ].

(** The text of one log line: [json.dumps(event, ensure_ascii=False) + "\n"]. *)
Definition event_line (event : json) : pystr := dumps event ++ [10].

(** [event[k]] as the debug line reads it. *)
Definition event_field (k : string) (event : json) : json :=
  match event with
  | JObj m => default JNull (dict_get (pys k) m)
  | _ => JNull
  end.

Section Agent.

Context {rt : PyRuntime}.

(** The variables of [scan_once] while the log is open; [ss_file] is
    the text that the calls of [f.write] have handed to the file
    object [f] so far. *)
Record scan_state := {
  ss_seen : gset (Z * pystr);
  ss_file : list pystr;
  ss_out : list agent_msg;
  ss_clock : nat;
  events_written : nat
}.

(** The body of [for sig in signatures] for one signature. The key
    is in [seen] before [f.write] is called; a call that raises has
    handed nothing of its text to the file. *)
Definition scan_sig (hostname : pystr) (debug : bool) (c : cycle)
    (info : proc_info) (sig : signature) (st : scan_state)
  : scan_state * outcome unit :=
  if negb (match_signature sig info) then (st, Returns tt)
  else
    let key := (pi_pid info, sig_name sig) in
    if bool_decide (key ∈ ss_seen st) then (st, Returns tt)
    else
      let event := make_event (utc_now_iso (ss_clock st)) hostname info sig in
      let st1 := {| ss_seen := {[ key ]} ∪ ss_seen st;
                    ss_file := ss_file st;
                    ss_out := ss_out st;
                    ss_clock := S (ss_clock st);
                    events_written := events_written st |} in
      match c_write c (events_written st) with
      | Some e => (st1, Raises e)
      | None =>
          let out :=
            if debug
            then ss_out st ++
                 [MsgMatch (event_field "timestamp_utc" event)
                    (event_field "process_name" event) (pi_pid info)
                    (event_field "signature_name" event)
                    (event_field "risk" event)]
            else ss_out st in
          ({| ss_seen := ss_seen st1;
              ss_file := ss_file st ++ [event_line event];
              ss_out := out;
              ss_clock := ss_clock st1;
              events_written := S (events_written st) |}, Returns tt)
      end.

(** [for sig in signatures: ...] *)
Fixpoint scan_sigs (hostname : pystr) (debug : bool) (c : cycle)
    (info : proc_info) (sigs : list signature) (st : scan_state)
  : scan_state * outcome unit :=
  match sigs with
  | [] => (st, Returns tt)
  | sig :: sigs' =>
      match scan_sig hostname debug c info sig st with
      | (st', Returns _) => scan_sigs hostname debug c info sigs' st'
      | (st', Raises e) => (st', Raises e)
      end
  end.

(** [for proc in psutil.process_iter(...): ...] *)
Fixpoint scan_procs (signatures : list signature) (hostname : pystr)
    (debug : bool) (c : cycle) (procs : list proc) (st : scan_state)
  : scan_state * outcome unit :=
  match procs with
  | [] => (st, Returns tt)
  | ProcGone :: procs' => scan_procs signatures hostname debug c procs' st
  | Proc info :: procs' =>
      match scan_sigs hostname debug c info signatures st with
      | (st', Returns _) => scan_procs signatures hostname debug c procs' st'
      | (st', Raises e) => (st', Raises e)
      end
  end.

(** [except OSError as e: print(...)] followed by
    [return events_written]; any other exception goes on. *)
Definition scan_except (st : agent_state) (written : nat) (e : exn)
  : agent_state * outcome nat :=
  match e with
  | OSError msg =>
      ({| seen := seen st; log := log st;
          stdout := stdout st ++ [MsgWriteFailed msg];
          clock := clock st |}, Returns written)
  | _ => (st, Raises e)
  end.

(** The variables when the loop over the processes starts:
    [events_written = 0], and nothing handed to the file yet. *)
Definition scan_start (st : agent_state) : scan_state :=
  {| ss_seen := seen st;
     ss_file := [];
     ss_out := stdout st;
     ss_clock := clock st;
     events_written := 0 |}.

(** Leaving the [with] block, normally or by an exception, closes the
    file, which flushes the records [written] in the cycle. When that
    fails, [c_flushed c] of them are on the disk and the exception of
    the close is the one that goes on, also in place of the one that
    left the loop. With no record of the cycle in the buffer, closing
    writes nothing and does not fail. The result is the records that
    are on the disk and the way the block is left. *)
Definition close_log (c : cycle) (written : list pystr) (r : outcome unit)
  : list pystr * outcome unit :=
  match written, c_close c with
  | _ :: _, Some e => (take (c_flushed c) written, Raises e)
  | _, _ => (written, r)
  end.

(** [scan_once(signatures, seen, hostname, logfile, debug)] in the
    cycle [c]. Opening the log for append creates it when it is absent. *)
Definition scan_once (signatures : list signature) (hostname : pystr)
    (debug : bool) (c : cycle) (st : agent_state)
  : agent_state * outcome nat :=
  match c_open c with
  | Some e => scan_except st 0%nat e
  | None =>
      let '(st1, r) :=
        scan_procs signatures hostname debug c (c_procs c) (scan_start st) in
      let '(stored, r') := close_log c (ss_file st1) r in
      let st2 := {| seen := ss_seen st1;
                    log := Some (default [] (log st) ++ stored);
                    stdout := ss_out st1;
                    clock := ss_clock st1 |} in
      match r' with
      | Returns _ => (st2, Returns (events_written st1))
      | Raises e => scan_except st2 (events_written st1) e
      end
  end.

(** How far a run of the agent has come. *)
Inductive run_status :=
| Running
| Stopped
| Crashed (e : exn).

Definition print_msg (m : agent_msg) (st : agent_state) : agent_state :=
  {| seen := seen st; log := log st; stdout := stdout st ++ [m];
     clock := clock st |}.

(** The [while True] loop of [main] over the cycles [cs]: [Running]
    when all of them are done and the loop goes on, [Stopped] after
    Ctrl+C, [Crashed] when an exception leaves [main]. *)
Fixpoint main_loop (signatures : list signature) (hostname : pystr)
    (debug : bool) (cs : list cycle) (st : agent_state)
  : agent_state * run_status :=
  match cs with
  | [] => (st, Running)
  | c :: cs' =>
      match scan_once signatures hostname debug c st with
      | (st1, Returns events) =>
          let st2 := if debug then print_msg (MsgCycleComplete events) st1
                     else st1 in
          if c_sleep_interrupted c then (print_msg MsgStopped st2, Stopped)
          else main_loop signatures hostname debug cs' st2
      | (st1, Raises KeyboardInterrupt) => (print_msg MsgStopped st1, Stopped)
      | (st1, Raises e) => (st1, Crashed e)
      end
  end.

(** The state in which [main] enters its loop: [seen = set()]. *)
Definition initial_state (hostname : pystr) (file : option (list pystr))
  : agent_state :=
  {| seen := ∅; log := file; stdout := [MsgStarting hostname]; clock := 0 |}.

(** [main()] in continuous mode. *)
Definition main (hostname : pystr) (debug : bool) (cs : list cycle)
    (file : option (list pystr)) : agent_state * run_status :=
  main_loop SIGNATURES hostname debug cs (initial_state hostname file).


End Agent.

(* ===================================================================== *)
(** * The viewer *)
(* ===================================================================== *)


(** [for line in f] on a text file opened for reading: a line ends at
    ["\n"], ["\r"] or ["\r\n"], each read as ["\n"]. *)
Fixpoint readlines (s : pystr) : list pystr :=
  match s with
  | [] => []
  | c :: s' =>
      if c =? 10 then [10] :: readlines s'
      else if c =? 13 then
        match s' with
        | d :: s'' =>
            if d =? 10 then [10] :: readlines s'' else [10] :: readlines s'
        | [] => [[10]]
        end
      else
        match readlines s' with
        | [] => [[c]]
        | l :: ls => (c :: l) :: ls
        end
  end.

(** What the viewer prints, one constructor per [print] call. *)
Inductive time_range :=
| TimeUnknown
| TimeRange (first_ts last_ts : pystr).

Inductive vline :=
| LReading
| LMissing
| LNoEvents
| LRule
| LTitle
| LTotal (total : nat)
| LTimeRange (r : time_range)
| LBlank
| LCounterTitle (title : pystr)
| LNone
| LRow (item : json) (count : nat).

(** The loop of [load_events] over the lines of the file. *)
Fixpoint load_lines (lines : list pystr) : list json :=
  match lines with
  | [] => []
  | line :: lines' =>
      let line := strip line in
      match line with
      | [] => load_lines lines'
      | _ :: _ =>
          match loads line with
          | Some evt => evt :: load_lines lines'
          | None => load_lines lines'
          end
      end
  end.

(** [load_events(logfile)]: what it prints and what it returns. *)
Definition load_events (file : option pystr) : list vline * list json :=
  match file with
  | None => ([LMissing], [])
  | Some text => ([], load_lines (readlines text))
  end.

(** [a < b] on datetimes; a naive and an aware one do not compare. *)
Definition dt_lt (a b : datetime) : outcome bool :=
  match dt_offset a, dt_offset b with
  | None, None => Returns (dt_wall a <? dt_wall b)%Z
  | Some oa, Some ob => Returns (dt_wall a - oa <? dt_wall b - ob)%Z
  | _, _ => Raises TypeError
  end.

(** [min(l)] from the first item [m] on: a later item replaces the
    current one when it is smaller. *)
Fixpoint min_from (m : datetime) (l : list datetime) : outcome datetime :=
  match l with
  | [] => Returns m
  | x :: l' =>
      match dt_lt x m with
      | Returns true => min_from x l'
      | Returns false => min_from m l'
      | Raises e => Raises e
      end
  end.

(** [max(l)] from the first item [m] on. *)
Fixpoint max_from (m : datetime) (l : list datetime) : outcome datetime :=
  match l with
  | [] => Returns m
  | x :: l' =>
      match dt_lt m x with
      | Returns true => max_from x l'
      | Returns false => max_from m l'
      | Raises e => Raises e
      end
  end.

(** Whether a value can be a [Counter] key. *)
Definition hashable (v : json) : bool :=
  match v with
  | JArr _ | JObj _ => false
  | _ => true
  end.

(** [a == b] on keys: [True] and [False] are the integers 1 and 0. A
    float is kept as its literal, which does not show its value: two
    floats are compared by their literals and a float is equal to no
    integer, while Python has [1 == 1.0] and [1.0 == 1.00] and makes them
    one key of a [Counter]. The comparison is Python's on keys that are
    not floats, and what is proved of the counts and rows of the tables
    is stated for such keys. *)
Definition key_norm (v : json) : json :=
  match v with
  | JBool true => JInt 1
  | JBool false => JInt 0
  | _ => v
  end.

Definition key_eqb (a b : json) : bool :=
  match key_norm a, key_norm b with
  | JNull, JNull => true
  | JInt x, JInt y => (x =? y)%Z
  | JFloat x, JFloat y => str_eqb x y
  | JStr x, JStr y => str_eqb x y
  | _, _ => false
  end.

(** A [Counter]: its items in the order in which the keys were first
    seen. *)
Abbreviation counter := (list (json * nat)).

(** [c[k] += 1] *)
Fixpoint counter_incr (k : json) (c : counter) : counter :=
  match c with
  | [] => [(k, 1%nat)]
  | (k', n) :: c' =>
      if key_eqb k' k then (k', S n) :: c' else (k', n) :: counter_incr k c'
  end.

(** [Counter(evt.get(key, "unknown") for evt in events)], from the
    counter [c] on. *)
Fixpoint count_field (key : pystr) (events : list json) (c : counter)
  : outcome counter :=
  match events with
  | [] => Returns c
  | JObj m :: events' =>
      let v := default (JStr (pys "unknown")) (dict_get key m) in
      if hashable v then count_field key events' (counter_incr v c)
      else Raises TypeError
  | _ :: _ => Raises AttributeError
  end.

(** The stable sort by decreasing count behind [most_common]. *)
Fixpoint insert_desc (x : json * nat) (l : counter) : counter :=
  match l with
  | [] => [x]
  | y :: l' =>
      if (snd y <=? snd x)%nat then x :: y :: l' else y :: insert_desc x l'
  end.

Definition sort_desc (c : counter) : counter := foldr insert_desc [] c.

(** [counter.most_common(top)] *)
Definition most_common (top : Z) (c : counter) : counter :=
  take (Z.to_nat top) (sort_desc c).

(** The rows of one table: [f"  {item:30} {count}"] fails on [None], and
    prints [True] and [False] as the integers that they are. *)
Fixpoint print_rows (rows : counter) : list vline * option exn :=
  match rows with
  | [] => ([], None)
  | (JNull, _) :: _ => ([], Some TypeError)
  | (item, count) :: rows' =>
      let '(out, e) := print_rows rows' in
      (LRow (key_norm item) count :: out, e)
  end.

(** [print_counter(title, counter, top)] *)
Definition print_counter (title : string) (c : counter) (top : Z)
  : list vline * option exn :=
  match c with
  | [] => ([LCounterTitle (pys title); LNone; LBlank], None)
  | _ :: _ =>
      match print_rows (most_common top c) with
      | (out, None) => (LCounterTitle (pys title) :: out ++ [LBlank], None)
      | (out, Some e) => (LCounterTitle (pys title) :: out, Some e)
      end
  end.

(** Print the tables one after the other, up to the first exception. *)
Fixpoint print_counters (tables : list (string * counter)) (top : Z)
  : list vline * option exn :=
  match tables with
  | [] => ([], None)
  | (title, c) :: tables' =>
      match print_counter title c top with
      | (out, None) =>
          let '(out', e) := print_counters tables' top in (out ++ out', e)
      | (out, Some e) => (out, Some e)
      end
  end.

Section Viewer.

Context {rt : PyRuntime}.

(** [parse_ts(ts)]: a value that is not a string is either falsy, and
    returned for at the first test, or has no [replace], and the
    [AttributeError] is swallowed by [except Exception]. *)
Definition parse_ts (ts : json) : option datetime :=
  match ts with
  | JStr (c :: s) => fromisoformat (replace_char 90 (pys "+00:00") (c :: s))
  | _ => None
  end.

(** [[parse_ts(evt.get("timestamp_utc")) for evt in events]] *)
Fixpoint parse_all (events : list json) : outcome (list (option datetime)) :=
  match events with
  | [] => Returns []
  | JObj m :: events' =>
      match parse_all events' with
      | Returns l =>
          Returns (parse_ts (default JNull (dict_get (pys "timestamp_utc") m)) :: l)
      | Raises e => Raises e
      end
  | _ :: _ => Raises AttributeError
  end.

(** The time range of the parsed time stamps. *)
Definition compute_time_range (timestamps : list datetime)
  : outcome time_range :=
  match timestamps with
  | [] => Returns TimeUnknown
  | t :: ts =>
      match min_from t ts with
      | Raises e => Raises e
      | Returns first_ts =>
          match max_from t ts with
          | Raises e => Raises e
          | Returns last_ts =>
              Returns (TimeRange (isoformat first_ts) (isoformat last_ts))
          end
      end
  end.

(** [print_summary(events, top_n)]: the lines printed, and the
    exception that ends it, if any. *)
Definition print_summary (events : list json) (top_n : Z)
  : list vline * option exn :=
  match events with
  | [] => ([LNoEvents], None)
  | _ :: _ =>
      let total := length events in
      match count_field (pys "risk") events [] with
      | Raises e => ([], Some e)
      | Returns risks =>
      match count_field (pys "signature_name") events [] with
      | Raises e => ([], Some e)
      | Returns signatures =>
      match count_field (pys "username") events [] with
      | Raises e => ([], Some e)
      | Returns users =>
      match count_field (pys "hostname") events [] with
      | Raises e => ([], Some e)
      | Returns hosts =>
      match parse_all events with
      | Raises e => ([], Some e)
      | Returns timestamps =>
      match compute_time_range (omap id timestamps) with
      | Raises e => ([], Some e)
      | Returns r =>
          let head := [LRule; LTitle; LRule; LTotal total; LTimeRange r; LBlank] in
          let '(out, e) :=
            print_counters
              [("By risk"%string, risks);
               ("By signature"%string, signatures);
               ("By user"%string, users);
               ("By host"%string, hosts)] top_n in
          (head ++ out, e)
      end end end end end end
  end.

(** [main()] of the viewer, without [--show-events]. *)
Definition view_main (file : option pystr) (top : Z)
  : list vline * option exn :=
  let '(out1, events) := load_events file in
  let '(out2, e) := print_summary events top in
  (LReading :: out1 ++ out2, e).

End Viewer.

(* ===================================================================== *)
(** * Notions used to state the properties *)
(* ===================================================================== *)

(** A runtime for the examples: ASCII lower casing, a clock that counts
    its readings, and time stamps that are one digit of wall-clock time
    at offset zero. *)
Definition test_runtime : PyRuntime :=
  {| lower := ascii_lower;
     utc_now_iso := fun n => int_repr (Z.of_nat n);
     fromisoformat := fun s =>
       match s with
       | [c] => if is_digit c
                then Some {| dt_wall := Z.of_N (c - 48); dt_offset := Some 0%Z |}
                else None
       | _ => None
       end;
     isoformat := fun d => int_repr (dt_wall d) |}.

(** What may follow a value in an encoded text: nothing, a comma, or the
    end of the enclosing array or object. *)
Definition value_end (rest : pystr) : Prop :=
  match rest with
  | [] => True
  | c :: _ => c = 44 \/ c = 93 \/ c = 125
  end.

Definition nonzero_head (u : Decimal.uint) : Prop :=
  match u with
  | Decimal.Nil | Decimal.D0 _ => False
  | _ => True
  end.

(** The values that the agent writes: no float, and no key twice in an
    object. *)
Fixpoint plainb (v : json) : bool :=
  match v with
  | JFloat _ => false
  | JArr l => forallb plainb l
  | JObj m =>
      bool_decide (NoDup (List.map fst m)) &&
      forallb (fun '(_, x) => plainb x) m
  | _ => true
  end.

Definition head_ok (s : pystr) : Prop :=
  match s with
  | c :: _ => is_json_ws c = false /\ c <> 93 /\ c <> 125
  | [] => False
  end.

Definition reads_back (pv : pystr -> parse_result json) (x : json) : Prop :=
  head_ok (dumps x) /\
  forall r, value_end r -> pv (dumps x ++ r) = Parsed x r.

Definition item_text (kv : pystr * json) : pystr :=
  let '(k, x) := kv in encode_basestring k ++ key_separator ++ dumps x.

Definition printable (s : pystr) : Prop := Forall (fun d => 32 <= d) s.

(** The lines that the reader keeps, for a text made of plain objects
    written one per line. *)
Definition is_object (v : json) : bool :=
  match v with
  | JObj _ => true
  | _ => false
  end.

(** A scanner of values that uses up text and has fuel for every text
    of length at most [k]. *)
Definition consumes (pv : pystr -> parse_result json) : Prop :=
  forall t v r, pv t = Parsed v r -> (length r < length t)%nat.

Definition fuelled (pv : pystr -> parse_result json) (k : nat) : Prop :=
  forall t, (length t <= k)%nat -> pv t <> OutOfFuel.

(** ** What the theorems say about a run *)

(** A chunk of the log that the reader loads as a record of the process
    [pid] under the signature [name]. *)
Definition is_record_for (pid : Z) (name : pystr) (chunk : pystr) : bool :=
  match loads (strip chunk) with
  | Some (JObj m) =>
      match dict_get (pys "pid") m, dict_get (pys "signature_name") m with
      | Some (JInt p), Some (JStr n) => (p =? pid)%Z && str_eqb n name
      | _, _ => false
      end
  | _ => false
  end.

(** The number of records of a (pid, signature name) pair among chunks. *)
Definition count_records (pid : Z) (name : pystr) (chunks : list pystr) : nat :=
  length (List.filter (is_record_for pid name) chunks).

(** A cycle without a failure of the log: it opens, every write
    returns, and closing the file succeeds. *)
Definition io_ok (c : cycle) : Prop :=
  c_open c = None /\ (forall k, c_write c k = None) /\ c_close c = None.

(** A cycle in which whatever fails on the log fails with [OSError]. *)
Definition is_oserror (e : exn) : Prop :=
  match e with
  | OSError _ => True
  | _ => False
  end.


(** The process [pid] is in the table of the cycle and matches a
    signature called [name]. *)
Definition occurs {rt : PyRuntime} (signatures : list signature) (pid : Z)
    (name : pystr) (c : cycle) : Prop :=
  exists info sig,
    In (Proc info) (c_procs c) /\ In sig signatures /\
    pi_pid info = pid /\ sig_name sig = name /\
    match_signature sig info = true.

(** The two processes of the scenario of the specification. *)
Definition ollama_proc (pid : Z) (user : option pystr) : proc_info :=
  {| pi_pid := pid;
     pi_name := Some (pys "ollama");
     pi_cmdline := Some [pys "ollama"; pys "serve"];
     pi_username := user |}.

Definition curl_proc (pid : Z) (user : option pystr) : proc_info :=
  {| pi_pid := pid;
     pi_name := Some (pys "curl");
     pi_cmdline := Some [pys "curl"; pys "https://api.openai.com/v1/chat"];
     pi_username := user |}.

Definition sig_ollama : signature :=
  mk_sig "ollama_local_llm" "Local LLM runtime (Ollama)"
    "process_name_contains" "ollama" "medium" "local_llm".

Definition sig_openai : signature :=
  mk_sig "openai_api_call" "Process calling OpenAI API endpoint"
    "cmdline_contains" "api.openai.com" "high" "remote_llm".

(** A cycle without any failure, for a given process table. *)
Definition quiet_cycle (procs : list proc) : cycle :=
  {| c_procs := procs;
     c_open := None;
     c_write := fun _ => None;
     c_close := None;
     c_flushed := 0;
     c_sleep_interrupted := false |}.

(** The records that the cycle hands to the log: the texts of the calls
    of [f.write] that return, in their order. *)
Definition cycle_writes {rt : PyRuntime} (signatures : list signature)
    (hostname : pystr) (debug : bool) (c : cycle) (st : agent_state)
  : list pystr :=
  match c_open c with
  | Some _ => []
  | None =>
      ss_file (fst (scan_procs signatures hostname debug c (c_procs c)
                      (scan_start st)))
  end.

(** The exception with which the log fails in a cycle, if any: that of
    opening it, or else the one with which the [with] block is left,
    which is that of a write or that of closing the file. *)
Definition cycle_fault {rt : PyRuntime} (signatures : list signature)
    (hostname : pystr) (debug : bool) (c : cycle) (st : agent_state)
  : option exn :=
  match c_open c with
  | Some e => Some e
  | None =>
      let '(st1, r) :=
        scan_procs signatures hostname debug c (c_procs c) (scan_start st) in
      match snd (close_log c (ss_file st1) r) with
      | Raises e => Some e
      | Returns _ => None
      end
  end.

(** The text of the log, absent or not, as a list of chunks. *)
Definition chunks (st : agent_state) : list pystr := default [] (log st).

(** What links the set [seen] to the chunks appended since it was [s0]:
    at most one record per pair, and none for a pair already in [s0]. *)
Definition dedup_inv (s0 : gset (Z * pystr)) (new : list pystr)
    (s1 : gset (Z * pystr)) : Prop :=
  (s0 ⊆ s1) /\
  forall pid name,
    (count_records pid name new <= 1)%nat /\
    (count_records pid name new = 1%nat ->
     ((pid, name) ∉ s0) /\ ((pid, name) ∈ s1)).

(** When every write succeeds: a pair that entered [seen] has its record. *)
Definition logged_inv (s0 : gset (Z * pystr)) (new : list pystr)
    (s1 : gset (Z * pystr)) : Prop :=
  forall pid name,
    (pid, name) ∈ s1 -> (pid, name) ∉ s0 -> count_records pid name new = 1%nat.

Section ScanStates.

Context {rt : PyRuntime}.

(** The state after the body of the inner loop has written an event,
    and after its write has failed. *)
Definition emit_state (hostname : pystr) (debug : bool) (info : proc_info)
    (sig : signature) (st : scan_state) : scan_state :=
  let event := make_event (utc_now_iso (ss_clock st)) hostname info sig in
  {| ss_seen := {[ (pi_pid info, sig_name sig) ]} ∪ ss_seen st;
     ss_file := ss_file st ++ [event_line event];
     ss_out :=
       if debug
       then ss_out st ++
            [MsgMatch (event_field "timestamp_utc" event)
               (event_field "process_name" event) (pi_pid info)
               (event_field "signature_name" event)
               (event_field "risk" event)]
       else ss_out st;
     ss_clock := S (ss_clock st);
     events_written := S (events_written st) |}.

Definition fail_state (info : proc_info) (sig : signature) (st : scan_state)
  : scan_state :=
  {| ss_seen := {[ (pi_pid info, sig_name sig) ]} ∪ ss_seen st;
     ss_file := ss_file st;
     ss_out := ss_out st;
     ss_clock := S (ss_clock st);
     events_written := events_written st |}.

(** What a piece of the scan does: chunks appended, the counter in step
    with them, [seen] and the log linked by [dedup_inv], every write
    so far a success; then either it ends normally, with a record for
    each new pair of [seen], or the next write has raised. *)
Definition scan_step (c : cycle) (st st' : scan_state) (r : outcome unit)
  : Prop :=
  exists new,
    ss_file st' = ss_file st ++ new /\
    events_written st' = (events_written st + length new)%nat /\
    dedup_inv (ss_seen st) new (ss_seen st') /\
    (forall k, (events_written st <= k < events_written st')%nat ->
               c_write c k = None) /\
    match r with
    | Returns _ => logged_inv (ss_seen st) new (ss_seen st')
    | Raises e => c_write c (events_written st') = Some e
    end.

End ScanStates.

(** ** Notions about the summary *)

(** An event record as the summary needs it: an object whose four
    tabulated fields, when present, can be keys of a [Counter]. *)
Definition table_field (key : pystr) (e : json) : json :=
  match e with
  | JObj m => default (JStr (pys "unknown")) (dict_get key m)
  | _ => JNull
  end.

(** The four fields that the summary tabulates. *)
Definition table_keys : list pystr :=
  [pys "risk"; pys "signature_name"; pys "username"; pys "hostname"].

Definition record_like (e : json) : bool :=
  is_object e &&
  hashable (table_field (pys "risk") e) &&
  hashable (table_field (pys "signature_name") e) &&
  hashable (table_field (pys "username") e) &&
  hashable (table_field (pys "hostname") e).

(** A counter with its keys as [==] sees them. *)
Definition norm_counter (c : counter) : counter :=
  List.map (fun '(k, n) => (key_norm k, n)) c.

(** The count of the key [k] in a counter: [c[k]]. *)
Fixpoint counter_get (k : json) (c : counter) : nat :=
  match c with
  | [] => 0
  | (k', n) :: c' => if key_eqb k' k then n else counter_get k c'
  end.

(** The number of values equal to the key [k]. *)
Fixpoint count_of (k : json) (vs : list json) : nat :=
  match vs with
  | [] => 0
  | v :: vs' => (if key_eqb v k then 1 else 0) + count_of k vs'
  end.

(** A counter as [Counter] builds it: hashable keys, no key twice, and
    no count of zero. *)
Definition counter_ok (c : counter) : Prop :=
  Forall (fun kn => hashable (fst kn) = true /\ 1 <= snd kn)%nat c /\
  NoDup (List.map (fun kn => key_norm (fst kn)) c).

(** Counts in decreasing order, ties allowed. *)
Fixpoint desc_sorted (l : counter) : Prop :=
  match l with
  | [] => True
  | x :: l' => Forall (fun y => snd y <= snd x)%nat l' /\ desc_sorted l'
  end.

(** [Counter(...)] over a list of values, from the counter [c] on. *)
Definition tally (vs : list json) (c : counter) : counter :=
  fold_left (fun c v => counter_incr v c) vs c.

(** No two keys of the table of a field have the same count. *)
Definition no_ties (key : pystr) (events : list json) : Prop :=
  match count_field key events [] with
  | Returns c => NoDup (List.map snd c)
  | Raises _ => True
  end.

Section SummaryNotions.

Context {rt : PyRuntime}.

(** The time stamps of the events that parse. *)
Definition timestamps (events : list json) : list datetime :=
  omap (fun e => parse_ts (default JNull
                             (match e with
                              | JObj m => dict_get (pys "timestamp_utc") m
                              | _ => None
                              end))) events.

(** All the time stamps that parse carry the same UTC offset (as those
    written by the agent do), or are all naive. *)
Definition same_offsets (events : list json) : Prop :=
  forall a b, In a (timestamps events) -> In b (timestamps events) ->
              dt_offset a = dt_offset b.

End SummaryNotions.

(** The log of the failing input of the reader: a record, then a line
    that is valid JSON but not an object. *)
Definition non_object_log : pystr :=
  event_line (JObj [(pys "risk", JStr (pys "high"))]) ++ pys "null" ++ [10].

(** Two records that differ in their risk. *)
Definition risk_record (risk : string) : json :=
  JObj [(pys "risk", JStr (pys risk))].

(** ** Concrete inputs for the examples *)

Definition sig_generic : signature :=
  mk_sig "generic_llm_keyword"
    "Process with generic LLM-related keyword in command line"
    "cmdline_contains" "llm" "low" "generic_ai".

(** A process that two default signatures match. *)
Definition llm_proc : proc_info :=
  {| pi_pid := 1234;
     pi_name := Some (pys "ollama");
     pi_cmdline := Some [pys "ollama"; pys "run"; pys "llm"];
     pi_username := Some (pys "alice") |}.

Definition sample_state : agent_state :=
  {| seen := ∅; log := None; stdout := []; clock := 0 |}.

Definition ollama_cycle : cycle :=
  quiet_cycle [Proc (ollama_proc 1234 None)].

Definition llm_cycle : cycle := quiet_cycle [Proc llm_proc].

(** A cycle in which the log cannot be opened. *)
Definition closed_cycle : cycle :=
  {| c_procs := [Proc (ollama_proc 1234 None)];
     c_open := Some (OSError (pys "Permission denied"));
     c_write := fun _ => None;
     c_close := None;
     c_flushed := 0;
     c_sleep_interrupted := false |}.

(** A cycle in which every write fails at once. *)
Definition full_disk_cycle : cycle :=
  {| c_procs := [Proc (ollama_proc 1234 None)];
     c_open := None;
     c_write := fun _ => Some (OSError (pys "No space left on device"));
     c_close := None;
     c_flushed := 0;
     c_sleep_interrupted := false |}.

(** A cycle on a full disk as the buffered log meets it: the writes
    return, and nothing is on the disk when closing the file fails. *)
Definition lost_at_close (procs : list proc) : cycle :=
  {| c_procs := procs;
     c_open := None;
     c_write := fun _ => None;
     c_close := Some (OSError (pys "No space left on device"));
     c_flushed := 0;
     c_sleep_interrupted := false |}.

(** A second signature with the name of the first default one. *)
Definition sig_ollama_cmdline : signature :=
  mk_sig "ollama_local_llm" "Local LLM runtime (Ollama), by command line"
    "cmdline_contains" "ollama" "medium" "local_llm".

Definition three_records : list json :=
  [risk_record "high"; risk_record "high"; risk_record "low"].

Definition three_records_shuffled : list json :=
  [risk_record "low"; risk_record "high"; risk_record "high"].

(** ** Notions about the origin of the log *)

Section Origins.

Context {rt : PyRuntime}.

(** A chunk that is the line of an event built for a process of the
    table and a signature of the list that matches it. *)
Definition from_match (signatures : list signature) (hostname : pystr)
    (procs : list proc) (chunk : pystr) : Prop :=
  exists info sig k,
    In (Proc info) procs /\ In sig signatures /\
    match_signature sig info = true /\
    chunk = event_line (make_event (utc_now_iso k) hostname info sig).

Definition from_cycles (signatures : list signature) (hostname : pystr)
    (cs : list cycle) (chunk : pystr) : Prop :=
  exists c, In c cs /\ from_match signatures hostname (c_procs c) chunk.

(** A key of [seen] that stands for such a match. *)
Definition key_of_match (signatures : list signature) (procs : list proc)
    (key : Z * pystr) : Prop :=
  exists info sig,
    In (Proc info) procs /\ In sig signatures /\
    match_signature sig info = true /\
    key = (pi_pid info, sig_name sig).

Definition key_of_cycles (signatures : list signature) (cs : list cycle)
    (key : Z * pystr) : Prop :=
  exists c, In c cs /\ key_of_match signatures (c_procs c) key.

(** What one piece of the scan adds, for a predicate [P] on chunks and
    a predicate [Q] on keys that hold of every match that it meets. *)
Definition adds (P : pystr -> Prop) (Q : Z * pystr -> Prop)
    (st st' : scan_state) : Prop :=
  (exists new, ss_file st' = ss_file st ++ new /\ Forall P new) /\
  (forall key, key ∈ ss_seen st' -> key ∈ ss_seen st \/ Q key).



End Origins.

(** A text that ends where a line ends. *)
Definition whole_lines (s : pystr) : Prop := s = [] \/ last s = Some 10.




(** The counts of a table, summed. *)
Definition total_count (c : counter) : nat := foldr (fun kn n => snd kn + n)%nat 0%nat c.

(** The entries of a process table that can be read. *)
Definition live_procs (procs : list proc) : list proc :=
  List.filter (fun p => match p with Proc _ => true | ProcGone => false end)
    procs.

Definition with_procs (c : cycle) (procs : list proc) : cycle :=
  {| c_procs := procs;
     c_open := c_open c;
     c_write := c_write c;
     c_close := c_close c;
     c_flushed := c_flushed c;
     c_sleep_interrupted := c_sleep_interrupted c |}.

(** The messages that only [--debug] prints. *)
Definition is_debug_msg (m : agent_msg) : bool :=
  match m with
  | MsgMatch _ _ _ _ _ | MsgCycleComplete _ => true
  | _ => false
  end.

Definition plain_msgs (out : list agent_msg) : list agent_msg :=
  List.filter (fun m => negb (is_debug_msg m)) out.

(** Two states of the agent that differ at most in the debug messages
    on the console. *)
Definition same_but_debug (a b : agent_state) : Prop :=
  seen a = seen b /\ log a = log b /\ clock a = clock b /\
  plain_msgs (stdout a) = plain_msgs (stdout b).

(** Two states of the scan that differ at most in the debug messages. *)
Definition same_scan_but_debug (a b : scan_state) : Prop :=
  ss_seen a = ss_seen b /\ ss_file a = ss_file b /\
  ss_clock a = ss_clock b /\ events_written a = events_written b /\
  plain_msgs (ss_out a) = plain_msgs (ss_out b).

(** A cycle in which whatever fails, fails with [OSError] or is Ctrl+C. *)
Definition is_benign (e : exn) : Prop :=
  match e with
  | OSError _ | KeyboardInterrupt => True
  | _ => False
  end.

Definition benign (c : cycle) : Prop :=
  (forall e, c_open c = Some e -> is_benign e) /\
  (forall k e, c_write c k = Some e -> is_benign e) /\
  (forall e, c_close c = Some e -> is_benign e).

(** A cycle in which the log cannot be opened, and that is not
    interrupted. *)
Definition open_fails (c : cycle) : Prop :=
  (exists msg, c_open c = Some (OSError msg)) /\
  c_sleep_interrupted c = false.

(** The state after the log has been opened for append and closed with
    nothing written: the file is there. *)
Definition created (st : agent_state) : agent_state :=
  {| seen := seen st; log := Some (chunks st); stdout := stdout st;
     clock := clock st |}.

(** A process that no default signature matches. *)
Definition bash_proc : proc_info :=
  {| pi_pid := 4321;
     pi_name := Some (pys "bash");
     pi_cmdline := Some [pys "bash"; pys "-l"];
     pi_username := Some (pys "alice") |}.

(** A cycle in which Ctrl+C arrives during the first write. *)
Definition interrupted_cycle : cycle :=
  {| c_procs := [Proc (ollama_proc 1234 None)];
     c_open := None;
     c_write := fun _ => Some KeyboardInterrupt;
     c_close := None;
     c_flushed := 0;
     c_sleep_interrupted := false |}.



(** ** Notions about time stamps and rows *)

(** Whether a [datetime] is aware, that is, carries a UTC offset. *)
Definition aware (d : datetime) : bool :=
  match dt_offset d with
  | Some _ => true
  | None => false
  end.

(** A runtime for the examples with both kinds of time stamps: one
    digit is a naive time, one digit followed by ["+00:00"] a time at
    UTC. *)
Definition zulu_runtime : PyRuntime :=
  {| lower := ascii_lower;
     utc_now_iso := fun n => int_repr (Z.of_nat n);
     fromisoformat := fun s =>
       match s with
       | c :: rest =>
           if is_digit c
           then if str_eqb rest []
                then Some {| dt_wall := Z.of_N (c - 48); dt_offset := None |}
                else if str_eqb rest (pys "+00:00")
                     then Some {| dt_wall := Z.of_N (c - 48);
                                  dt_offset := Some 0%Z |}
                     else None
           else None
       | [] => None
       end;
     isoformat := fun d => int_repr (dt_wall d) |}.

(** A naive and an aware time stamp in one log. *)
Definition mixed_records : list json :=
  [JObj [(pys "timestamp_utc", JStr (pys "3"))];
   JObj [(pys "timestamp_utc", JStr (pys "5Z"))]].


Definition list_risk_records : list json :=
  [JObj [(pys "risk", JStr (pys "high"))]; JObj [(pys "risk", JArr [])]].

(** A key whose equality is that of its JSON value: [None], a boolean,
    an integer or a string. (A float is equal to the integer of its
    value, which its literal does not show.) *)
Definition exact_key (v : json) : bool :=
  match v with
  | JFloat _ | JArr _ | JObj _ => false
  | _ => true
  end.

(** An event record whose four tabulated fields are such keys. *)
Definition exact_record (e : json) : bool :=
  is_object e && forallb (fun key => exact_key (table_field key e)) table_keys.

(** A runtime for the examples with time stamps at two offsets: a digit
    is that hour at UTC, and a digit followed by ["+01:00"] that hour on
    a clock that is one hour ahead. *)
Definition offsets_runtime : PyRuntime :=
  {| lower := ascii_lower;
     utc_now_iso := fun n => int_repr (Z.of_nat n);
     fromisoformat := fun s =>
       match s with
       | c :: rest =>
           if is_digit c
           then if str_eqb rest []
                then Some {| dt_wall := Z.of_N (c - 48);
                             dt_offset := Some 0%Z |}
                else if str_eqb rest (pys "+01:00")
                     then Some {| dt_wall := Z.of_N (c - 48);
                                  dt_offset := Some 1%Z |}
                     else None
           else None
       | [] => None
       end;
     isoformat := fun d =>
       int_repr (dt_wall d) ++
       match dt_offset d with
       | Some 0%Z => pys "+00:00"
       | Some _ => pys "+01:00"
       | None => []
       end |}.

(** Two records of one instant, written at two offsets. *)
Definition one_instant_records : list json :=
  [JObj [(pys "timestamp_utc", JStr (pys "2"))];
   JObj [(pys "timestamp_utc", JStr (pys "3+01:00"))]].

Definition one_instant_records_swapped : list json :=
  [JObj [(pys "timestamp_utc", JStr (pys "3+01:00"))];
   JObj [(pys "timestamp_utc", JStr (pys "2"))]].

(** Two records of different risk. *)
Definition two_risks : list json := [risk_record "high"; risk_record "low"].

Definition two_risks_swapped : list json :=
  [risk_record "low"; risk_record "high"].

(** The items of a counter that have the count [n], in their order. *)
Definition with_count (n : nat) (c : counter) : counter :=
  List.filter (fun kn => Nat.eqb (snd kn) n) c.

(** A text without a line end in it. *)
Definition one_line (s : pystr) : Prop := Forall (fun c => c <> 10 /\ c <> 13) s.





(** Whether every run of decimal digits in a text, the first of them
    counted from [run] digits on, is shorter than [n]. *)
Fixpoint digit_runs_below (n run : nat) (s : pystr) : bool :=
  match s with
  | [] => true
  | c :: s' =>
      if is_digit c
      then (S run <? n)%nat && digit_runs_below n (S run) s'
      else digit_runs_below n 0 s'
  end.

(** The characters that open an array or an object. *)
Definition is_opener (c : N) : bool := (c =? 91) || (c =? 123).

(** A text on which [json.loads] can do nothing but return a value or
    raise [json.JSONDecodeError]: with at most a hundred opening brackets
    and braces it is not nested deeper than that, far from the recursion
    limit, and it has no run of 640 digits or more, the shortest integer
    that the conversion can refuse. *)
Definition within_decoder_limits (s : pystr) : Prop :=
  (length (List.filter is_opener s) <= 100)%nat /\
  digit_runs_below 640 0 s = true.


#[local] Set Warnings "-clear-no-such-hyp,-level-tolerance".

Ltac eqb_false d :=
  repeat match goal with
         | |- context [d =? ?a] => destruct (N.eqb_spec d a); [lia|]
         | |- context [?a =? d] => destruct (N.eqb_spec a d); [lia|]
         end.

(* ===================================================================== *)
(** * Properties of the string operations *)
(* ===================================================================== *)

Lemma startswith_spec p s :
  startswith p s = true <-> exists post, s = p ++ post.
Proof.
  revert s. induction p as [|a p IH]; intros s; simpl.
  - split; eauto.
  - destruct s as [|b s]; simpl.
    + split; [discriminate | intros [post H]; discriminate].
    + rewrite andb_true_iff, N.eqb_eq, IH. split.
      * intros [-> [post ->]]. eauto.
      * intros [post H]. injection H as -> ->. eauto.
Qed.

Lemma startswith_app p s : startswith p (p ++ s) = true.
Proof. apply startswith_spec. eauto. Qed.

Lemma contains_spec p s : contains p s = true <-> substring_of p s.
Proof.
  unfold substring_of. induction s as [|c s IH].
  - simpl. rewrite orb_false_r, startswith_spec. split.
    + intros [post H]. exists [], post. exact H.
    + intros [pre [post H]]. destruct pre; simpl in H.
      * eauto.
      * discriminate.
  - cbn [contains]. rewrite orb_true_iff, startswith_spec, IH. split.
    + intros [[post H] | [pre [post H]]].
      * exists [], post. exact H.
      * exists (c :: pre), post. simpl. now rewrite H.
    + intros [pre [post H]]. destruct pre as [|c' pre]; simpl in H.
      * left. eauto.
      * right. injection H as -> ->. eauto.
Qed.

Lemma str_eqb_eq a b : str_eqb a b = true <-> a = b.
Proof. unfold str_eqb. apply bool_decide_eq_true. Qed.

Lemma str_eqb_neq a b : str_eqb a b = false <-> a <> b.
Proof. unfold str_eqb. apply bool_decide_eq_false. Qed.

Lemma str_eqb_refl a : str_eqb a a = true.
Proof. now apply str_eqb_eq. Qed.

Lemma test_runtime_lower : lower_spec test_runtime.
Proof.
  split.
  - intros s. cbn. unfold ascii_lower. destruct s; simpl; split; congruence.
  - reflexivity.
Qed.

Section MatcherFacts.

Context {rt : PyRuntime}.
Hypothesis lower_ok : lower_spec rt.

Lemma match_signature_true_iff sig info :
  match_signature sig info = true <-> matches_spec sig info.
Proof.
  unfold match_signature, matches_spec.
  destruct (sig_pattern sig) as [pat|]; simpl.
  2:{ rewrite (proj2 (lower_nil_iff rt lower_ok [])) by reflexivity.
      simpl. split; [discriminate | intros [H _]; now destruct H]. }
  destruct (str_eqb (lower pat) []) eqn:Hp; simpl.
  { apply str_eqb_eq in Hp.
    apply (proj1 (lower_nil_iff rt lower_ok pat)) in Hp. subst pat.
    split; [discriminate | intros [H _]; now destruct H]. }
  apply str_eqb_neq in Hp.
  assert (Hpat : pat <> []).
  { intros ->. apply Hp. now apply (lower_nil_iff rt lower_ok). }
  destruct (sig_match_type sig) as [mt|]; simpl.
  2:{ split; [discriminate | intros [_ [[H _]|[H _]]]; discriminate]. }
  destruct (str_eqb mt []) eqn:Hm; simpl.
  { apply str_eqb_eq in Hm. subst mt.
    split; [discriminate | intros [_ [[H _]|[H _]]]; discriminate]. }
  destruct (str_eqb mt process_name_contains) eqn:H1.
  { apply str_eqb_eq in H1. subst mt. rewrite contains_spec. split.
    - intros H. split; [exact Hpat | left; split; [reflexivity | exact H]].
    - intros [_ [[_ H]|[H _]]]; [exact H | discriminate]. }
  apply str_eqb_neq in H1.
  destruct (str_eqb mt cmdline_contains) eqn:H2.
  { apply str_eqb_eq in H2. subst mt. rewrite contains_spec. split.
    - intros H. split; [exact Hpat | right; split; [reflexivity | exact H]].
    - intros [_ [[H _]|[_ H]]]; [discriminate | exact H]. }
  apply str_eqb_neq in H2.
  split; [discriminate |].
  intros [_ [[H _]|[H _]]]; injection H as ->; contradiction.
Qed.

End MatcherFacts.

(* ===================================================================== *)
(** * The JSON codec: strings *)
(* ===================================================================== *)

Lemma N_below_32 (P : N -> Prop) :
  (forall n : nat, (n < 32)%nat -> P (N.of_nat n)) -> forall c, c < 32 -> P c.
Proof.
  intros H c Hc. rewrite <- (N2Nat.id c). apply H. lia.
Qed.

Lemma hex4_control c :
  c < 32 -> hex4 48 48 (hex_digit (c / 16)) (hex_digit (c mod 16)) = Some c.
Proof.
  revert c. apply N_below_32. intros n Hn.
  do 32 (destruct n as [|n]; [reflexivity|]). lia.
Qed.

Lemma scanstring_cons_plain c s :
  c <> 34 -> c <> 92 -> 32 <= c ->
  scanstring (c :: s) = cons_char c (scanstring s).
Proof.
  intros H1 H2 H3. cbn [scanstring].
  destruct (N.eqb_spec c 34); [contradiction|].
  destruct (N.eqb_spec c 92); [contradiction|].
  destruct (N.leb_spec c 31); [lia|]. reflexivity.
Qed.

Lemma scanstring_simple_escape e d s :
  e <> 117 -> simple_escape e = Some d ->
  scanstring (92 :: e :: s) = cons_char d (scanstring s).
Proof.
  intros H1 H2. cbn [scanstring]. cbn [N.eqb Pos.eqb].
  destruct (N.eqb_spec e 117); [contradiction|]. now rewrite H2.
Qed.

Lemma scanstring_control c a s :
  c < 32 ->
  scanstring (92 :: 117 :: 48 :: 48 :: hex_digit (c / 16) ::
              hex_digit (c mod 16) :: a :: s)
  = cons_char c (scanstring (a :: s)).
Proof.
  intros Hc. cbn [scanstring]. cbn [N.eqb Pos.eqb].
  rewrite (hex4_control c Hc).
  replace (is_high_surrogate c) with false; [reflexivity|].
  unfold is_high_surrogate. symmetry. apply andb_false_iff. left.
  apply N.leb_gt. lia.
Qed.

(** The scanner reads back what the encoder wrote between the quotes. *)
Lemma scanstring_escape s rest :
  scanstring (flat_map escape_char s ++ 34 :: rest) = Parsed s rest.
Proof.
  induction s as [|c s IH]; [reflexivity|].
  cbn [flat_map]. rewrite <- app_assoc.
  remember (flat_map escape_char s ++ 34 :: rest) as X eqn:HX.
  unfold escape_char.
  destruct (N.eqb_spec c 34) as [->|H34].
  { cbn [app]. rewrite (scanstring_simple_escape 34 34) by easy. now rewrite IH. }
  destruct (N.eqb_spec c 92) as [->|H92].
  { cbn [app]. rewrite (scanstring_simple_escape 92 92) by easy. now rewrite IH. }
  destruct (N.eqb_spec c 10) as [->|H10].
  { cbn [app]. rewrite (scanstring_simple_escape 110 10) by easy. now rewrite IH. }
  destruct (N.eqb_spec c 13) as [->|H13].
  { cbn [app]. rewrite (scanstring_simple_escape 114 13) by easy. now rewrite IH. }
  destruct (N.eqb_spec c 9) as [->|H9].
  { cbn [app]. rewrite (scanstring_simple_escape 116 9) by easy. now rewrite IH. }
  destruct (N.eqb_spec c 8) as [->|H8].
  { cbn [app]. rewrite (scanstring_simple_escape 98 8) by easy. now rewrite IH. }
  destruct (N.eqb_spec c 12) as [->|H12].
  { cbn [app]. rewrite (scanstring_simple_escape 102 12) by easy. now rewrite IH. }
  destruct (N.ltb_spec c 32) as [Hlt|Hge].
  - cbn [app]. destruct X as [|a X'].
    { destruct (flat_map escape_char s); discriminate. }
    rewrite scanstring_control by exact Hlt. now rewrite IH.
  - cbn [app]. rewrite scanstring_cons_plain by (try assumption; lia).
    now rewrite IH.
Qed.

Lemma scanstring_basestring s rest :
  exists t, encode_basestring s ++ rest = 34 :: t /\ scanstring t = Parsed s rest.
Proof.
  exists (flat_map escape_char s ++ 34 :: rest). split.
  - unfold encode_basestring. cbn [app]. now rewrite <- app_assoc.
  - apply scanstring_escape.
Qed.

(** The encoder writes no control character: a log line holds no line
    end but its last character. *)
Lemma escape_char_printable c : Forall (fun d => 32 <= d) (escape_char c).
Proof.
  unfold escape_char.
  repeat match goal with
         | |- context [if ?a =? ?b then _ else _] =>
             destruct (N.eqb_spec a b);
             [repeat constructor; lia|]
         end.
  destruct (N.ltb_spec c 32) as [Hlt|Hge].
  - clear - Hlt. revert c Hlt. apply N_below_32. intros n Hn.
    do 32 (destruct n as [|n];
           [repeat constructor; apply N.leb_le; reflexivity|]).
    lia.
  - repeat constructor. exact Hge.
Qed.

Lemma encode_basestring_printable s :
  Forall (fun d => 32 <= d) (encode_basestring s).
Proof.
  unfold encode_basestring. constructor; [lia|].
  apply Forall_app. split.
  - induction s; cbn [flat_map]; [constructor|].
    apply Forall_app. split; [apply escape_char_printable | assumption].
  - repeat constructor. lia.
Qed.

(* ===================================================================== *)
(** * The JSON codec: integers *)
(* ===================================================================== *)

Lemma uint_digits_are_digits u : Forall (fun c => is_digit c = true) (uint_digits u).
Proof. induction u; cbn [uint_digits]; constructor; auto. Qed.

Lemma digits_uint_digits u : digits_uint (uint_digits u) = u.
Proof. induction u; cbn [uint_digits digits_uint]; rewrite ?IHu; reflexivity. Qed.

Lemma span_digits_app ds rest :
  Forall (fun c => is_digit c = true) ds -> value_end rest ->
  span_digits (ds ++ rest) = (ds, rest).
Proof.
  intros Hds Hrest. induction Hds as [|c ds Hc _ IH]; cbn [app span_digits].
  - destruct rest as [|c rest]; [reflexivity|]. cbn [span_digits].
    destruct Hrest as [->| [->| ->]]; reflexivity.
  - now rewrite Hc, IH.
Qed.

Lemma nzhead_not_D0 u v : Decimal.nzhead u <> Decimal.D0 v.
Proof. induction u; cbn [Decimal.nzhead]; try discriminate. exact IHu. Qed.

Lemma pos_to_uint_head p : nonzero_head (Pos.to_uint p).
Proof.
  assert (Hn : Decimal.unorm (Pos.to_uint p) = Pos.to_uint p).
  { rewrite <- (DecimalPos.Unsigned.to_of (Pos.to_uint p)).
    now rewrite DecimalPos.Unsigned.of_to. }
  pose proof (DecimalPos.Unsigned.to_uint_nonzero p) as Hz.
  destruct (Pos.to_uint p) as [|u|u|u|u|u|u|u|u|u|u]; cbn [nonzero_head]; auto.
  unfold Decimal.unorm in Hn. cbn [Decimal.nzhead] in Hn.
  destruct (Decimal.nzhead u) eqn:Hu; try discriminate Hn.
  - injection Hn as <-. now apply Hz.
  - exact (nzhead_not_D0 u u0 Hu).
Qed.

(** The number scanner reads an integer written by [int_repr] up to the
    end of its digits. *)
Lemma match_number_unsigned sign u rest :
  sign = [] \/ sign = [45] ->
  nonzero_head u \/ u = Decimal.D0 Decimal.Nil ->
  value_end rest ->
  match_number (sign ++ uint_digits u ++ rest)
  = Parsed (JInt (py_int sign (uint_digits u))) rest.
Proof.
  intros Hsign Hu Hrest.
  assert (Hexp : forall s5 : pystr, value_end s5 ->
            match s5 with
            | e :: s' =>
                if (e =? 101) || (e =? 69) then
                  let '(sg, s'') :=
                    match s' with
                    | g :: t => if (g =? 45) || (g =? 43) then ([g], t)
                                else ([], s')
                    | [] => ([], s')
                    end in
                  let '(ed, r) := span_digits s'' in
                  match ed with
                  | [] => ([], s5)
                  | _ :: _ => (e :: sg ++ ed, r)
                  end
                else ([], s5)
            | [] => ([], s5)
            end = (@nil N, s5)).
  { intros [|e s'] H; [reflexivity|].
    destruct H as [->| [->| ->]]; reflexivity. }
  assert (Hfrac : forall s3 : pystr, value_end s3 ->
            match s3 with
            | p :: d :: s' =>
                if (p =? 46) && is_digit d
                then let '(fd, r) := span_digits s' in (46 :: d :: fd, r)
                else ([], s3)
            | _ => ([], s3)
            end = (@nil N, s3)).
  { intros [|p [|d s']] H; try reflexivity.
    destruct H as [->| [->| ->]]; reflexivity. }
  destruct Hu as [Hu| ->].
  - destruct u as [|u|u|u|u|u|u|u|u|u|u]; try contradiction;
      cbn [uint_digits app];
      destruct Hsign as [-> | ->]; cbn [app]; unfold match_number;
      cbn [N.eqb Pos.eqb N.leb N.compare Pos.compare Pos.compare_cont andb];
      rewrite (span_digits_app _ _ (uint_digits_are_digits u) Hrest);
      cbn iota; rewrite (Hfrac _ Hrest); cbn iota;
      rewrite (Hexp _ Hrest); reflexivity.
  - cbn [uint_digits app].
    destruct Hsign as [-> | ->]; cbn [app]; unfold match_number;
      cbn [N.eqb Pos.eqb N.leb N.compare Pos.compare Pos.compare_cont andb];
      cbn iota; rewrite (Hfrac _ Hrest); cbn iota;
      rewrite (Hexp _ Hrest); reflexivity.
Qed.

Lemma int_repr_shape z :
  exists sign u,
    (sign = [] \/ sign = [45]) /\
    (nonzero_head u \/ u = Decimal.D0 Decimal.Nil) /\
    int_repr z = sign ++ uint_digits u /\
    py_int sign (uint_digits u) = z.
Proof.
  unfold int_repr. pose proof (DecimalZ.of_to z) as Hz.
  destruct z as [|p|p]; cbn [Z.to_int] in *.
  - exists [], (Decimal.D0 Decimal.Nil). repeat split; auto.
  - exists [], (Pos.to_uint p). repeat split; auto.
    + left. apply pos_to_uint_head.
    + unfold py_int. now rewrite digits_uint_digits.
  - exists [45], (Pos.to_uint p). repeat split; auto.
    + left. apply pos_to_uint_head.
    + unfold py_int. now rewrite digits_uint_digits.
Qed.

Lemma match_number_int_repr z rest :
  value_end rest -> match_number (int_repr z ++ rest) = Parsed (JInt z) rest.
Proof.
  intros Hrest. destruct (int_repr_shape z) as (sign & u & Hs & Hu & -> & Hz).
  rewrite <- app_assoc, match_number_unsigned by assumption. now rewrite Hz.
Qed.

(* ===================================================================== *)
(** * The JSON codec: values *)
(* ===================================================================== *)

(** Induction on a JSON value, with the hypothesis for every element of
    an array and every value of an object. *)
Lemma json_nested_ind (P : json -> Prop) :
  P JNull ->
  (forall b, P (JBool b)) ->
  (forall z, P (JInt z)) ->
  (forall lit, P (JFloat lit)) ->
  (forall s, P (JStr s)) ->
  (forall l, Forall P l -> P (JArr l)) ->
  (forall m, Forall (fun kv => P (snd kv)) m -> P (JObj m)) ->
  forall v, P v.
Proof.
  intros Hnull Hbool Hint Hfloat Hstr Harr Hobj.
  fix IH 1. intros [ | b | z | lit | s | l | m].
  - exact Hnull.
  - apply Hbool.
  - apply Hint.
  - apply Hfloat.
  - apply Hstr.
  - apply Harr. induction l as [|x l IHl]; constructor; [apply IH | exact IHl].
  - apply Hobj. induction m as [|[k x] m IHm]; constructor; [apply IH | exact IHm].
Qed.

Lemma head_ok_app a b : head_ok a -> head_ok (a ++ b).
Proof. destruct a; [contradiction | exact id]. Qed.

Lemma skip_ws_head_ok s : head_ok s -> skip_ws s = s.
Proof. destruct s as [|c s]; [contradiction|]. intros [H _]. cbn. now rewrite H. Qed.

Lemma uint_digits_head u :
  nonzero_head u \/ u = Decimal.D0 Decimal.Nil ->
  exists d ds, uint_digits u = d :: ds /\ is_digit d = true.
Proof.
  intros [H| ->].
  - destruct u; try contradiction; cbn [uint_digits]; eauto.
  - cbn. eauto.
Qed.

Lemma int_repr_head z :
  (exists d ds, int_repr z = d :: ds /\ is_digit d = true) \/
  (exists d ds, int_repr z = 45 :: d :: ds /\ is_digit d = true).
Proof.
  destruct (int_repr_shape z) as (sign & u & Hs & Hu & -> & _).
  destruct (uint_digits_head u Hu) as (d & ds & -> & Hd).
  destruct Hs as [-> | ->]; [left | right]; cbn [app]; eauto.
Qed.

Lemma is_digit_range d : is_digit d = true -> 48 <= d <= 57.
Proof. unfold is_digit. rewrite andb_true_iff, !N.leb_le. lia. Qed.


Lemma dumps_head_ok v : plainb v = true -> head_ok (dumps v).
Proof.
  destruct v as [ | [|] | z | lit | s | l | m]; cbn [plainb dumps];
    try discriminate; intros _; try (cbn; repeat split; discriminate).
  destruct (int_repr_head z) as [(d & ds & -> & Hd) | (d & ds & -> & Hd)].
  - apply is_digit_range in Hd. cbn [head_ok]. unfold is_json_ws.
    repeat split; try lia. eqb_false d. reflexivity.
  - cbn. repeat split; discriminate.
Qed.

(** A text that starts with a digit, or a sign and a digit, is scanned as
    a number. *)
Lemma parse_value_number fuel s :
  (exists d ds, s = d :: ds /\ is_digit d = true) \/
  (exists d ds, s = 45 :: d :: ds /\ is_digit d = true) ->
  parse_value (S fuel) s = match_number s.
Proof.
  intros [(d & ds & -> & Hd) | (d & ds & -> & Hd)];
    apply is_digit_range in Hd; cbn [parse_value].
  - eqb_false d.
    cbn [pys List.map list_ascii_of_string N_of_ascii N_of_digits startswith
         N.add N.mul].
    eqb_false d. reflexivity.
  - cbn [N.eqb Pos.eqb].
    cbn [pys List.map list_ascii_of_string N_of_ascii N_of_digits startswith
         N.add N.mul N.eqb Pos.eqb andb].
    eqb_false d. reflexivity.
Qed.

Lemma parse_value_int fuel z rest :
  value_end rest ->
  parse_value (S fuel) (int_repr z ++ rest) = Parsed (JInt z) rest.
Proof.
  intros Hrest. rewrite parse_value_number.
  - now apply match_number_int_repr.
  - destruct (int_repr_head z) as [(d & ds & -> & Hd) | (d & ds & -> & Hd)];
      [left | right]; cbn [app]; eauto.
Qed.

Lemma parse_value_str fuel s rest :
  parse_value (S fuel) (encode_basestring s ++ rest) = Parsed (JStr s) rest.
Proof.
  destruct (scanstring_basestring s rest) as (t & -> & Ht).
  cbn [parse_value N.eqb Pos.eqb]. now rewrite Ht.
Qed.

Lemma item_separator_eq : item_separator = [44; 32].
Proof. reflexivity. Qed.

Lemma key_separator_eq : key_separator = [58; 32].
Proof. reflexivity. Qed.

Lemma str_join_cons2 sep a b l :
  str_join sep (a :: b :: l) = a ++ sep ++ str_join sep (b :: l).
Proof. reflexivity. Qed.

Lemma str_join_length_elem sep x l :
  In x l -> (length x <= length (str_join sep l))%nat.
Proof.
  induction l as [|a [|b l] IH]; intros Hin.
  - destruct Hin.
  - destruct Hin as [->|[]]. cbn. lia.
  - rewrite str_join_cons2, !length_app.
    destruct Hin as [->|Hin]; [lia|]. specialize (IH Hin). lia.
Qed.

Lemma parse_array_items_join pv l : forall n rest,
  l <> [] ->
  Nat.lt (length (str_join item_separator (List.map dumps l) ++ 93 :: rest)) n ->
  Forall (reads_back pv) l ->
  parse_array_items pv n (str_join item_separator (List.map dumps l) ++ 93 :: rest)
  = Parsed l rest.
Proof.
  induction l as [|x l IH]; intros n rest Hne Hn Hall; [contradiction|].
  destruct n as [|n]; [unfold Nat.lt in *; lia|].
  apply Forall_cons in Hall as [[Hhx Hx] Hall].
  destruct l as [|y l].
  - cbn [List.map str_join parse_array_items].
    rewrite Hx by (cbn; auto). reflexivity.
  - cbn [List.map] in *. rewrite str_join_cons2 in *.
    rewrite item_separator_eq in *. rewrite <- !app_assoc in *.
    cbn [app] in *.
    cbn [parse_array_items]. rewrite Hx by (cbn; auto).
    cbn [skip_ws is_json_ws N.eqb Pos.eqb orb].
    assert (Hy : head_ok (str_join [44; 32] (dumps y :: List.map dumps l)
                          ++ 93 :: rest)).
    { apply head_ok_app. apply Forall_cons in Hall as [[Hhy _] _].
      destruct l; cbn [List.map];
        [exact Hhy | rewrite str_join_cons2; now apply head_ok_app]. }
    rewrite (skip_ws_head_ok _ Hy).
    rewrite (IH n rest); [reflexivity | discriminate | | exact Hall].
    unfold Nat.lt in *. rewrite length_app in Hn. cbn [length] in Hn. lia.
Qed.

Lemma parse_object_items_join pv m : forall n rest,
  m <> [] ->
  Nat.lt (length (str_join item_separator (List.map item_text m) ++ 125 :: rest)) n ->
  Forall (fun kv => reads_back pv (snd kv)) m ->
  parse_object_items pv n
    (str_join item_separator (List.map item_text m) ++ 125 :: rest)
  = Parsed m rest.
Proof.
  induction m as [|[k x] m IH]; intros n rest Hne Hn Hall; [contradiction|].
  destruct n as [|n]; [unfold Nat.lt in *; lia|].
  apply Forall_cons in Hall as [[Hhx Hx] Hall]. cbn [snd] in *.
  assert (Hitem : forall tail, value_end tail ->
            parse_object_items pv (S n) (item_text (k, x) ++ tail) =
            match skip_ws tail with
            | d :: r3 =>
                if d =? 125 then Parsed [(k, x)] r3
                else if d =? 44
                then parse_map (cons (k, x))
                       (parse_object_items pv n (skip_ws r3))
                else DecodeError
            | [] => DecodeError
            end).
  { intros tail Htail. unfold item_text, encode_basestring.
    rewrite key_separator_eq. rewrite <- !app_assoc. cbn [app]. rewrite <- !app_assoc. cbn [app].
    cbn [parse_object_items N.eqb Pos.eqb].
    rewrite scanstring_escape. cbn [skip_ws is_json_ws N.eqb Pos.eqb orb].
    rewrite (skip_ws_head_ok (dumps x ++ tail)) by now apply head_ok_app.
    now rewrite Hx. }
  destruct m as [|[k' y] m].
  - cbn [List.map str_join]. rewrite Hitem by (cbn; auto). reflexivity.
  - cbn [List.map] in *. rewrite str_join_cons2 in *.
    rewrite item_separator_eq in *. rewrite <- !app_assoc in *.
    cbn [app] in *.
    rewrite Hitem by (cbn; auto).
    cbn [skip_ws is_json_ws N.eqb Pos.eqb orb].
    assert (Hy : head_ok (str_join [44; 32]
                            (item_text (k', y) :: List.map item_text m)
                          ++ 125 :: rest)).
    { apply head_ok_app.
      assert (Hk : head_ok (item_text (k', y))) by (cbn; repeat split; discriminate).
      destruct m; cbn [List.map];
        [exact Hk | rewrite str_join_cons2; now apply head_ok_app]. }
    rewrite (skip_ws_head_ok _ Hy).
    rewrite (IH n rest); [reflexivity | discriminate | | exact Hall].
    unfold Nat.lt in *. rewrite length_app in Hn. cbn [length] in Hn. lia.
Qed.

Lemma dict_set_fresh k v m :
  ~ In k (List.map fst m) -> dict_set k v m = m ++ [(k, v)].
Proof.
  induction m as [|[k' v'] m IH]; intros Hk; [reflexivity|].
  cbn [dict_set]. cbn [List.map fst In] in Hk.
  destruct (str_eqb k' k) eqn:E.
  - apply str_eqb_eq in E. tauto.
  - cbn [app]. rewrite IH by tauto. reflexivity.
Qed.

Lemma dict_of_pairs_fold l : forall acc,
  NoDup (List.map fst (acc ++ l)) ->
  fold_left (fun d '(k, v) => dict_set k v d) l acc = acc ++ l.
Proof.
  induction l as [|[k v] l IH]; intros acc Hnd.
  - now rewrite app_nil_r.
  - cbn [fold_left].
    assert (Hacc : acc ++ (k, v) :: l = (acc ++ [(k, v)]) ++ l)
      by now rewrite <- app_assoc.
    rewrite Hacc in *. rewrite dict_set_fresh.
    + now apply IH.
    + rewrite !List.map_app in Hnd. apply NoDup_app in Hnd as [Hnd _].
      apply NoDup_app in Hnd as (_ & Hnd & _).
      intros Hin. apply (Hnd k).
      * now apply list_elem_of_In.
      * cbn. left.
Qed.

Lemma dict_of_pairs_nodup m :
  NoDup (List.map fst m) -> dict_of_pairs m = m.
Proof. intros H. unfold dict_of_pairs. now rewrite dict_of_pairs_fold. Qed.

Lemma dumps_obj_eq m :
  dumps (JObj m) = 123 :: str_join item_separator (List.map item_text m) ++ [125].
Proof.
  reflexivity.
Qed.

Lemma dumps_arr_eq l :
  dumps (JArr l) = 91 :: str_join item_separator (List.map dumps l) ++ [93].
Proof. reflexivity. Qed.

(** The decoder reads back every plain value that the encoder wrote,
    whatever follows it, when the fuel exceeds the length of its text. *)
Lemma parse_value_dumps v :
  plainb v = true ->
  forall fuel rest,
    Nat.lt (length (dumps v)) fuel -> value_end rest ->
    parse_value fuel (dumps v ++ rest) = Parsed v rest.
Proof.
  induction v as [ | b | z | lit | s | l IH | m IH] using json_nested_ind;
    intros Hp fuel rest Hfuel Hrest;
    (destruct fuel as [|fuel]; [unfold Nat.lt in Hfuel; lia|]).
  - reflexivity.
  - destruct b; reflexivity.
  - now apply parse_value_int.
  - discriminate Hp.
  - apply parse_value_str.
  - cbn [plainb] in Hp. rewrite dumps_arr_eq in *.
    cbn [app]. rewrite <- app_assoc. cbn [app].
    cbn [parse_value N.eqb Pos.eqb].
    destruct l as [|x l]; [reflexivity|].
    set (J := str_join item_separator (List.map dumps (x :: l))) in *.
    assert (Hall : Forall (reads_back (parse_value fuel)) (x :: l)).
    { apply Forall_forall. intros y Hy.
      rewrite Forall_forall in IH.
      assert (Hpy : plainb y = true).
      { rewrite forallb_forall in Hp. apply Hp. now apply list_elem_of_In. }
      split; [now apply dumps_head_ok|].
      intros r Hr. apply IH; try assumption.
      assert (Hlen : (length (dumps y) <= length J)%nat).
      { apply str_join_length_elem. apply in_map. now apply list_elem_of_In. }
      unfold Nat.lt in *. cbn [length] in Hfuel. rewrite length_app in Hfuel.
      cbn [length] in Hfuel. lia. }
    assert (HJ : head_ok (J ++ 93 :: rest)).
    { apply head_ok_app. apply Forall_cons in Hall as [[Hx _] _].
      unfold J. destruct l; cbn [List.map];
        [exact Hx | rewrite str_join_cons2; now apply head_ok_app]. }
    unfold parse_array. rewrite (skip_ws_head_ok _ HJ).
    destruct (J ++ 93 :: rest) as [|c r] eqn:E; [destruct HJ|].
    destruct HJ as (_ & Hc & _).
    destruct (N.eqb_spec c 93); [contradiction|].
    rewrite <- E. unfold J.
    rewrite parse_array_items_join; [reflexivity | discriminate | | exact Hall].
    unfold Nat.lt. lia.
  - cbn [plainb] in Hp. apply andb_true_iff in Hp as [Hnd Hp].
    apply bool_decide_eq_true in Hnd.
    rewrite dumps_obj_eq in *.
    cbn [app]. rewrite <- app_assoc. cbn [app].
    cbn [parse_value N.eqb Pos.eqb].
    destruct m as [|kx m]; [reflexivity|].
    set (J := str_join item_separator (List.map item_text (kx :: m))) in *.
    assert (Hall : Forall (fun kv => reads_back (parse_value fuel) (snd kv))
                     (kx :: m)).
    { apply Forall_forall. intros [k y] Hy. cbn [snd].
      rewrite Forall_forall in IH.
      assert (Hpy : plainb y = true).
      { rewrite forallb_forall in Hp. apply (Hp (k, y)).
        now apply list_elem_of_In. }
      split; [now apply dumps_head_ok|].
      intros r Hr. apply (IH (k, y)); try assumption.
      assert (Hlen : (length (item_text (k, y)) <= length J)%nat).
      { apply str_join_length_elem.
        apply (in_map item_text). now apply list_elem_of_In. }
      unfold item_text in Hlen. rewrite !length_app in Hlen.
      unfold Nat.lt in *. cbn [length] in Hfuel. rewrite length_app in Hfuel.
      cbn [length] in Hfuel. cbn [snd]. lia. }
    assert (HJ : head_ok (J ++ 125 :: rest)).
    { apply head_ok_app.
      assert (Hk : head_ok (item_text kx))
        by (destruct kx; cbn; repeat split; discriminate).
      unfold J. destruct m; cbn [List.map];
        [exact Hk | rewrite str_join_cons2; now apply head_ok_app]. }
    unfold parse_object. rewrite (skip_ws_head_ok _ HJ).
    destruct (J ++ 125 :: rest) as [|c r] eqn:E; [destruct HJ|].
    destruct HJ as (_ & _ & Hc).
    destruct (N.eqb_spec c 125); [contradiction|].
    rewrite <- E. unfold J.
    rewrite parse_object_items_join; [| discriminate | | exact Hall].
    + cbn [parse_map]. rewrite dict_of_pairs_nodup by exact Hnd. reflexivity.
    + unfold Nat.lt. lia.
Qed.

(** [json.loads(json.dumps(v, ensure_ascii=False)) == v] *)
Lemma loads_dumps v : plainb v = true -> loads (dumps v) = Some v.
Proof.
  intros Hp. unfold loads, decode.
  pose proof (dumps_head_ok v Hp) as Hh.
  rewrite (skip_ws_head_ok _ Hh).
  assert (Hbom : startswith [65279] (dumps v) = false).
  { destruct (dumps v) as [|c r] eqn:E; [destruct Hh|].
    cbn [startswith]. destruct (N.eqb_spec 65279 c) as [<-|]; [|reflexivity].
    exfalso. clear Hh.
    destruct v as [ | [|] | z | lit | s | l | m];
      try discriminate Hp; try discriminate E.
    cbn [dumps] in E.
    destruct (int_repr_head z) as [(d & ds & Hz & Hd) | (d & ds & Hz & Hd)];
      rewrite Hz in E.
    - injection E as E _. apply is_digit_range in Hd. lia.
    - discriminate E. }
  rewrite Hbom.
  pose proof (parse_value_dumps v Hp (S (length (dumps v))) []) as H.
  rewrite app_nil_r in H. rewrite H; [reflexivity | unfold Nat.lt; lia | exact I].
Qed.

(* ===================================================================== *)
(** * Log lines *)
(* ===================================================================== *)

Lemma str_join_printable sep l :
  printable sep -> Forall printable l -> printable (str_join sep l).
Proof.
  intros Hsep Hl. induction Hl as [|x l Hx Hl IH]; [constructor|].
  destruct l as [|y l]; [exact Hx|].
  rewrite str_join_cons2. apply Forall_app. split; [exact Hx|].
  apply Forall_app. split; [exact Hsep | exact IH].
Qed.

Lemma int_repr_printable z : printable (int_repr z).
Proof.
  destruct (int_repr_shape z) as (sign & u & Hs & _ & -> & _).
  apply Forall_app. split.
  - destruct Hs as [-> | ->]; repeat constructor. lia.
  - eapply Forall_impl; [apply uint_digits_are_digits|].
    intros c Hc. apply is_digit_range in Hc. lia.
Qed.

Lemma item_separator_printable : printable item_separator.
Proof. rewrite item_separator_eq. repeat constructor; lia. Qed.

(** The text of a plain value holds no control character, so no line end. *)
Lemma dumps_printable v : plainb v = true -> printable (dumps v).
Proof.
  induction v as [ | b | z | lit | s | l IH | m IH] using json_nested_ind;
    intros Hp.
  - repeat constructor; apply N.leb_le; reflexivity.
  - destruct b; repeat constructor; apply N.leb_le; reflexivity.
  - apply int_repr_printable.
  - discriminate Hp.
  - apply encode_basestring_printable.
  - rewrite dumps_arr_eq. cbn [plainb] in Hp. constructor; [lia|].
    apply Forall_app. split; [|repeat constructor; lia].
    apply str_join_printable; [apply item_separator_printable|].
    apply Forall_forall. intros t Ht. apply list_elem_of_In in Ht.
    apply in_map_iff in Ht as (x & <- & Hx).
    rewrite Forall_forall in IH. apply IH; [now apply list_elem_of_In|].
    rewrite forallb_forall in Hp. now apply Hp.
  - rewrite dumps_obj_eq. cbn [plainb] in Hp.
    apply andb_true_iff in Hp as [_ Hp]. constructor; [lia|].
    apply Forall_app. split; [|repeat constructor; lia].
    apply str_join_printable; [apply item_separator_printable|].
    apply Forall_forall. intros t Ht. apply list_elem_of_In in Ht.
    apply in_map_iff in Ht as ([k x] & <- & Hx).
    unfold item_text. apply Forall_app. split.
    { apply encode_basestring_printable. }
    apply Forall_app. split.
    { rewrite key_separator_eq. repeat constructor; lia. }
    rewrite Forall_forall in IH. apply (IH (k, x)); [now apply list_elem_of_In|].
    rewrite forallb_forall in Hp. now apply (Hp (k, x)).
Qed.

(** Reading a file line by line: a printable text followed by a line end
    is one line. *)
Lemma readlines_line l rest :
  printable l -> readlines (l ++ 10 :: rest) = (l ++ [10]) :: readlines rest.
Proof.
  intros Hl. induction Hl as [|c l Hc _ IH]; [reflexivity|].
  cbn [app readlines]. rewrite IH.
  destruct (N.eqb_spec c 10); [lia|]. destruct (N.eqb_spec c 13); [lia|].
  reflexivity.
Qed.

Lemma lstrip_nonspace c s : is_space c = false -> lstrip (c :: s) = c :: s.
Proof. intros H. cbn. now rewrite H. Qed.

Lemma lstrip_space c s : is_space c = true -> lstrip (c :: s) = lstrip s.
Proof. intros H. cbn. now rewrite H. Qed.

(** [strip] takes the line end off the text of an object. *)
Lemma strip_object_line m : strip (dumps (JObj m) ++ [10]) = dumps (JObj m).
Proof.
  rewrite dumps_obj_eq. unfold strip. cbn [app].
  rewrite lstrip_nonspace by reflexivity.
  cbn [rev]. rewrite !rev_app_distr. cbn [rev app].
  rewrite lstrip_space by reflexivity.
  rewrite lstrip_nonspace by reflexivity.
  cbn [rev]. rewrite rev_app_distr, rev_involutive. reflexivity.
Qed.

Lemma str_or_nonempty o d : d <> [] -> str_or o d <> [].
Proof. destruct o as [[|c s]|]; cbn; congruence. Qed.

(** Every event of the agent is a plain object. *)
Lemma make_event_plain ts hostname info sig :
  plainb (make_event ts hostname info sig) = true.
Proof.
  unfold make_event. cbn [plainb]. apply andb_true_iff. split.
  - vm_compute. reflexivity.
  - cbn [forallb plainb]. rewrite !andb_true_r.
    assert (H : forallb plainb (List.map JStr (default [] (pi_cmdline info))) = true).
    { induction (default [] (pi_cmdline info)); [reflexivity | exact IHl]. }
    rewrite H. destruct (sig_description sig); reflexivity.
Qed.

Lemma event_line_loads ts hostname info sig :
  loads (strip (event_line (make_event ts hostname info sig)))
  = Some (make_event ts hostname info sig).
Proof.
  unfold event_line. unfold make_event at 1. rewrite strip_object_line.
  apply (loads_dumps (make_event ts hostname info sig)), make_event_plain.
Qed.

Lemma load_lines_event_lines es :
  Forall (fun e => plainb e = true /\ is_object e = true) es ->
  load_lines (readlines (List.concat (List.map event_line es))) = es.
Proof.
  intros H. induction H as [|e es [Hp Ho] _ IH]; [reflexivity|].
  cbn [List.map List.concat]. unfold event_line at 1.
  rewrite <- app_assoc. cbn [app].
  rewrite readlines_line by now apply dumps_printable.
  cbn [load_lines]. destruct e as [ | | | | | | m]; try discriminate Ho.
  rewrite strip_object_line, (loads_dumps _ Hp), IH.
  rewrite dumps_obj_eq. reflexivity.
Qed.

(* ===================================================================== *)
(** * The decoder never runs out of fuel *)
(* ===================================================================== *)

Lemma skip_ws_length s : (length (skip_ws s) <= length s)%nat.
Proof.
  induction s as [|c s IH]; [cbn; lia|].
  cbn [skip_ws]. destruct (is_json_ws c); cbn [length]; lia.
Qed.

Lemma span_digits_length s d r :
  span_digits s = (d, r) -> (length r <= length s)%nat.
Proof.
  revert d r. induction s as [|c s IH]; intros d r H; cbn [span_digits] in H.
  - injection H as <- <-. cbn; lia.
  - destruct (is_digit c).
    + destruct (span_digits s) as [d' r'] eqn:E. injection H as <- <-.
      specialize (IH _ _ eq_refl). cbn [length]. lia.
    + injection H as <- <-. lia.
Qed.

Lemma cons_char_parsed c x str r :
  cons_char c x = Parsed str r -> exists str', x = Parsed str' r.
Proof. destruct x; cbn; intros H; [injection H as <- <-; eauto | | ]; discriminate. Qed.

Lemma cons_char_fuel c x : cons_char c x = OutOfFuel -> x = OutOfFuel.
Proof. destruct x; cbn; intros H; [discriminate | discriminate | reflexivity]. Qed.

Lemma scanstring_bound n : forall s,
  (length s <= n)%nat ->
  scanstring s <> OutOfFuel /\
  forall str r, scanstring s = Parsed str r -> (length r < length s)%nat.
Proof.
  induction n as [|n IH]; intros s Hn.
  - destruct s; [|cbn in Hn; lia]. cbn. split; [discriminate|]. discriminate.
  - assert (Hrec : forall t, (length t < length s)%nat ->
              scanstring t <> OutOfFuel /\
              forall str r, scanstring t = Parsed str r ->
                            (length r < length s)%nat).
    { intros t Ht. destruct (IH t ltac:(lia)) as [H1 H2]. split; [exact H1|].
      intros str r Hr. specialize (H2 _ _ Hr). lia. }
    clear IH.
    assert (Hcc : forall c t, (length t < length s)%nat ->
              cons_char c (scanstring t) <> OutOfFuel /\
              forall str r, cons_char c (scanstring t) = Parsed str r ->
                            (length r < length s)%nat).
    { intros c t Ht. destruct (Hrec t Ht) as [H1 H2]. split.
      - intros H. now apply cons_char_fuel in H.
      - intros str r H. apply cons_char_parsed in H as [str' H]. eauto. }
    clear Hrec.
    destruct s as [|c s1]; [cbn; split; discriminate|].
    cbn [scanstring]. cbn [length] in *.
    destruct (c =? 34).
    { split; [discriminate|]. intros str r H. injection H as <- <-. lia. }
    destruct (c =? 92).
    2:{ destruct (c <=? 31); [split; discriminate|]. apply Hcc. lia. }
    destruct s1 as [|e s2]; [split; discriminate|].
    destruct (e =? 117).
    2:{ destruct (simple_escape e); [|split; discriminate].
        apply Hcc. cbn [length]. lia. }
    destruct s2 as [|h1 [|h2 [|h3 [|h4 s6]]]]; try (split; discriminate).
    destruct s6 as [|b s7]; [split; discriminate|].
    destruct (hex4 h1 h2 h3 h4) as [u|]; [|split; discriminate].
    destruct (is_high_surrogate u).
    2:{ apply Hcc. cbn [length]. lia. }
    destruct s7 as [|u' [|g1 [|g2 [|g3 [|g4 [|x s13]]]]]];
      try (apply Hcc; cbn [length]; lia).
    destruct ((b =? 92) && (u' =? 117)); [|apply Hcc; cbn [length]; lia].
    destruct (hex4 g1 g2 g3 g4) as [u2|]; [|split; discriminate].
    destruct (is_low_surrogate u2); apply Hcc; cbn [length]; lia.
Qed.

Lemma scanstring_fuel s : scanstring s <> OutOfFuel.
Proof. apply (scanstring_bound (length s) s). lia. Qed.

Lemma scanstring_shorter s str r :
  scanstring s = Parsed str r -> (length r < length s)%nat.
Proof. apply (scanstring_bound (length s) s). lia. Qed.

Ltac split_matches :=
  repeat match goal with
         | H : context [span_digits ?x] |- _ =>
             let E := fresh "E" in
             destruct (span_digits x) eqn:E; apply span_digits_length in E
         | H : context [match ?x with _ => _ end] |- _ => destruct x eqn:?
         end.

Lemma match_number_shorter s v r :
  match_number s = Parsed v r -> (length r < length s)%nat.
Proof.
  unfold match_number. intros H.
  split_matches; simplify_eq; cbn [length] in *; lia.
Qed.

Lemma match_number_fuel s : match_number s <> OutOfFuel.
Proof.
  unfold match_number. intros H. split_matches; discriminate.
Qed.

Lemma parse_map_parsed {A B} (f : A -> B) x b r :
  parse_map f x = Parsed b r -> exists a, x = Parsed a r /\ b = f a.
Proof. destruct x; cbn; intros H; simplify_eq; eauto. Qed.

Lemma parse_map_fuel {A B} (f : A -> B) x :
  parse_map f x = OutOfFuel -> x = OutOfFuel.
Proof. destruct x; cbn; intros H; simplify_eq; eauto. Qed.

Lemma parse_array_items_bound pv n : forall s,
  consumes pv ->
  (forall l r, parse_array_items pv n s = Parsed l r ->
               (length r < length s)%nat) /\
  (fuelled pv (length s) -> (length s < n)%nat ->
   parse_array_items pv n s <> OutOfFuel).
Proof.
  induction n as [|n IH]; intros s Hc.
  { split; [discriminate | lia]. }
  cbn [parse_array_items]. destruct (pv s) as [v r| |] eqn:Ev.
  2:{ split; [discriminate | intros; discriminate]. }
  2:{ split; [discriminate|]. intros Hf _ _. now apply (Hf s). }
  pose proof (Hc _ _ _ Ev) as Hr. pose proof (skip_ws_length r) as Hw.
  destruct (skip_ws r) as [|c r'] eqn:Er; [split; intros; discriminate|].
  cbn [length] in Hw.
  destruct (c =? 93).
  { split; [|intros; discriminate]. intros l r0 H. simplify_eq. lia. }
  destruct (c =? 44); [|split; intros; discriminate].
  pose proof (skip_ws_length r') as Hw'.
  destruct (IH (skip_ws r') Hc) as [IH1 IH2]. split.
  - intros l r0 H. apply parse_map_parsed in H as (l' & H & _).
    specialize (IH1 _ _ H). lia.
  - intros Hf Hn H. apply parse_map_fuel in H. revert H. apply IH2; [|lia].
    intros t Ht. apply Hf. lia.
Qed.

Lemma parse_object_items_bound pv n : forall s,
  consumes pv ->
  (forall l r, parse_object_items pv n s = Parsed l r ->
               (length r < length s)%nat) /\
  (fuelled pv (length s) -> (length s < n)%nat ->
   parse_object_items pv n s <> OutOfFuel).
Proof.
  induction n as [|n IH]; intros s Hc.
  { split; [discriminate | lia]. }
  cbn [parse_object_items]. destruct s as [|q s1]; [split; intros; discriminate|].
  destruct (q =? 34); [|split; intros; discriminate].
  destruct (scanstring s1) as [k r| |] eqn:Ek.
  2:{ split; intros; discriminate. }
  2:{ now apply scanstring_fuel in Ek. }
  pose proof (scanstring_shorter _ _ _ Ek) as Hk.
  pose proof (skip_ws_length r) as Hw.
  destruct (skip_ws r) as [|c r1] eqn:Er; [split; intros; discriminate|].
  cbn [length] in *.
  destruct (c =? 58); [|split; intros; discriminate].
  pose proof (skip_ws_length r1) as Hw1.
  destruct (pv (skip_ws r1)) as [v r2| |] eqn:Ev.
  2:{ split; intros; discriminate. }
  2:{ split; [discriminate|]. intros Hf _ _. apply (Hf (skip_ws r1)); [lia|exact Ev]. }
  pose proof (Hc _ _ _ Ev) as Hr2. pose proof (skip_ws_length r2) as Hw2.
  destruct (skip_ws r2) as [|d r3] eqn:Er2; [split; intros; discriminate|].
  cbn [length] in *.
  destruct (d =? 125).
  { split; [|intros; discriminate]. intros l r0 H. simplify_eq. lia. }
  destruct (d =? 44); [|split; intros; discriminate].
  pose proof (skip_ws_length r3) as Hw3.
  destruct (IH (skip_ws r3) Hc) as [IH1 IH2]. split.
  - intros l r0 H. apply parse_map_parsed in H as (l' & H & _).
    specialize (IH1 _ _ H). lia.
  - intros Hf Hn H. apply parse_map_fuel in H. revert H. apply IH2; [|lia].
    intros t Ht. apply Hf. lia.
Qed.

Lemma drop_length_lt {A} n (s : list A) :
  (0 < n)%nat -> s <> [] -> (length (drop n s) < length s)%nat.
Proof. intros Hn Hs. rewrite length_drop. destruct s; [contradiction|]. cbn. lia. Qed.

Lemma parse_value_consumes fuel : consumes (parse_value fuel).
Proof.
  induction fuel as [|fuel IH]; intros s v r H; [discriminate|].
  cbn [parse_value] in H. destruct s as [|c s']; [discriminate|].
  destruct (c =? 34).
  { apply parse_map_parsed in H as (a & H & _).
    apply scanstring_shorter in H. cbn [length]. lia. }
  destruct (c =? 123).
  { apply parse_map_parsed in H as (a & H & _). unfold parse_object in H.
    pose proof (skip_ws_length s') as Hw.
    destruct (skip_ws s') as [|d r'] eqn:E; [discriminate|]. cbn [length] in *.
    destruct (d =? 125); [simplify_eq; lia|].
    apply parse_map_parsed in H as (l & H & _).
    apply (parse_object_items_bound _ _ _ IH) in H. cbn [length] in H. lia. }
  destruct (c =? 91).
  { apply parse_map_parsed in H as (a & H & _). unfold parse_array in H.
    pose proof (skip_ws_length s') as Hw.
    destruct (skip_ws s') as [|d r'] eqn:E; [discriminate|]. cbn [length] in *.
    destruct (d =? 93); [simplify_eq; lia|].
    apply (parse_array_items_bound _ _ _ IH) in H. cbn [length] in H. lia. }
  repeat match type of H with
         | (if ?b then _ else _) = _ =>
             destruct b;
             [injection H as ? ?; subst; clear;
              cbn [drop]; rewrite ?length_drop; cbn [length]; lia|]
         end.
  exact (match_number_shorter _ _ _ H).
Qed.

Lemma parse_value_fuel fuel : forall s,
  (length s < fuel)%nat -> parse_value fuel s <> OutOfFuel.
Proof.
  induction fuel as [|fuel IH]; intros s Hs; [lia|].
  cbn [parse_value]. destruct s as [|c s']; [discriminate|].
  cbn [length] in Hs.
  assert (Hf : forall t : pystr, (length t <= length s')%nat ->
                 fuelled (parse_value fuel) (length t)).
  { intros t Ht u Hu. apply IH. lia. }
  destruct (c =? 34).
  { intros H. apply parse_map_fuel in H. now apply scanstring_fuel in H. }
  destruct (c =? 123).
  { intros H. apply parse_map_fuel in H. unfold parse_object in H.
    pose proof (skip_ws_length s') as Hw.
    destruct (skip_ws s') as [|d r'] eqn:E; [discriminate|].
    destruct (d =? 125); [discriminate|].
    apply parse_map_fuel in H. revert H.
    apply (parse_object_items_bound _ _ _ (parse_value_consumes fuel));
      [apply Hf|]; lia. }
  destruct (c =? 91).
  { intros H. apply parse_map_fuel in H. unfold parse_array in H.
    pose proof (skip_ws_length s') as Hw.
    destruct (skip_ws s') as [|d r'] eqn:E; [discriminate|].
    destruct (d =? 93); [discriminate|]. revert H.
    apply (parse_array_items_bound _ _ _ (parse_value_consumes fuel));
      [apply Hf|]; lia. }
  repeat match goal with
         | |- (if ?b then _ else _) <> _ => destruct b; [discriminate|]
         end.
  apply match_number_fuel.
Qed.

(** [decode] returns a value or [DecodeError]: the fuel that it gives to
    the scanner is enough for every text. *)
Lemma decode_fuel s : decode s <> OutOfFuel.
Proof.
  unfold decode. destruct (startswith [65279] s); [discriminate|].
  pose proof (skip_ws_length s) as Hw.
  destruct (parse_value (S (length s)) (skip_ws s)) eqn:E.
  - destruct (skip_ws rest); discriminate.
  - discriminate.
  - exfalso. revert E. apply parse_value_fuel. lia.
Qed.

Lemma loads_none_iff s : loads s = None <-> decode s = DecodeError.
Proof.
  unfold loads. pose proof (decode_fuel s).
  destruct (decode s); split; intros; congruence.
Qed.

(* ===================================================================== *)
(** * The scan cycle *)
(* ===================================================================== *)

Lemma is_record_for_event ts hostname info sig pid name :
  is_record_for pid name (event_line (make_event ts hostname info sig))
  = (pi_pid info =? pid)%Z && str_eqb (sig_name sig) name.
Proof.
  unfold is_record_for. rewrite event_line_loads. reflexivity.
Qed.

Lemma count_records_app pid name a b :
  count_records pid name (a ++ b)
  = (count_records pid name a + count_records pid name b)%nat.
Proof. unfold count_records. now rewrite List.filter_app, length_app. Qed.

Lemma count_records_event ts hostname info sig pid name :
  count_records pid name [event_line (make_event ts hostname info sig)]
  = if bool_decide ((pi_pid info, sig_name sig) = (pid, name)) then 1%nat else 0%nat.
Proof.
  unfold count_records. cbn [List.filter]. rewrite is_record_for_event.
  destruct (Z.eqb_spec (pi_pid info) pid) as [->|Hp]; cbn [andb].
  - destruct (str_eqb (sig_name sig) name) eqn:E.
    + apply str_eqb_eq in E. subst. now rewrite bool_decide_eq_true_2.
    + apply str_eqb_neq in E. rewrite bool_decide_eq_false_2; [reflexivity|].
      congruence.
  - rewrite bool_decide_eq_false_2; [reflexivity | congruence].
Qed.

Lemma dedup_inv_refl s : dedup_inv s [] s.
Proof. split; [set_solver|]. intros pid name. cbn. split; [lia | discriminate]. Qed.

Lemma dedup_inv_trans s0 a s1 b s2 :
  dedup_inv s0 a s1 -> dedup_inv s1 b s2 -> dedup_inv s0 (a ++ b) s2.
Proof.
  intros [Hs1 Ha] [Hs2 Hb]. split; [set_solver|].
  intros pid name. rewrite count_records_app.
  destruct (Ha pid name) as [Ha1 Ha2]. destruct (Hb pid name) as [Hb1 Hb2].
  destruct (count_records pid name a) as [|[|na]] eqn:Ea; [| |lia].
  - cbn [Nat.add]. split; [exact Hb1|]. intros H.
    destruct (Hb2 H) as [H1 H2]. split; [set_solver | exact H2].
  - destruct (Ha2 eq_refl) as [H1 H2].
    destruct (count_records pid name b) as [|[|nb]] eqn:Eb; [| |lia].
    + split; [lia|]. intros _. split; [exact H1 | set_solver].
    + destruct (Hb2 eq_refl) as [H3 _]. exfalso. apply H3. set_solver.
Qed.

Lemma logged_inv_refl s : logged_inv s [] s.
Proof. intros pid name H1 H2. contradiction. Qed.

Lemma logged_inv_trans s0 a s1 b s2 :
  dedup_inv s0 a s1 -> dedup_inv s1 b s2 ->
  logged_inv s0 a s1 -> logged_inv s1 b s2 -> logged_inv s0 (a ++ b) s2.
Proof.
  intros [Hs1 Ha] [Hs2 Hb] La Lb pid name H2 H0.
  rewrite count_records_app.
  destruct (Ha pid name) as [Ha1 Ha2]. destruct (Hb pid name) as [Hb1 Hb2].
  destruct (decide ((pid, name) ∈ s1)) as [H1|H1].
  - rewrite (La pid name H1 H0).
    destruct (count_records pid name b) as [|[|nb]] eqn:Eb; [lia| |lia].
    destruct (Hb2 eq_refl) as [H3 _]. contradiction.
  - rewrite (Lb pid name H2 H1).
    destruct (count_records pid name a) as [|[|na]] eqn:Ea; [lia| |lia].
    destruct (Ha2 eq_refl) as [_ H3]. contradiction.
Qed.

Section ScanFacts.

Context {rt : PyRuntime}.

Lemma scan_sig_nomatch hostname debug c info sig st :
  match_signature sig info = false ->
  scan_sig hostname debug c info sig st = (st, Returns tt).
Proof. intros H. unfold scan_sig. now rewrite H. Qed.

Lemma scan_sig_seen hostname debug c info sig st :
  (pi_pid info, sig_name sig) ∈ ss_seen st ->
  scan_sig hostname debug c info sig st = (st, Returns tt).
Proof.
  intros H. unfold scan_sig.
  destruct (match_signature sig info); [|reflexivity].
  cbn [negb]. now rewrite bool_decide_eq_true_2.
Qed.

Lemma scan_sig_emit hostname debug c info sig st :
  match_signature sig info = true ->
  (pi_pid info, sig_name sig) ∉ ss_seen st ->
  c_write c (events_written st) = None ->
  scan_sig hostname debug c info sig st
  = (emit_state hostname debug info sig st, Returns tt).
Proof.
  intros Hm Hs Hw. unfold scan_sig.
  rewrite Hm. cbn [negb]. rewrite bool_decide_eq_false_2 by exact Hs.
  rewrite Hw. reflexivity.
Qed.

Lemma scan_sig_fail hostname debug c info sig st e :
  match_signature sig info = true ->
  (pi_pid info, sig_name sig) ∉ ss_seen st ->
  c_write c (events_written st) = Some e ->
  scan_sig hostname debug c info sig st = (fail_state info sig st, Raises e).
Proof.
  intros Hm Hs Hw. unfold scan_sig.
  rewrite Hm. cbn [negb]. rewrite bool_decide_eq_false_2 by exact Hs.
  rewrite Hw. reflexivity.
Qed.

(** The four ways in which the body of the inner loop ends. *)
Lemma scan_sig_cases hostname debug c info sig st :
  (scan_sig hostname debug c info sig st = (st, Returns tt) /\
   (match_signature sig info = false \/
    (pi_pid info, sig_name sig) ∈ ss_seen st)) \/
  (scan_sig hostname debug c info sig st
   = (emit_state hostname debug info sig st, Returns tt) /\
   match_signature sig info = true /\
   (pi_pid info, sig_name sig) ∉ ss_seen st /\
   c_write c (events_written st) = None) \/
  (exists e, scan_sig hostname debug c info sig st
             = (fail_state info sig st, Raises e) /\
   match_signature sig info = true /\
   (pi_pid info, sig_name sig) ∉ ss_seen st /\
   c_write c (events_written st) = Some e).
Proof.
  destruct (match_signature sig info) eqn:Hm.
  2:{ left. split; [now apply scan_sig_nomatch | now left]. }
  destruct (decide ((pi_pid info, sig_name sig) ∈ ss_seen st)) as [Hs|Hs].
  { left. split; [now apply scan_sig_seen | now right]. }
  destruct (c_write c (events_written st)) as [e|] eqn:Hw.
  - right. right. exists e. split; [now apply scan_sig_fail | auto].
  - right. left. split; [now apply scan_sig_emit | auto].
Qed.

Lemma scan_step_refl c st : scan_step c st st (Returns tt).
Proof.
  exists []. split; [now rewrite app_nil_r|]. split; [cbn; lia|].
  split; [apply dedup_inv_refl|].
  split; [intros; lia | apply logged_inv_refl].
Qed.

Lemma scan_step_trans c st0 st1 st2 r :
  scan_step c st0 st1 (Returns tt) -> scan_step c st1 st2 r ->
  scan_step c st0 st2 r.
Proof.
  intros (a & Ha1 & Ha2 & Ha3 & Ha4 & Ha5) (b & Hb1 & Hb2 & Hb3 & Hb4 & Hb5).
  exists (a ++ b). rewrite Hb1, Ha1, app_assoc, length_app.
  split; [reflexivity|]. split; [lia|].
  split; [apply (dedup_inv_trans _ _ _ _ _ Ha3 Hb3)|].
  split.
  - intros k Hk. destruct (Nat.lt_ge_cases k (events_written st1)).
    + apply Ha4. lia.
    + apply Hb4. lia.
  - destruct r as [u|e]; [|exact Hb5].
    apply (logged_inv_trans _ _ _ _ _ Ha3 Hb3 Ha5 Hb5).
Qed.

Lemma dedup_inv_event (ts hostname : pystr) (info : proc_info)
    (sig : signature)
    (s : gset (Z * pystr)) :
  (pi_pid info, sig_name sig) ∉ s ->
  dedup_inv s [event_line (make_event ts hostname info sig)]
    ({[ (pi_pid info, sig_name sig) ]} ∪ s).
Proof.
  intros Hs. split; [set_solver|]. intros pid name.
  rewrite count_records_event. case_bool_decide as E.
  - split; [lia|]. intros _. rewrite <- E. split; [exact Hs | set_solver].
  - split; [lia | discriminate].
Qed.

Lemma logged_inv_event (ts hostname : pystr) (info : proc_info)
    (sig : signature) (s : gset (Z * pystr)) :
  logged_inv s [event_line (make_event ts hostname info sig)]
    ({[ (pi_pid info, sig_name sig) ]} ∪ s).
Proof.
  intros pid name H1 H0. rewrite count_records_event.
  rewrite bool_decide_eq_true_2; [reflexivity|]. set_solver.
Qed.

Lemma scan_sig_step hostname debug c info sig st st' r :
  scan_sig hostname debug c info sig st = (st', r) -> scan_step c st st' r.
Proof.
  intros H.
  destruct (scan_sig_cases hostname debug c info sig st)
    as [[E _] | [(E & Hm & Hs & Hw) | (e & E & Hm & Hs & Hw)]];
    rewrite E in H; injection H as <- <-.
  - apply scan_step_refl.
  - eexists. split; [reflexivity|]. cbn [emit_state events_written ss_seen length].
    split; [lia|]. split; [now apply dedup_inv_event|].
    split; [|apply logged_inv_event]. intros k Hk.
    assert (k = events_written st) as -> by lia. exact Hw.
  - exists []. cbn [fail_state ss_file events_written ss_seen length].
    split; [now rewrite app_nil_r|]. split; [lia|].
    split; [|split; [intros; lia | exact Hw]].
    split; [set_solver|]. intros pid name. cbn. split; [lia | discriminate].
Qed.

Lemma scan_sigs_step hostname debug c info sigs : forall st st' r,
  scan_sigs hostname debug c info sigs st = (st', r) -> scan_step c st st' r.
Proof.
  induction sigs as [|sig sigs IH]; intros st st' r H.
  - injection H as <- <-. apply scan_step_refl.
  - cbn [scan_sigs] in H.
    destruct (scan_sig hostname debug c info sig st) as [st1 [[]|e]] eqn:E.
    + apply (scan_step_trans c st st1 st' r).
      * now apply (scan_sig_step _ _ _ _ _ _ _ _ E).
      * now apply IH.
    + injection H as <- <-. now apply (scan_sig_step _ _ _ _ _ _ _ _ E).
Qed.

Lemma scan_procs_step sigs hostname debug c procs : forall st st' r,
  scan_procs sigs hostname debug c procs st = (st', r) -> scan_step c st st' r.
Proof.
  induction procs as [|[info|] procs IH]; intros st st' r H.
  - injection H as <- <-. apply scan_step_refl.
  - cbn [scan_procs] in H.
    destruct (scan_sigs hostname debug c info sigs st) as [st1 [[]|e]] eqn:E.
    + apply (scan_step_trans c st st1 st' r).
      * now apply (scan_sigs_step _ _ _ _ _ _ _ _ E).
      * now apply IH.
    + injection H as <- <-. now apply (scan_sigs_step _ _ _ _ _ _ _ _ E).
  - now apply IH.
Qed.

End ScanFacts.

Section CycleFacts.

Context {rt : PyRuntime}.

Lemma scan_sigs_marks hostname debug c info sigs : forall st st',
  scan_sigs hostname debug c info sigs st = (st', Returns tt) ->
  forall sig, In sig sigs -> match_signature sig info = true ->
              (pi_pid info, sig_name sig) ∈ ss_seen st'.
Proof.
  induction sigs as [|s sigs IH]; intros st st' H sig Hin Hm; [destruct Hin|].
  cbn [scan_sigs] in H.
  destruct (scan_sig hostname debug c info s st) as [st1 [[]|e]] eqn:E;
    [|discriminate H].
  destruct Hin as [->|Hin]; [|now apply (IH st1 st' H)].
  apply scan_sigs_step in H as (new & _ & _ & [Hsub _] & _).
  apply Hsub.
  destruct (scan_sig_cases hostname debug c info sig st)
    as [[E1 [Hn|Hs]] | [(E1 & _) | (e & E1 & _)]];
    rewrite E1 in E.
  - congruence.
  - injection E as <-. exact Hs.
  - injection E as <-. cbn [emit_state ss_seen]. set_solver.
  - discriminate E.
Qed.

Lemma scan_procs_marks sigs hostname debug c procs : forall st st',
  scan_procs sigs hostname debug c procs st = (st', Returns tt) ->
  forall info sig,
    In (Proc info) procs -> In sig sigs -> match_signature sig info = true ->
    (pi_pid info, sig_name sig) ∈ ss_seen st'.
Proof.
  induction procs as [|[i|] procs IH]; intros st st' H info sig Hin Hs Hm.
  - destruct Hin.
  - cbn [scan_procs] in H.
    destruct (scan_sigs hostname debug c i sigs st) as [st1 [[]|e]] eqn:E;
      [|discriminate H].
    destruct Hin as [Hi|Hin]; [|now apply (IH st1 st' H)].
    injection Hi as ->.
    apply scan_procs_step in H as (new & _ & _ & [Hsub _] & _).
    apply Hsub. now apply (scan_sigs_marks _ _ _ _ _ _ _ E).
  - cbn [scan_procs] in H. destruct Hin as [Hi|Hin]; [discriminate Hi|].
    now apply (IH st st' H).
Qed.

Lemma count_records_take pid name k new :
  (count_records pid name (take k new) <= count_records pid name new)%nat.
Proof.
  rewrite <- (take_drop k new) at 2. rewrite count_records_app. lia.
Qed.

Lemma dedup_inv_take s0 new s1 k :
  dedup_inv s0 new s1 -> dedup_inv s0 (take k new) s1.
Proof.
  intros [Hsub H]. split; [exact Hsub|]. intros pid name.
  pose proof (count_records_take pid name k new) as Hle.
  destruct (H pid name) as [H1 H2]. split; [lia|].
  intros E. apply H2. lia.
Qed.

(** The two ways in which the file is closed: everything written is
    on the disk and the block is left as the loop was, or closing
    fails with records of the cycle in the buffer. *)
Lemma close_log_cases c written r :
  (close_log c written r = (written, r) /\
   (written = [] \/ c_close c = None)) \/
  (exists e, close_log c written r = (take (c_flushed c) written, Raises e) /\
             written <> [] /\ c_close c = Some e).
Proof.
  unfold close_log. destruct written as [|w ws]; [left; auto|].
  destruct (c_close c) as [e|]; [right | left; auto].
  exists e. split; [reflexivity|]. split; [discriminate | reflexivity].
Qed.

Lemma close_log_stored c written r :
  exists k, fst (close_log c written r) = take k written.
Proof.
  destruct (close_log_cases c written r) as [[-> _]|(e & -> & _)].
  - exists (length written). cbn [fst]. now rewrite firstn_all.
  - now exists (c_flushed c).
Qed.

(** The loop of a cycle from its start: the records handed to the
    file, the counter in step with them, and the writes that
    returned. *)
Lemma scan_procs_start signatures hostname debug c st st1 r :
  scan_procs signatures hostname debug c (c_procs c) (scan_start st)
  = (st1, r) ->
  events_written st1 = length (ss_file st1) /\
  dedup_inv (seen st) (ss_file st1) (ss_seen st1) /\
  (forall k, (k < length (ss_file st1))%nat -> c_write c k = None) /\
  match r with
  | Returns _ => logged_inv (seen st) (ss_file st1) (ss_seen st1)
  | Raises e => c_write c (length (ss_file st1)) = Some e
  end.
Proof.
  intros E. apply scan_procs_step in E as (new & E1 & E2 & E3 & E4 & E5).
  cbn [scan_start ss_seen ss_file events_written app Nat.add] in *.
  rewrite E1, E2 in *. split; [reflexivity|]. split; [exact E3|].
  split; [intros k Hk; apply E4; lia | exact E5].
Qed.

(** One cycle, whatever happens on the log: the chunks appended, the
    link between them and [seen], the count returned. *)
Lemma scan_once_step signatures hostname debug c st st' r :
  scan_once signatures hostname debug c st = (st', r) ->
  exists new,
    chunks st' = chunks st ++ new /\
    dedup_inv (seen st) new (seen st') /\
    match r with
    | Returns n => (length new <= n)%nat
    | Raises e => ~ is_oserror e
    end.
Proof.
  unfold scan_once. destruct (c_open c) as [e|] eqn:Eo.
  - intros H. exists []. rewrite app_nil_r.
    destruct e; cbn [scan_except] in H; injection H as <- <-;
      (split; [reflexivity|]); (split; [apply dedup_inv_refl|]);
      cbn; auto.
  - destruct (scan_procs signatures hostname debug c (c_procs c) _)
      as [st1 r1] eqn:E.
    apply scan_procs_start in E as (E2 & E3 & _ & _).
    destruct (close_log_stored c (ss_file st1) r1) as [k Hk].
    destruct (close_log c (ss_file st1) r1) as [stored r'].
    cbn [fst] in Hk. subst stored.
    assert (Hle : (length (take k (ss_file st1)) <= length (ss_file st1))%nat)
      by (rewrite length_take; lia).
    intros H. exists (take k (ss_file st1)).
    assert (Hd : dedup_inv (seen st) (take k (ss_file st1)) (ss_seen st1))
      by now apply dedup_inv_take.
    destruct r' as [[]|e].
    + injection H as <- <-. unfold chunks. cbn [log seen default].
      split; [reflexivity|]. split; [exact Hd | lia].
    + destruct e; cbn [scan_except] in H; injection H as <- <-;
        unfold chunks; cbn [log seen default];
        (split; [reflexivity|]); (split; [exact Hd|]); cbn; auto; lia.
Qed.

(** A cycle without a failure of the log returns normally: every
    matching pair is in [seen] afterwards, and every pair that entered
    [seen] has its record in the log. *)
Lemma scan_once_ok signatures hostname debug c st :
  io_ok c ->
  exists st' new,
    scan_once signatures hostname debug c st = (st', Returns (length new)) /\
    chunks st' = chunks st ++ new /\
    dedup_inv (seen st) new (seen st') /\
    logged_inv (seen st) new (seen st') /\
    forall info sig,
      In (Proc info) (c_procs c) -> In sig signatures ->
      match_signature sig info = true ->
      (pi_pid info, sig_name sig) ∈ seen st'.
Proof.
  intros (Ho & Hw & Hc). unfold scan_once. rewrite Ho.
  destruct (scan_procs signatures hostname debug c (c_procs c) _)
    as [st1 r1] eqn:E.
  pose proof (scan_procs_start _ _ _ _ _ _ _ E) as (E2 & E3 & _ & E5).
  destruct r1 as [[]|e]; [|now rewrite Hw in E5].
  destruct (close_log_cases c (ss_file st1) (Returns tt))
    as [[-> _]|(e & _ & _ & He)]; [|congruence].
  eexists _, (ss_file st1). split; [now rewrite E2|].
  unfold chunks at 1. cbn [log seen default].
  split; [reflexivity|]. split; [exact E3|]. split; [exact E5|].
  intros info sig Hi Hs Hm.
  now apply (scan_procs_marks _ _ _ _ _ _ _ E info sig).
Qed.

Lemma print_msg_chunks m st : chunks (print_msg m st) = chunks st.
Proof. reflexivity. Qed.

Lemma print_msg_seen m st : seen (print_msg m st) = seen st.
Proof. reflexivity. Qed.

(** Any number of cycles, whatever happens on the log. *)
Lemma main_loop_step signatures hostname debug cs : forall st st' status,
  main_loop signatures hostname debug cs st = (st', status) ->
  exists new,
    chunks st' = chunks st ++ new /\ dedup_inv (seen st) new (seen st').
Proof.
  induction cs as [|c cs IH]; intros st st' status H; cbn [main_loop] in H.
  - injection H as <- <-. exists []. rewrite app_nil_r.
    split; [reflexivity | apply dedup_inv_refl].
  - destruct (scan_once signatures hostname debug c st) as [st1 r] eqn:E.
    apply scan_once_step in E as (new & E1 & E2 & _).
    destruct r as [n|e].
    + destruct (c_sleep_interrupted c).
      * injection H as <- <-. exists new.
        destruct debug; rewrite ?print_msg_chunks, ?print_msg_seen; auto.
      * apply IH in H as (new' & H1 & H2).
        exists (new ++ new'). rewrite app_assoc, <- E1.
        destruct debug; rewrite ?print_msg_chunks, ?print_msg_seen in *;
          (split; [exact H1|]);
          apply (dedup_inv_trans _ _ _ _ _ E2 H2).
    + exists new.
      destruct e; injection H as <- <-;
        rewrite ?print_msg_chunks, ?print_msg_seen; auto.
Qed.

(** A pair that is in [seen] gets no record from then on. *)
Lemma seen_suppressed signatures hostname debug cs st st' status pid name :
  main_loop signatures hostname debug cs st = (st', status) ->
  (pid, name) ∈ seen st ->
  exists new, chunks st' = chunks st ++ new /\
              count_records pid name new = 0%nat.
Proof.
  intros H Hs. apply main_loop_step in H as (new & H1 & _ & H2).
  exists new. split; [exact H1|].
  destruct (H2 pid name) as [Hle Hone].
  destruct (count_records pid name new) as [|[|n]]; [reflexivity| |lia].
  now destruct (Hone eq_refl).
Qed.

(** Whatever happens on the log, a run writes at most one record per
    pair. *)
Lemma at_most_one_record signatures hostname debug cs st st' status pid name :
  main_loop signatures hostname debug cs st = (st', status) ->
  exists new, chunks st' = chunks st ++ new /\
              (count_records pid name new <= 1)%nat.
Proof.
  intros H. apply main_loop_step in H as (new & H1 & _ & H2).
  exists new. split; [exact H1 | apply H2].
Qed.

Lemma count_records_in pid name new :
  count_records pid name new = 1%nat ->
  exists ch, In ch new /\ is_record_for pid name ch = true.
Proof.
  unfold count_records. intros H.
  destruct (List.filter (is_record_for pid name) new) as [|ch l] eqn:E;
    [discriminate|].
  exists ch. apply List.filter_In. rewrite E. now left.
Qed.

Lemma is_record_for_name pid name1 name2 ch :
  is_record_for pid name1 ch = true -> is_record_for pid name2 ch = true ->
  name1 = name2.
Proof.
  unfold is_record_for.
  destruct (loads (strip ch)) as [[ | | | | | |m]|]; try discriminate.
  destruct (dict_get (pys "pid") m) as [[ | |p| | | | ]|]; try discriminate.
  destruct (dict_get (pys "signature_name") m) as [[ | | | |n| | ]|];
    try discriminate.
  rewrite !andb_true_iff, !str_eqb_eq. intros [_ <-] [_ <-]. reflexivity.
Qed.

End CycleFacts.

(* ===================================================================== *)
(** * The matcher *)
(* ===================================================================== *)

(** C1. [match_signature] is the reference definition of the
    specification: it returns true exactly when the pattern is not empty
    and either the match type is the process-name kind and the lower-cased
    pattern occurs in the lower-cased process name, or the match type is
    the command-line kind and the lower-cased pattern occurs in the
    lower-cased command line joined with single spaces. An empty or absent
    pattern and an unrecognised or absent match type give false for every
    snapshot, and a missing name or command line is read as the empty
    string or the empty list. *)
Theorem match_signature_refines_spec `{rt : PyRuntime} (sig : signature)
    (info : proc_info) :
  lower_spec rt ->
  (match_signature sig info = true <-> matches_spec sig info) /\
  (default [] (sig_pattern sig) = [] -> match_signature sig info = false) /\
  (sig_match_type sig <> Some process_name_contains ->
   sig_match_type sig <> Some cmdline_contains ->
   match_signature sig info = false) /\
  match_signature sig info
  = match_signature sig
      {| pi_pid := pi_pid info;
         pi_name := Some (default [] (pi_name info));
         pi_cmdline := Some (default [] (pi_cmdline info));
         pi_username := pi_username info |}.
Proof.
  intros Hlow.
  pose proof (match_signature_true_iff Hlow sig info) as Hiff.
  split; [exact Hiff|]. split; [|split].
  - intros Hp. apply not_true_is_false. intros H.
    apply Hiff in H as [H _]. contradiction.
  - intros H1 H2. apply not_true_is_false. intros H.
    apply Hiff in H as [_ [[H _]|[H _]]]; contradiction.
  - reflexivity.
Qed.

Lemma match_signature_refines_spec_witness :
  lower_spec test_runtime /\
  ((@match_signature test_runtime
      (mk_sig "ollama_local_llm" "Local LLM runtime (Ollama)"
         "process_name_contains" "ollama" "medium" "local_llm")
      {| pi_pid := 1234; pi_name := Some (pys "OLLAMA-server");
         pi_cmdline := None; pi_username := None |} = true <->
    @matches_spec test_runtime
      (mk_sig "ollama_local_llm" "Local LLM runtime (Ollama)"
         "process_name_contains" "ollama" "medium" "local_llm")
      {| pi_pid := 1234; pi_name := Some (pys "OLLAMA-server");
         pi_cmdline := None; pi_username := None |})).
Proof.
  split; [exact test_runtime_lower|].
  apply (@match_signature_refines_spec test_runtime _ _ test_runtime_lower).
Defined.

(* ===================================================================== *)
(** * The event log *)
(* ===================================================================== *)

(** C6. Every event that the agent builds is read back unchanged: the
    reader strips the line, decodes it, and gets a dict equal to the one
    that was encoded, so equal field for field. *)
Theorem event_round_trip (ts hostname : pystr) (info : proc_info)
    (sig : signature) :
  loads (strip (event_line (make_event ts hostname info sig)))
  = Some (make_event ts hostname info sig) /\
  load_events (Some (event_line (make_event ts hostname info sig)))
  = ([], [make_event ts hostname info sig]) /\
  forall k : string,
    event_field k (make_event ts hostname info sig)
    = match load_events (Some (event_line (make_event ts hostname info sig))) with
      | (_, [e]) => event_field k e
      | _ => JNull
      end.
Proof.
  assert (H : load_events (Some (event_line (make_event ts hostname info sig)))
              = ([], [make_event ts hostname info sig])).
  { unfold load_events. f_equal.
    pose proof (load_lines_event_lines [make_event ts hostname info sig]) as H.
    cbn [List.map List.concat] in H. rewrite app_nil_r in H. apply H.
    constructor; [|constructor]. split; [apply make_event_plain | reflexivity]. }
  split; [apply event_line_loads|]. split; [exact H|].
  intros k. now rewrite H.
Qed.

(* ===================================================================== *)
(** * De-duplication *)
(* ===================================================================== *)


(** C4, as the code has it. Two signatures with different names that
    match the same process in a cycle without a failure of the log,
    neither pair in [seen] before, give two distinct records in that
    cycle, one per signature. *)
Theorem two_signatures_two_records `{rt : PyRuntime}
    (signatures : list signature) (hostname : pystr) (debug : bool)
    (c : cycle) (st : agent_state) (info : proc_info) (sig1 sig2 : signature) :
  io_ok c ->
  In (Proc info) (c_procs c) ->
  In sig1 signatures -> In sig2 signatures ->
  sig_name sig1 <> sig_name sig2 ->
  match_signature sig1 info = true -> match_signature sig2 info = true ->
  (pi_pid info, sig_name sig1) ∉ seen st ->
  (pi_pid info, sig_name sig2) ∉ seen st ->
  exists st' new ch1 ch2,
    scan_once signatures hostname debug c st = (st', Returns (length new)) /\
    chunks st' = chunks st ++ new /\
    In ch1 new /\ In ch2 new /\ ch1 <> ch2 /\
    is_record_for (pi_pid info) (sig_name sig1) ch1 = true /\
    is_record_for (pi_pid info) (sig_name sig2) ch2 = true /\
    count_records (pi_pid info) (sig_name sig1) new = 1%nat /\
    count_records (pi_pid info) (sig_name sig2) new = 1%nat.
Proof.
  intros Hio Hi Hs1 Hs2 Hne Hm1 Hm2 Hf1 Hf2.
  destruct (scan_once_ok signatures hostname debug c st Hio)
    as (st1 & new & E & Hc & Hd & Hl & Hmark).
  pose proof (Hl _ _ (Hmark info sig1 Hi Hs1 Hm1) Hf1) as H1.
  pose proof (Hl _ _ (Hmark info sig2 Hi Hs2 Hm2) Hf2) as H2.
  destruct (count_records_in _ _ _ H1) as (ch1 & Hin1 & Hr1).
  destruct (count_records_in _ _ _ H2) as (ch2 & Hin2 & Hr2).
  exists st1, new, ch1, ch2. repeat split; auto.
  intros ->. apply Hne. exact (is_record_for_name _ _ _ _ Hr1 Hr2).
Qed.

(* ===================================================================== *)
(** * Failures of the log *)
(* ===================================================================== *)



(* ===================================================================== *)
(** * The scenario of the specification *)
(* ===================================================================== *)

Lemma match_signature_ascii `{rt : PyRuntime} (sig : signature)
    (info : proc_info) :
  lower_spec rt ->
  is_ascii (default [] (sig_pattern sig)) ->
  is_ascii (default [] (pi_name info)) ->
  is_ascii (str_join (pys " ") (default [] (pi_cmdline info))) ->
  match_signature sig info = @match_signature test_runtime sig info.
Proof.
  intros Hlow H1 H2 H3. unfold match_signature.
  rewrite !(lower_ascii rt Hlow) by assumption. reflexivity.
Qed.

Ltac solve_ascii :=
  unfold is_ascii; apply (bool_decide_unpack _); vm_compute; exact I.

Ltac eval_match Hlow :=
  rewrite (match_signature_ascii _ _ Hlow) by solve_ascii;
  vm_compute; reflexivity.

Lemma scan_sigs_nomatch `{rt : PyRuntime} hostname debug c info sig sigs st :
  match_signature sig info = false ->
  scan_sigs hostname debug c info (sig :: sigs) st
  = scan_sigs hostname debug c info sigs st.
Proof. intros H. cbn [scan_sigs]. now rewrite scan_sig_nomatch. Qed.

Lemma scan_sigs_seen `{rt : PyRuntime} hostname debug c info sig sigs st :
  (pi_pid info, sig_name sig) ∈ ss_seen st ->
  scan_sigs hostname debug c info (sig :: sigs) st
  = scan_sigs hostname debug c info sigs st.
Proof. intros H. cbn [scan_sigs]. now rewrite scan_sig_seen. Qed.

Lemma scan_sigs_emit `{rt : PyRuntime} hostname debug c info sig sigs st :
  match_signature sig info = true ->
  (pi_pid info, sig_name sig) ∉ ss_seen st ->
  c_write c (events_written st) = None ->
  scan_sigs hostname debug c info (sig :: sigs) st
  = scan_sigs hostname debug c info sigs (emit_state hostname debug info sig st).
Proof. intros H1 H2 H3. cbn [scan_sigs]. now rewrite scan_sig_emit. Qed.

(** The only default signature that the first process matches is the
    first one; the only one that the second process matches is the third. *)
Lemma scan_sigs_ollama `{rt : PyRuntime} hostname debug procs pid user st :
  lower_spec rt ->
  scan_sigs hostname debug (quiet_cycle procs) (ollama_proc pid user)
    SIGNATURES st
  = if bool_decide ((pid, sig_name sig_ollama) ∈ ss_seen st)
    then (st, Returns tt)
    else (emit_state hostname debug (ollama_proc pid user) sig_ollama st,
          Returns tt).
Proof.
  intros Hlow. unfold SIGNATURES. fold sig_ollama.
  case_bool_decide as Hs.
  - rewrite scan_sigs_seen by exact Hs.
    do 5 (rewrite scan_sigs_nomatch by eval_match Hlow). reflexivity.
  - rewrite scan_sigs_emit; [| eval_match Hlow | exact Hs | reflexivity].
    do 5 (rewrite scan_sigs_nomatch by eval_match Hlow). reflexivity.
Qed.

Lemma scan_sigs_curl `{rt : PyRuntime} hostname debug procs pid user st :
  lower_spec rt ->
  scan_sigs hostname debug (quiet_cycle procs) (curl_proc pid user)
    SIGNATURES st
  = if bool_decide ((pid, sig_name sig_openai) ∈ ss_seen st)
    then (st, Returns tt)
    else (emit_state hostname debug (curl_proc pid user) sig_openai st,
          Returns tt).
Proof.
  intros Hlow. unfold SIGNATURES. fold sig_openai.
  do 2 (rewrite scan_sigs_nomatch by eval_match Hlow).
  case_bool_decide as Hs.
  - rewrite scan_sigs_seen by exact Hs.
    do 3 (rewrite scan_sigs_nomatch by eval_match Hlow). reflexivity.
  - rewrite scan_sigs_emit; [| eval_match Hlow | exact Hs | reflexivity].
    do 3 (rewrite scan_sigs_nomatch by eval_match Hlow). reflexivity.
Qed.

(** C3. With the six default signatures and an empty set [seen], one
    cycle over the process "ollama" with the command line
    ["ollama", "serve"] and the process "curl" with the command line
    ["curl", "https://api.openai.com/v1/chat"] writes exactly two
    records, of risk "medium" and of risk "high"; a second cycle over the
    same table writes none. *)
Theorem scenario_two_records `{rt : PyRuntime} (hostname : pystr)
    (debug : bool) (pid1 pid2 : Z) (user1 user2 : option pystr)
    (st : agent_state) :
  lower_spec rt ->
  seen st = ∅ ->
  let c := quiet_cycle [Proc (ollama_proc pid1 user1);
                        Proc (curl_proc pid2 user2)] in
  let e1 := make_event (utc_now_iso (clock st)) hostname
              (ollama_proc pid1 user1) sig_ollama in
  let e2 := make_event (utc_now_iso (S (clock st))) hostname
              (curl_proc pid2 user2) sig_openai in
  exists st1 st2,
    scan_once SIGNATURES hostname debug c st = (st1, Returns 2%nat) /\
    chunks st1 = chunks st ++ [event_line e1; event_line e2] /\
    event_field "risk" e1 = JStr (pys "medium") /\
    event_field "risk" e2 = JStr (pys "high") /\
    scan_once SIGNATURES hostname debug c st1 = (st2, Returns 0%nat) /\
    chunks st2 = chunks st1.
Proof.
  intros Hlow Hseen c e1 e2.
  assert (Hne : (pid2, sig_name sig_openai) <> (pid1, sig_name sig_ollama)).
  { intros H. injection H as _ H. vm_compute in H. discriminate H. }
  eexists _, _. split.
  { unfold scan_once, c. cbn [quiet_cycle c_open c_procs scan_procs].
    rewrite scan_sigs_ollama by exact Hlow.
    rewrite bool_decide_eq_false_2
      by (cbn [scan_start ss_seen]; rewrite Hseen; apply not_elem_of_empty).
    rewrite scan_sigs_curl by exact Hlow.
    rewrite bool_decide_eq_false_2
      by (cbn [scan_start emit_state ss_seen]; rewrite Hseen; set_solver).
    cbn [scan_start close_log c_close emit_state ss_seen ss_file ss_out
         ss_clock events_written app].
    reflexivity. }
  split; [reflexivity|].
  split; [reflexivity|]. split; [reflexivity|]. split.
  { unfold scan_once, c.
    cbn [quiet_cycle c_open c_procs scan_procs seen log stdout clock default].
    rewrite scan_sigs_ollama by exact Hlow.
    rewrite bool_decide_eq_true_2 by (cbn [scan_start ss_seen seen]; set_solver).
    rewrite scan_sigs_curl by exact Hlow.
    rewrite bool_decide_eq_true_2 by (cbn [scan_start ss_seen seen]; set_solver).
    cbn [scan_start close_log ss_seen ss_file ss_out ss_clock events_written].
    reflexivity. }
  unfold chunks. cbn [log default]. apply app_nil_r.
Qed.

(* ===================================================================== *)
(** * The reader *)
(* ===================================================================== *)

(** A line that does not decode is left out, wherever it stands. *)
Lemma load_lines_skip (before after : list pystr) (line : pystr) :
  loads (strip line) = None ->
  load_lines (before ++ line :: after) = load_lines (before ++ after).
Proof.
  intros H. induction before as [|l before IH]; cbn [app load_lines].
  - rewrite H. now destruct (strip line).
  - rewrite IH. reflexivity.
Qed.

Lemma load_lines_length (lines : list pystr) :
  (length (load_lines lines) <= length lines)%nat.
Proof.
  induction lines as [|l lines IH]; cbn [load_lines length]; [lia|].
  destruct (strip l); [lia|]. destruct (loads _); cbn [length]; lia.
Qed.

(** C7 (what the reader does on its failing input). The line [null] is
    valid JSON but no record: [load_events] keeps it, against its return
    type [List[Dict[str, Any]]] and its comment "Skip malformed lines",
    and [print_summary] then raises [AttributeError] on [evt.get]. *)
Theorem non_object_line_breaks_summary `{rt : PyRuntime} (top : Z) :
  load_events (Some non_object_log)
  = ([], [JObj [(pys "risk", JStr (pys "high"))]; JNull]) /\
  view_main (Some non_object_log) top = ([LReading], Some AttributeError).
Proof.
  assert (H : load_events (Some non_object_log)
              = ([], [JObj [(pys "risk", JStr (pys "high"))]; JNull]))
    by (vm_compute; reflexivity).
  split; [exact H|]. unfold view_main. rewrite H. reflexivity.
Qed.

(** C9, as the code has it. With the log file absent or empty the viewer
    does not raise and loads no event; it prints that no events were
    found (after the notice of a missing file, when the file is absent),
    and prints neither a total nor a time range. *)
Theorem empty_log_summary `{rt : PyRuntime} (top : Z) :
  load_events None = ([LMissing], []) /\
  load_events (Some []) = ([], []) /\
  view_main None top = ([LReading; LMissing; LNoEvents], None) /\
  view_main (Some []) top = ([LReading; LNoEvents], None) /\
  Forall (fun l => match l with
                   | LTotal _ | LTimeRange _ => False
                   | _ => True
                   end)
    (fst (view_main None top) ++ fst (view_main (Some []) top)).
Proof.
  repeat split; try reflexivity. cbn. repeat constructor.
Qed.

(** C9, as the claim states it, fails: for an absent log file the viewer
    prints neither a total of zero nor an "unknown" time range. *)
Lemma empty_log_reports_no_time_range :
  ~ (forall (rt : PyRuntime) (top : Z) (file : option pystr),
        file = None \/ file = Some [] ->
        snd (view_main file top) = None /\
        snd (load_events file) = [] /\
        In (LTotal 0) (fst (view_main file top)) /\
        In (LTimeRange TimeUnknown) (fst (view_main file top))).
Proof.
  intros H. destruct (H test_runtime 5%Z None (or_introl eq_refl))
    as (_ & _ & _ & Hin).
  cbn in Hin. destruct Hin as [Hin|[Hin|[Hin|[]]]]; discriminate Hin.
Qed.

(* ===================================================================== *)
(** * Counters *)
(* ===================================================================== *)

Lemma key_eqb_spec a b :
  hashable a = true -> hashable b = true ->
  (key_eqb a b = true <-> key_norm a = key_norm b).
Proof.
  unfold key_eqb.
  destruct a as [ | [|] | x | x | x | x | x];
    destruct b as [ | [|] | y | y | y | y | y];
    cbn [hashable key_norm]; try discriminate; intros _ _;
    rewrite ?Z.eqb_eq, ?str_eqb_eq; split; congruence.
Qed.

Lemma key_norm_hashable a : hashable (key_norm a) = hashable a.
Proof. destruct a as [ | [|] | | | | | ]; reflexivity. Qed.

Lemma key_norm_idem a : key_norm (key_norm a) = key_norm a.
Proof. destruct a as [ | [|] | | | | | ]; reflexivity. Qed.

Lemma key_eqb_false a b :
  hashable a = true -> hashable b = true ->
  (key_eqb a b = false <-> key_norm a <> key_norm b).
Proof.
  intros Ha Hb. rewrite <- (key_eqb_spec a b Ha Hb).
  destruct (key_eqb a b); split; congruence.
Qed.

Ltac key_cases :=
  repeat match goal with
         | |- context [key_eqb ?a ?b] =>
             let E := fresh "E" in
             destruct (key_eqb a b) eqn:E;
             [apply key_eqb_spec in E | apply key_eqb_false in E];
             [ | assumption | assumption | | assumption | assumption ]
         end.

Lemma counter_get_incr v k c :
  hashable v = true -> hashable k = true ->
  Forall (fun kn => hashable (fst kn) = true) c ->
  counter_get k (counter_incr v c)
  = (counter_get k c + (if key_eqb v k then 1 else 0))%nat.
Proof.
  intros Hv Hk Hc. induction Hc as [|[k' n] c Hk' _ IH]; cbn [fst] in *.
  - cbn [counter_incr counter_get]. key_cases; lia.
  - cbn [counter_incr counter_get].
    destruct (key_eqb k' v) eqn:E1;
      [apply key_eqb_spec in E1 | apply key_eqb_false in E1]; try assumption;
      cbn [counter_get]; [|rewrite IH]; key_cases; try lia; congruence.
Qed.

Lemma counter_incr_hashable v c :
  hashable v = true ->
  Forall (fun kn => hashable (fst kn) = true /\ (1 <= snd kn)%nat) c ->
  Forall (fun kn => hashable (fst kn) = true /\ (1 <= snd kn)%nat)
    (counter_incr v c).
Proof.
  intros Hv Hc. induction Hc as [|[k n] c [Hk Hn] Hc IH]; cbn [counter_incr].
  - constructor; [|constructor]. cbn [fst snd]. split; [exact Hv | lia].
  - cbn [fst snd] in *. destruct (key_eqb k v); constructor;
      cbn [fst snd]; try (split; [exact Hk | lia]); assumption.
Qed.

Lemma counter_incr_keys v c :
  hashable v = true ->
  Forall (fun kn => hashable (fst kn) = true) c ->
  List.map (fun kn => key_norm (fst kn)) (counter_incr v c)
  = List.map (fun kn => key_norm (fst kn)) c \/
  (List.map (fun kn => key_norm (fst kn)) (counter_incr v c)
   = List.map (fun kn => key_norm (fst kn)) c ++ [key_norm v] /\
   ~ In (key_norm v) (List.map (fun kn => key_norm (fst kn)) c)).
Proof.
  intros Hv Hc. induction Hc as [|[k n] c Hk _ IH]; cbn [counter_incr].
  - right. split; [reflexivity | intros []].
  - cbn [fst] in *. destruct (key_eqb k v) eqn:E;
      [apply key_eqb_spec in E | apply key_eqb_false in E]; try assumption.
    + now left.
    + cbn [List.map fst]. destruct IH as [IH | [IH Hn]].
      * left. now rewrite IH.
      * right. rewrite IH. split; [reflexivity|].
        intros [H|H]; [congruence | contradiction].
Qed.

Lemma counter_incr_ok v c :
  hashable v = true -> counter_ok c -> counter_ok (counter_incr v c).
Proof.
  intros Hv [Hc Hnd]. split; [now apply counter_incr_hashable|].
  assert (Hh : Forall (fun kn : json * nat => hashable (fst kn) = true) c).
  { eapply Forall_impl; [exact Hc | intros ? []; auto]. }
  destruct (counter_incr_keys v c Hv Hh) as [-> | [-> Hn]]; [exact Hnd|].
  apply NoDup_app. split; [exact Hnd|]. split; [|apply NoDup_singleton].
  intros x Hx Hx'. apply list_elem_of_singleton in Hx'. subst x.
  apply Hn. now apply list_elem_of_In.
Qed.

(** The items of a counter, keys as [==] sees them, are its non-zero
    counts. *)
Lemma norm_counter_in c k n :
  counter_ok c ->
  In (k, n) (norm_counter c) <->
  (hashable k = true /\ key_norm k = k /\ counter_get k c = n /\ (1 <= n)%nat).
Proof.
  intros [Hc Hnd]. induction Hc as [|[k' n'] c [Hk' Hn'] Hc IH];
    cbn [fst snd] in *.
  - cbn. split; [intros [] | intros (_ & _ & <- & H); lia].
  - apply NoDup_cons in Hnd as [Hnotin Hnd]. specialize (IH Hnd).
    cbn [norm_counter List.map counter_get In].
    fold (norm_counter c). split.
    + intros [H | H].
      * injection H as <- <-.
        rewrite key_norm_hashable, key_norm_idem.
        split; [exact Hk'|]. split; [reflexivity|].
        rewrite (proj2 (key_eqb_spec k' (key_norm k') Hk' ltac:(now rewrite key_norm_hashable)))
          by (now rewrite key_norm_idem).
        auto.
      * apply IH in H as (H1 & H2 & H3 & H4).
        split; [exact H1|]. split; [exact H2|]. split; [|exact H4].
        destruct (key_eqb k' k) eqn:E; [|exact H3].
        apply key_eqb_spec in E; try assumption. exfalso. apply Hnotin.
        apply list_elem_of_In.
        assert (Hin : In (k, n) (norm_counter c)) by (apply IH; auto).
        unfold norm_counter in Hin. apply in_map_iff in Hin as ([k0 n0] & Heq & Hin).
        injection Heq as Hk0 <-. apply in_map_iff. exists (k0, n0).
        cbn [fst]. split; [congruence | exact Hin].
    + intros (H1 & H2 & H3 & H4).
      destruct (key_eqb k' k) eqn:E.
      * apply key_eqb_spec in E; try assumption. left. congruence.
      * right. apply IH. auto.
Qed.

Lemma norm_counter_nodup c : counter_ok c -> NoDup (norm_counter c).
Proof.
  intros [_ Hnd]. apply (NoDup_fmap_1 fst).
  unfold norm_counter. rewrite <- list_fmap_compose.
  erewrite list_fmap_ext; [exact Hnd|]. now intros i [k n] _.
Qed.

(** Two counters with the same counts have the same items. *)
Lemma norm_counter_perm c c' :
  counter_ok c -> counter_ok c' ->
  (forall k, hashable k = true -> counter_get k c = counter_get k c') ->
  norm_counter c ≡ₚ norm_counter c'.
Proof.
  intros Hc Hc' Hget.
  apply NoDup_Permutation; try now apply norm_counter_nodup.
  intros [k n]. rewrite !list_elem_of_In, !norm_counter_in by assumption.
  split; intros (H1 & H2 & H3 & H4); repeat split; auto;
    [rewrite <- Hget | rewrite Hget]; auto.
Qed.

Lemma tally_ok vs : forall c,
  Forall (fun v => hashable v = true) vs -> counter_ok c ->
  counter_ok (tally vs c).
Proof.
  induction vs as [|v vs IH]; intros c Hvs Hc; [exact Hc|].
  apply Forall_cons in Hvs as [Hv Hvs]. cbn [tally fold_left].
  apply IH; [exact Hvs | now apply counter_incr_ok].
Qed.

Lemma tally_get vs k : forall c,
  Forall (fun v => hashable v = true) vs -> counter_ok c ->
  hashable k = true ->
  counter_get k (tally vs c) = (counter_get k c + count_of k vs)%nat.
Proof.
  induction vs as [|v vs IH]; intros c Hvs Hc Hk; cbn [tally fold_left count_of].
  - lia.
  - apply Forall_cons in Hvs as [Hv Hvs].
    fold (tally vs (counter_incr v c)).
    rewrite IH by (auto using counter_incr_ok).
    rewrite counter_get_incr; auto; [lia|].
    destruct Hc as [Hc _]. eapply Forall_impl; [exact Hc | intros ? []; auto].
Qed.

Lemma count_of_perm k vs vs' : vs ≡ₚ vs' -> count_of k vs = count_of k vs'.
Proof.
  induction 1; cbn [count_of]; lia.
Qed.

Lemma counter_ok_nil : counter_ok [].
Proof. split; constructor. Qed.

(** The counter of a field over records is the tally of its values. *)
Lemma count_field_tally key events : forall c,
  Forall (fun e => is_object e = true /\ hashable (table_field key e) = true)
    events ->
  count_field key events c
  = Returns (tally (List.map (table_field key) events) c).
Proof.
  induction events as [|e events IH]; intros c H; [reflexivity|].
  apply Forall_cons in H as [[Ho Hh] H].
  destruct e as [ | | | | | | m]; try discriminate Ho.
  cbn [count_field List.map tally fold_left table_field] in *.
  rewrite Hh. now apply IH.
Qed.

Lemma count_field_perm key events events' c c' :
  events ≡ₚ events' ->
  Forall (fun e => is_object e = true /\ hashable (table_field key e) = true)
    events ->
  count_field key events [] = Returns c ->
  count_field key events' [] = Returns c' ->
  counter_ok c /\ counter_ok c' /\ norm_counter c ≡ₚ norm_counter c'.
Proof.
  intros Hperm Hall Hc Hc'.
  assert (Hall' : Forall (fun e => is_object e = true /\
                                   hashable (table_field key e) = true) events')
    by now rewrite <- Hperm.
  rewrite count_field_tally in Hc, Hc' by assumption.
  injection Hc as <-. injection Hc' as <-.
  assert (Hvs : forall l,
             Forall (fun e => is_object e = true /\
                              hashable (table_field key e) = true) l ->
             Forall (fun v => hashable v = true) (List.map (table_field key) l)).
  { intros l Hl. apply Forall_fmap. eapply Forall_impl; [exact Hl|].
    now intros e [_ He]. }
  assert (Hok := tally_ok _ [] (Hvs _ Hall) counter_ok_nil).
  assert (Hok' := tally_ok _ [] (Hvs _ Hall') counter_ok_nil).
  split; [exact Hok|]. split; [exact Hok'|].
  apply norm_counter_perm; try assumption.
  intros k Hk. rewrite !tally_get by (auto using counter_ok_nil).
  f_equal. apply count_of_perm. now apply fmap_Permutation.
Qed.

(* ===================================================================== *)
(** * The tables of the summary *)
(* ===================================================================== *)

Lemma insert_desc_perm x l : insert_desc x l ≡ₚ x :: l.
Proof.
  induction l as [|y l IH]; cbn [insert_desc]; [reflexivity|].
  destruct (snd y <=? snd x)%nat; [reflexivity|].
  rewrite IH. apply perm_swap.
Qed.

Lemma sort_desc_perm c : sort_desc c ≡ₚ c.
Proof.
  induction c as [|x c IH]; [reflexivity|].
  cbn [sort_desc foldr]. fold (sort_desc c).
  rewrite insert_desc_perm. now rewrite IH.
Qed.

Lemma insert_desc_sorted x l : desc_sorted l -> desc_sorted (insert_desc x l).
Proof.
  induction l as [|y l IH]; intros Hl; cbn [insert_desc].
  - cbn. auto.
  - destruct Hl as [Hy Hl]. destruct (Nat.leb_spec (snd y) (snd x)) as [Hle|Hlt].
    + cbn [desc_sorted]. split; [|split; assumption].
      constructor; [exact Hle|].
      eapply Forall_impl; [exact Hy|]. cbn. intros z Hz. lia.
    + cbn [desc_sorted]. split; [|now apply IH].
      rewrite insert_desc_perm. constructor; [lia | exact Hy].
Qed.

Lemma sort_desc_sorted c : desc_sorted (sort_desc c).
Proof.
  induction c as [|x c IH]; [exact I|].
  cbn [sort_desc foldr]. now apply insert_desc_sorted.
Qed.

(** Without ties there is one way to put the items in decreasing order. *)
Lemma desc_sorted_unique l : forall l',
  desc_sorted l -> desc_sorted l' -> l ≡ₚ l' -> NoDup (List.map snd l) ->
  l = l'.
Proof.
  induction l as [|x t IH]; intros l' Hl Hl' Hp Hnd.
  - now apply Permutation_nil_l in Hp.
  - destruct l' as [|y t']; [now apply Permutation_nil_r in Hp|].
    destruct Hl as [Hx Hl]. destruct Hl' as [Hy Hl'].
    cbn [List.map] in Hnd. apply NoDup_cons in Hnd as [Hnotin Hnd].
    assert (Hxy : x = y).
    { assert (Hyin : y ∈ x :: t) by (rewrite Hp; left).
      assert (Hxin : x ∈ y :: t') by (rewrite <- Hp; left).
      apply elem_of_cons in Hyin as [Hyx|Hyt]; [now symmetry|].
      exfalso. apply Hnotin.
      assert (Hle1 : (snd y <= snd x)%nat).
      { rewrite Forall_forall in Hx. now apply Hx. }
      assert (Hle2 : (snd x <= snd y)%nat).
      { apply elem_of_cons in Hxin as [->|Hxt]; [lia|].
        rewrite Forall_forall in Hy. now apply Hy. }
      replace (snd x) with (snd y) by lia.
      apply list_elem_of_In, in_map, list_elem_of_In, Hyt. }
    subst y. f_equal. apply IH; auto. now apply Permutation_cons_inv in Hp.
Qed.

Lemma insert_desc_norm x l :
  insert_desc (key_norm (fst x), snd x) (norm_counter l)
  = norm_counter (insert_desc x l).
Proof.
  induction l as [|[k n] l IH]; [now destruct x|].
  cbn [norm_counter List.map insert_desc snd]. fold (norm_counter l).
  destruct (n <=? snd x)%nat.
  - now destruct x.
  - cbn [List.map]. fold (norm_counter (insert_desc x l)). now rewrite <- IH.
Qed.

Lemma sort_desc_norm c : sort_desc (norm_counter c) = norm_counter (sort_desc c).
Proof.
  induction c as [|[k n] c IH]; [reflexivity|].
  cbn [norm_counter List.map sort_desc foldr].
  fold (norm_counter c). fold (sort_desc c). fold (sort_desc (norm_counter c)).
  rewrite IH. apply (insert_desc_norm (k, n)).
Qed.

Lemma norm_counter_snd c : List.map snd (norm_counter c) = List.map snd c.
Proof. induction c as [|[k n] c IH]; cbn; [reflexivity | now rewrite <- IH]. Qed.

Lemma print_rows_norm rows : print_rows (norm_counter rows) = print_rows rows.
Proof.
  induction rows as [|[k n] rows IH]; [reflexivity|].
  cbn [norm_counter List.map]. fold (norm_counter rows).
  destruct k as [ | [|] | | | | | ]; cbn [print_rows key_norm];
    rewrite ?IH; reflexivity.
Qed.

Lemma norm_counter_take n : forall l,
  norm_counter (take n l) = take n (norm_counter l).
Proof.
  induction n as [|n IH]; intros [|[k m] l]; try reflexivity.
  cbn [take norm_counter List.map]. fold (norm_counter l).
  fold (norm_counter (take n l)). now rewrite IH.
Qed.

(** The rows of a table do not depend on the order of the values when no
    two keys have the same count. *)
Lemma most_common_perm top c c' :
  norm_counter c ≡ₚ norm_counter c' ->
  NoDup (List.map snd c) ->
  print_rows (most_common top c) = print_rows (most_common top c').
Proof.
  intros Hp Hnd. unfold most_common.
  rewrite <- (print_rows_norm (take _ (sort_desc c))).
  rewrite <- (print_rows_norm (take _ (sort_desc c'))).
  rewrite !norm_counter_take, <- !sort_desc_norm. do 2 f_equal.
  apply desc_sorted_unique; try apply sort_desc_sorted.
  - now rewrite !sort_desc_perm.
  - apply (NoDup_Permutation_proper (List.map snd (norm_counter c))).
    + apply fmap_Permutation. symmetry. apply sort_desc_perm.
    + now rewrite norm_counter_snd.
Qed.

Lemma print_counter_perm title top c c' :
  norm_counter c ≡ₚ norm_counter c' ->
  NoDup (List.map snd c) ->
  print_counter title c top = print_counter title c' top.
Proof.
  intros Hp Hnd. unfold print_counter.
  pose proof (Permutation_length Hp) as Hlen.
  unfold norm_counter in Hlen. rewrite !length_map in Hlen.
  rewrite (most_common_perm top c c' Hp Hnd).
  destruct c, c'; try discriminate Hlen; reflexivity.
Qed.

(* ===================================================================== *)
(** * The time range of the summary *)
(* ===================================================================== *)

Lemma dt_lt_same a b :
  dt_offset a = dt_offset b ->
  dt_lt a b = Returns (dt_wall a <? dt_wall b)%Z.
Proof.
  unfold dt_lt. intros <-. destruct (dt_offset a) as [o|]; [|reflexivity].
  f_equal. destruct (Z.ltb_spec (dt_wall a - o) (dt_wall b - o));
    destruct (Z.ltb_spec (dt_wall a) (dt_wall b)); try reflexivity; lia.
Qed.

Lemma datetime_eq a b :
  dt_wall a = dt_wall b -> dt_offset a = dt_offset b -> a = b.
Proof. destruct a, b. cbn. now intros -> ->. Qed.

(** With one offset for all, [min] returns the least wall-clock time. *)
Lemma min_from_least l : forall m,
  (forall x, In x l -> dt_offset x = dt_offset m) ->
  exists r, min_from m l = Returns r /\ In r (m :: l) /\
            forall y, In y (m :: l) -> (dt_wall r <= dt_wall y)%Z.
Proof.
  induction l as [|x l IH]; intros m Hoff.
  - exists m. cbn. split; [reflexivity|]. split; [now left|].
    intros y [<-|[]]. lia.
  - cbn [min_from]. rewrite (dt_lt_same x m) by (apply Hoff; now left).
    destruct (Z.ltb_spec (dt_wall x) (dt_wall m)) as [Hlt|Hge].
    + destruct (IH x) as (r & Hr & Hin & Hmin).
      { intros y Hy. rewrite (Hoff y) by now right.
        symmetry. apply Hoff. now left. }
      exists r. split; [exact Hr|]. split.
      * destruct Hin as [<-|Hin]; [right; now left | right; now right].
      * intros y [<-|[<-|Hy]].
        -- specialize (Hmin x (or_introl eq_refl)). lia.
        -- apply Hmin. now left.
        -- apply Hmin. now right.
    + destruct (IH m) as (r & Hr & Hin & Hmin).
      { intros y Hy. apply Hoff. now right. }
      exists r. split; [exact Hr|]. split.
      * destruct Hin as [<-|Hin]; [now left | right; now right].
      * intros y [<-|[<-|Hy]].
        -- apply Hmin. now left.
        -- specialize (Hmin m (or_introl eq_refl)). lia.
        -- apply Hmin. now right.
Qed.

Lemma max_from_greatest l : forall m,
  (forall x, In x l -> dt_offset x = dt_offset m) ->
  exists r, max_from m l = Returns r /\ In r (m :: l) /\
            forall y, In y (m :: l) -> (dt_wall y <= dt_wall r)%Z.
Proof.
  induction l as [|x l IH]; intros m Hoff.
  - exists m. cbn. split; [reflexivity|]. split; [now left|].
    intros y [<-|[]]. lia.
  - cbn [max_from].
    rewrite (dt_lt_same m x) by (symmetry; apply Hoff; now left).
    destruct (Z.ltb_spec (dt_wall m) (dt_wall x)) as [Hlt|Hge].
    + destruct (IH x) as (r & Hr & Hin & Hmax).
      { intros y Hy. rewrite (Hoff y) by now right.
        symmetry. apply Hoff. now left. }
      exists r. split; [exact Hr|]. split.
      * destruct Hin as [<-|Hin]; [right; now left | right; now right].
      * intros y [<-|[<-|Hy]].
        -- specialize (Hmax x (or_introl eq_refl)). lia.
        -- apply Hmax. now left.
        -- apply Hmax. now right.
    + destruct (IH m) as (r & Hr & Hin & Hmax).
      { intros y Hy. apply Hoff. now right. }
      exists r. split; [exact Hr|]. split.
      * destruct Hin as [<-|Hin]; [now left | right; now right].
      * intros y [<-|[<-|Hy]].
        -- apply Hmax. now left.
        -- specialize (Hmax m (or_introl eq_refl)). lia.
        -- apply Hmax. now right.
Qed.

Section TimeRange.

Context {rt : PyRuntime}.

(** The time range does not depend on the order of time stamps that
    carry one offset. *)
Lemma compute_time_range_perm (ts ts' : list datetime) :
  ts ≡ₚ ts' ->
  (forall a b, In a ts -> In b ts -> dt_offset a = dt_offset b) ->
  compute_time_range ts' = compute_time_range ts.
Proof.
  intros Hp Hoff.
  assert (Hin : forall x, In x ts' <-> In x ts).
  { intros x. rewrite <- !list_elem_of_In. now rewrite Hp. }
  destruct ts as [|t l]; [now apply Permutation_nil_l in Hp; subst|].
  destruct ts' as [|t' l']; [now apply Permutation_nil_r in Hp|].
  cbn [compute_time_range].
  destruct (min_from_least l t) as (a & -> & Ha & Hamin).
  { intros x Hx. apply Hoff; [now right | now left]. }
  destruct (max_from_greatest l t) as (b & -> & Hb & Hbmax).
  { intros x Hx. apply Hoff; [now right | now left]. }
  destruct (min_from_least l' t') as (a' & -> & Ha' & Hamin').
  { intros x Hx. apply Hoff; apply Hin; [now right | now left]. }
  destruct (max_from_greatest l' t') as (b' & -> & Hb' & Hbmax').
  { intros x Hx. apply Hoff; apply Hin; [now right | now left]. }
  assert (a' = a) as ->.
  { apply datetime_eq; [|apply Hoff; [now apply Hin | exact Ha]].
    pose proof (Hamin a' (proj1 (Hin a') Ha')).
    pose proof (Hamin' a (proj2 (Hin a) Ha)). lia. }
  assert (b' = b) as ->.
  { apply datetime_eq; [|apply Hoff; [now apply Hin | exact Hb]].
    pose proof (Hbmax b' (proj1 (Hin b') Hb')).
    pose proof (Hbmax' b (proj2 (Hin b) Hb)). lia. }
  reflexivity.
Qed.

Lemma parse_all_objects (events : list json) :
  Forall (fun e => is_object e = true) events ->
  exists l, parse_all events = Returns l /\ omap id l = timestamps events.
Proof.
  induction 1 as [|e events He _ (l & Hl & Hts)]; [now exists []|].
  destruct e as [ | | | | | | m]; try discriminate He.
  cbn [parse_all]. rewrite Hl. eexists. split; [reflexivity|].
  unfold timestamps. cbn [omap list_omap id].
  fold (omap id l). rewrite Hts. reflexivity.
Qed.

Lemma timestamps_perm (events events' : list json) :
  events ≡ₚ events' -> timestamps events ≡ₚ timestamps events'.
Proof. intros H. unfold timestamps. now rewrite H. Qed.

End TimeRange.

(* ===================================================================== *)
(** * The summary and the order of the records *)
(* ===================================================================== *)

Lemma record_like_field key e :
  record_like e = true -> In key table_keys ->
  is_object e = true /\ hashable (table_field key e) = true.
Proof.
  unfold record_like. rewrite !andb_true_iff.
  intros ((((H0 & H1) & H2) & H3) & H4) [<-|[<-|[<-|[<-|[]]]]]; auto.
Qed.

Lemma record_like_fields key events :
  Forall (fun e => record_like e = true) events -> In key table_keys ->
  Forall (fun e => is_object e = true /\ hashable (table_field key e) = true)
    events.
Proof.
  intros H Hk. eapply Forall_impl; [exact H|].
  intros e He. now apply record_like_field.
Qed.

Lemma exact_record_field key e :
  exact_record e = true -> In key table_keys ->
  exact_key (table_field key e) = true.
Proof.
  unfold exact_record. intros H Hk.
  apply andb_true_iff in H as [_ H].
  rewrite forallb_forall in H. now apply H.
Qed.

Lemma exact_record_like e : exact_record e = true -> record_like e = true.
Proof.
  intros H. unfold record_like.
  assert (Hf : forall key, In key table_keys ->
                           hashable (table_field key e) = true).
  { intros key Hk. pose proof (exact_record_field key e H Hk) as Hx.
    destruct (table_field key e); auto. }
  rewrite !Hf by (unfold table_keys; cbn; auto).
  unfold exact_record in H. apply andb_true_iff in H as [-> _]. reflexivity.
Qed.

Section SummaryFacts.

Context {rt : PyRuntime}.

(** The summary of records, from the tallies of the four fields and
    the time stamps that parse. *)
Lemma print_summary_records (events : list json) (top : Z) :
  events <> [] ->
  Forall (fun e => record_like e = true) events ->
  print_summary events top
  = match compute_time_range (timestamps events) with
    | Raises e => ([], Some e)
    | Returns r =>
        let '(out, e) :=
          print_counters
            [("By risk"%string,
              tally (List.map (table_field (pys "risk")) events) []);
             ("By signature"%string,
              tally (List.map (table_field (pys "signature_name")) events) []);
             ("By user"%string,
              tally (List.map (table_field (pys "username")) events) []);
             ("By host"%string,
              tally (List.map (table_field (pys "hostname")) events) [])]
            top in
        ([LRule; LTitle; LRule; LTotal (length events); LTimeRange r; LBlank]
           ++ out, e)
    end.
Proof.
  intros Hne Hall. unfold print_summary.
  destruct events as [|e0 l] eqn:Eev; [contradiction|]. rewrite <- Eev in *.
  rewrite !count_field_tally
    by (apply record_like_fields; [exact Hall | cbn; tauto]).
  destruct (parse_all_objects events) as (ts & -> & ->).
  { eapply Forall_impl; [exact Hall|]. intros e He.
    now apply (record_like_field (pys "risk") e He); left. }
  reflexivity.
Qed.

(** C8, as the code has it. For records whose risk, signature name,
    user name and host name are absent, [null], a boolean, an integer
    or a string, a permutation keeps the total and the counts of every
    key of the four tables; it keeps the time range when the time
    stamps that parse carry one offset; and it keeps the whole output
    when, besides, no two keys of a table have the same count. (With
    equal counts the rows follow the order in which the keys were first
    seen, which a permutation changes; of two time stamps of one
    instant at different offsets the range shows the one that comes
    first.) *)
Theorem summary_order_invariance (events events' : list json) (top : Z) :
  events ≡ₚ events' ->
  Forall (fun e => exact_record e = true) events ->
  length events' = length events /\
  (forall key, In key table_keys ->
     exists c c',
       count_field key events [] = Returns c /\
       count_field key events' [] = Returns c' /\
       norm_counter c ≡ₚ norm_counter c' /\
       forall k, exact_key k = true -> counter_get k c' = counter_get k c) /\
  (same_offsets events ->
   compute_time_range (timestamps events')
   = compute_time_range (timestamps events)) /\
  (same_offsets events ->
   (forall key, In key table_keys -> no_ties key events) ->
   print_summary events' top = print_summary events top).
Proof.
  intros Hp Hexact.
  assert (Hall : Forall (fun e => record_like e = true) events).
  { eapply Forall_impl; [exact Hexact|]. intros e. apply exact_record_like. }
  assert (Hall' : Forall (fun e => record_like e = true) events')
    by now rewrite <- Hp.
  assert (Hcount : forall key, In key table_keys ->
            let c := tally (List.map (table_field key) events) [] in
            let c' := tally (List.map (table_field key) events') [] in
            count_field key events [] = Returns c /\
            count_field key events' [] = Returns c' /\
            norm_counter c ≡ₚ norm_counter c' /\
            forall k, hashable k = true ->
                      counter_get k c' = counter_get k c).
  { intros key Hk c c'.
    pose proof (record_like_fields key events Hall Hk) as Hf.
    pose proof (record_like_fields key events' Hall' Hk) as Hf'.
    pose proof (count_field_tally key events [] Hf) as Hc.
    pose proof (count_field_tally key events' [] Hf') as Hc'.
    destruct (count_field_perm key events events' _ _ Hp Hf Hc Hc')
      as (_ & _ & Hn).
    repeat split; auto.
    intros k Hk'. unfold c, c'.
    assert (Hvs : forall l,
               Forall (fun e => is_object e = true /\
                                hashable (table_field key e) = true) l ->
               Forall (fun v => hashable v = true)
                 (List.map (table_field key) l)).
    { intros l Hl. apply Forall_fmap. eapply Forall_impl; [exact Hl|].
      now intros e [_ He]. }
    rewrite !tally_get by (auto using counter_ok_nil).
    f_equal. apply count_of_perm. symmetry. now apply fmap_Permutation. }
  assert (Htime : same_offsets events ->
            compute_time_range (timestamps events')
            = compute_time_range (timestamps events)).
  { intros Hoff. apply compute_time_range_perm; [|exact Hoff].
    now apply timestamps_perm. }
  split; [symmetry; now apply Permutation_length|].
  split.
  { intros key Hk. destruct (Hcount key Hk) as (H1 & H2 & H3 & H4).
    eexists _, _. split; [exact H1|]. split; [exact H2|].
    split; [exact H3|]. intros k Hx. apply H4. now destruct k. }
  split; [exact Htime|].
  intros Hoff Hties.
  destruct events as [|e0 l] eqn:Eev.
  { apply Permutation_nil_l in Hp. now subst. }
  rewrite <- Eev in *.
  assert (Hne : events <> []) by (rewrite Eev; discriminate).
  assert (Hne' : events' <> []).
  { intros ->. apply Permutation_nil_r in Hp. contradiction. }
  rewrite !print_summary_records by assumption.
  rewrite (Htime Hoff), (Permutation_length Hp).
  destruct (compute_time_range (timestamps events)) as [r|e]; [|reflexivity].
  assert (Htab : forall title key, In key table_keys ->
            print_counter title
              (tally (List.map (table_field key) events') []) top
            = print_counter title
                (tally (List.map (table_field key) events) []) top).
  { intros title key Hk. destruct (Hcount key Hk) as (H1 & H2 & H3 & _).
    symmetry. apply print_counter_perm; [exact H3|].
    specialize (Hties key Hk). unfold no_ties in Hties.
    now rewrite H1 in Hties. }
  cbn [print_counters].
  rewrite !Htab by (cbn; tauto). reflexivity.
Qed.

End SummaryFacts.

(* ===================================================================== *)
(** * The theorems at concrete inputs *)
(* ===================================================================== *)

Ltac solve_decide := apply (bool_decide_unpack _); vm_compute; exact I.


Lemma scenario_two_records_witness :
  lower_spec test_runtime /\
  seen sample_state = ∅ /\
  exists st1 st2,
    @scan_once test_runtime SIGNATURES (pys "host") true
      (quiet_cycle [Proc (ollama_proc 10 None); Proc (curl_proc 11 None)])
      sample_state = (st1, Returns 2%nat) /\
    chunks st1
    = chunks sample_state ++
      [event_line (make_event (@utc_now_iso test_runtime (clock sample_state))
                     (pys "host") (ollama_proc 10 None) sig_ollama);
       event_line (make_event (@utc_now_iso test_runtime (S (clock sample_state)))
                     (pys "host") (curl_proc 11 None) sig_openai)] /\
    event_field "risk"
      (make_event (@utc_now_iso test_runtime (clock sample_state))
         (pys "host") (ollama_proc 10 None) sig_ollama)
    = JStr (pys "medium") /\
    event_field "risk"
      (make_event (@utc_now_iso test_runtime (S (clock sample_state)))
         (pys "host") (curl_proc 11 None) sig_openai)
    = JStr (pys "high") /\
    @scan_once test_runtime SIGNATURES (pys "host") true
      (quiet_cycle [Proc (ollama_proc 10 None); Proc (curl_proc 11 None)])
      st1 = (st2, Returns 0%nat) /\
    chunks st2 = chunks st1.
Proof.
  split; [exact test_runtime_lower|]. split; [reflexivity|].
  exact (@scenario_two_records test_runtime (pys "host") true 10 11 None None
           sample_state test_runtime_lower eq_refl).
Defined.

Lemma two_signatures_two_records_witness :
  io_ok llm_cycle /\
  In (Proc llm_proc) (c_procs llm_cycle) /\
  In sig_ollama SIGNATURES /\ In sig_generic SIGNATURES /\
  sig_name sig_ollama <> sig_name sig_generic /\
  @match_signature test_runtime sig_ollama llm_proc = true /\
  @match_signature test_runtime sig_generic llm_proc = true /\
  (pi_pid llm_proc, sig_name sig_ollama) ∉ seen sample_state /\
  (pi_pid llm_proc, sig_name sig_generic) ∉ seen sample_state /\
  exists st' new ch1 ch2,
    @scan_once test_runtime SIGNATURES (pys "host") false llm_cycle sample_state
    = (st', Returns (length new)) /\
    chunks st' = chunks sample_state ++ new /\
    In ch1 new /\ In ch2 new /\ ch1 <> ch2 /\
    is_record_for (pi_pid llm_proc) (sig_name sig_ollama) ch1 = true /\
    is_record_for (pi_pid llm_proc) (sig_name sig_generic) ch2 = true /\
    count_records (pi_pid llm_proc) (sig_name sig_ollama) new = 1%nat /\
    count_records (pi_pid llm_proc) (sig_name sig_generic) new = 1%nat.
Proof.
  assert (H1 : io_ok llm_cycle) by (split; [|split]; reflexivity).
  assert (H2 : In (Proc llm_proc) (c_procs llm_cycle)) by (left; reflexivity).
  assert (H3 : In sig_ollama SIGNATURES) by (left; reflexivity).
  assert (H4 : In sig_generic SIGNATURES)
    by (do 5 right; left; reflexivity).
  assert (H5 : sig_name sig_ollama <> sig_name sig_generic)
    by (vm_compute; discriminate).
  assert (H6 : @match_signature test_runtime sig_ollama llm_proc = true)
    by reflexivity.
  assert (H7 : @match_signature test_runtime sig_generic llm_proc = true)
    by reflexivity.
  assert (H8 : (pi_pid llm_proc, sig_name sig_ollama) ∉ seen sample_state)
    by apply not_elem_of_empty.
  assert (H9 : (pi_pid llm_proc, sig_name sig_generic) ∉ seen sample_state)
    by apply not_elem_of_empty.
  repeat (split; [assumption|]).
  exact (@two_signatures_two_records test_runtime SIGNATURES (pys "host") false
           llm_cycle sample_state llm_proc sig_ollama sig_generic
           H1 H2 H3 H4 H5 H6 H7 H8 H9).
Defined.


Lemma summary_order_invariance_witness :
  three_records ≡ₚ three_records_shuffled /\
  Forall (fun e => exact_record e = true) three_records /\
  length three_records_shuffled = length three_records /\
  @print_summary test_runtime three_records_shuffled 5
  = @print_summary test_runtime three_records 5.
Proof.
  assert (H1 : three_records ≡ₚ three_records_shuffled).
  { symmetry. apply (Permutation_cons_append
                       [risk_record "high"; risk_record "high"]
                       (risk_record "low")). }
  assert (H2 : Forall (fun e => exact_record e = true) three_records)
    by (repeat constructor).
  split; [exact H1|]. split; [exact H2|].
  destruct (@summary_order_invariance test_runtime three_records
              three_records_shuffled 5 H1 H2) as (H3 & _ & _ & H4).
  split; [exact H3|]. apply H4.
  - intros a b [].
  - intros key [<-|[<-|[<-|[<-|[]]]]]; unfold no_ties;
      vm_compute; solve_decide.
Defined.

(** C8, as the claim states it, fails, and each of the two conditions
    on the whole output is needed. Two records of different risk, each
    seen once and neither with a time stamp, give a different first row
    in the other order. Two records without ties in their tables, with
    time stamps of one instant at different offsets, give a different
    time range in the other order. *)
Lemma summary_depends_on_order :
  ~ (forall (rt : PyRuntime) (events events' : list json) (top : Z),
        events ≡ₚ events' ->
        print_summary events' top = print_summary events top) /\
  (two_risks ≡ₚ two_risks_swapped /\
   Forall (fun e => exact_record e = true) two_risks /\
   @same_offsets test_runtime two_risks /\
   @print_summary test_runtime two_risks_swapped 1
   <> @print_summary test_runtime two_risks 1) /\
  (one_instant_records ≡ₚ one_instant_records_swapped /\
   Forall (fun e => exact_record e = true) one_instant_records /\
   (forall key, In key table_keys -> no_ties key one_instant_records) /\
   @compute_time_range offsets_runtime
     (@timestamps offsets_runtime one_instant_records_swapped)
   <> @compute_time_range offsets_runtime
        (@timestamps offsets_runtime one_instant_records) /\
   @print_summary offsets_runtime one_instant_records_swapped 5
   <> @print_summary offsets_runtime one_instant_records 5).
Proof.
  split; [|split].
  - intros H.
    specialize (H test_runtime two_risks two_risks_swapped 1%Z
                  (perm_swap _ _ _)).
    vm_compute in H. discriminate H.
  - split; [apply perm_swap|]. split; [repeat constructor|].
    split; [intros a b []|]. vm_compute. discriminate.
  - split; [apply perm_swap|]. split; [repeat constructor|].
    split.
    { intros key [<-|[<-|[<-|[<-|[]]]]]; unfold no_ties;
        vm_compute; solve_decide. }
    split; vm_compute; discriminate.
Qed.


(** C4, as the claim states it, fails. Two default signatures match the
    process [llm_proc], and yet a cycle writes fewer than two records
    for it: none when the write fails or when the records are lost at
    the close of the file, and none in the cycle that follows the one
    that logged the two pairs. And two distinct signatures of one name
    that match the process give one record, not two. *)
Lemma two_signatures_fewer_records :
  In sig_ollama SIGNATURES /\ In sig_generic SIGNATURES /\
  sig_ollama <> sig_generic /\
  @match_signature test_runtime sig_ollama llm_proc = true /\
  @match_signature test_runtime sig_generic llm_proc = true /\
  chunks (fst (@scan_once test_runtime SIGNATURES (pys "host") false
                 (with_procs full_disk_cycle [Proc llm_proc]) sample_state))
  = [] /\
  chunks (fst (@scan_once test_runtime SIGNATURES (pys "host") false
                 (lost_at_close [Proc llm_proc]) sample_state))
  = [] /\
  chunks (fst (@scan_once test_runtime SIGNATURES (pys "host") false llm_cycle
                 (fst (@scan_once test_runtime SIGNATURES (pys "host") false
                         llm_cycle sample_state))))
  = chunks (fst (@scan_once test_runtime SIGNATURES (pys "host") false
                   llm_cycle sample_state)) /\
  sig_ollama <> sig_ollama_cmdline /\
  @match_signature test_runtime sig_ollama_cmdline llm_proc = true /\
  length (chunks (fst (@scan_once test_runtime
                         [sig_ollama; sig_ollama_cmdline] (pys "host") false
                         llm_cycle sample_state)))
  = 1%nat.
Proof.
  split; [left; reflexivity|].
  split; [do 5 right; left; reflexivity|].
  split; [intros H; discriminate H|].
  do 2 (split; [reflexivity|]).
  do 3 (split; [vm_compute; reflexivity|]).
  split; [intros H; discriminate H|].
  split; [reflexivity|]. vm_compute. reflexivity.
Qed.
(* ===================================================================== *)
(** * More on the scan cycle: where the log and [seen] come from *)
(* ===================================================================== *)

Section OriginFacts.

Context {rt : PyRuntime}.

Lemma adds_refl P Q st : adds P Q st st.
Proof.
  split; [exists []; rewrite app_nil_r; split; [reflexivity | constructor]|].
  intros key H. now left.
Qed.

Lemma adds_trans P Q st0 st1 st2 :
  adds P Q st0 st1 -> adds P Q st1 st2 -> adds P Q st0 st2.
Proof.
  intros [(a & Ha & Pa) Ka] [(b & Hb & Pb) Kb]. split.
  - exists (a ++ b). rewrite Hb, Ha, app_assoc. split; [reflexivity|].
    apply Forall_app. auto.
  - intros key H. destruct (Kb key H) as [H1|H1]; [apply Ka, H1 | now right].
Qed.

Lemma scan_sig_adds signatures hostname debug c procs info sig st st' r :
  In (Proc info) procs -> In sig signatures ->
  scan_sig hostname debug c info sig st = (st', r) ->
  adds (from_match signatures hostname procs)
    (key_of_match signatures procs) st st'.
Proof.
  intros Hi Hs H.
  destruct (scan_sig_cases hostname debug c info sig st)
    as [[E _] | [(E & Hm & _) | (e & E & Hm & _)]];
    rewrite E in H; injection H as <- <-.
  - apply adds_refl.
  - split.
    + eexists. split; [reflexivity|]. constructor; [|constructor].
      exists info, sig, (ss_clock st). auto.
    + cbn [emit_state ss_seen]. intros key Hk.
      apply elem_of_union in Hk as [Hk|Hk]; [|now left].
      apply elem_of_singleton in Hk. right. exists info, sig. auto.
  - split.
    + exists []. cbn [fail_state ss_file]. rewrite app_nil_r.
      split; [reflexivity | constructor].
    + cbn [fail_state ss_seen]. intros key Hk.
      apply elem_of_union in Hk as [Hk|Hk]; [|now left].
      apply elem_of_singleton in Hk. right. exists info, sig. auto.
Qed.

Lemma scan_sigs_adds signatures hostname debug c procs info sigs :
  In (Proc info) procs -> (forall s, In s sigs -> In s signatures) ->
  forall st st' r,
    scan_sigs hostname debug c info sigs st = (st', r) ->
    adds (from_match signatures hostname procs)
      (key_of_match signatures procs) st st'.
Proof.
  intros Hi. induction sigs as [|sig sigs IH]; intros Hs st st' r H.
  - injection H as <- <-. apply adds_refl.
  - cbn [scan_sigs] in H.
    destruct (scan_sig hostname debug c info sig st) as [st1 [[]|e]] eqn:E.
    + eapply adds_trans.
      * exact (scan_sig_adds signatures hostname debug c procs info sig
                 st st1 _ Hi (Hs sig (or_introl eq_refl)) E).
      * eapply IH; [|exact H]. intros s Hin. apply Hs. now right.
    + injection H as <- <-.
      exact (scan_sig_adds signatures hostname debug c procs info sig
               st st1 _ Hi (Hs sig (or_introl eq_refl)) E).
Qed.

Lemma scan_procs_adds signatures hostname debug c all procs :
  (forall p, In p procs -> In p all) ->
  forall st st' r,
    scan_procs signatures hostname debug c procs st = (st', r) ->
    adds (from_match signatures hostname all)
      (key_of_match signatures all) st st'.
Proof.
  induction procs as [|[info|] procs IH]; intros Hp st st' r H.
  - injection H as <- <-. apply adds_refl.
  - cbn [scan_procs] in H.
    destruct (scan_sigs hostname debug c info signatures st)
      as [st1 [[]|e]] eqn:E.
    + eapply adds_trans.
      * exact (scan_sigs_adds signatures hostname debug c all info signatures
                 (Hp _ (or_introl eq_refl)) (fun s H => H) st st1 _ E).
      * eapply IH; [|exact H]. intros p Hin. apply Hp. now right.
    + injection H as <- <-.
      exact (scan_sigs_adds signatures hostname debug c all info signatures
               (Hp _ (or_introl eq_refl)) (fun s H => H) st st1 _ E).
  - cbn [scan_procs] in H. eapply IH; [|exact H].
    intros p Hin. apply Hp. now right.
Qed.

Lemma scan_once_adds signatures hostname debug c st :
  (exists new,
      chunks (fst (scan_once signatures hostname debug c st))
      = chunks st ++ new /\
      Forall (from_match signatures hostname (c_procs c)) new) /\
  (forall key,
      key ∈ seen (fst (scan_once signatures hostname debug c st)) ->
      key ∈ seen st \/ key_of_match signatures (c_procs c) key).
Proof.
  unfold scan_once. destruct (c_open c) as [e|].
  - assert (H : chunks (fst (scan_except st 0%nat e)) = chunks st /\
                seen (fst (scan_except st 0%nat e)) = seen st)
      by (destruct e; auto).
    destruct H as [-> ->]. split; [|auto].
    exists []. rewrite app_nil_r. split; [reflexivity | constructor].
  - destruct (scan_procs signatures hostname debug c (c_procs c) _)
      as [st1 r1] eqn:E.
    apply (scan_procs_adds _ _ _ _ (c_procs c)) in E as [(new & E1 & E2) E3];
      [|auto].
    cbn [scan_start ss_file ss_seen app] in *.
    destruct (close_log_stored c (ss_file st1) r1) as [k Hk].
    destruct (close_log c (ss_file st1) r1) as [stored r'].
    cbn [fst] in Hk. subst stored. rewrite E1.
    assert (H : forall st2 : agent_state * outcome nat,
               chunks (fst st2) = chunks st ++ take k new ->
               seen (fst st2) = ss_seen st1 ->
               (exists new0, chunks (fst st2) = chunks st ++ new0 /\
                  Forall (from_match signatures hostname (c_procs c)) new0) /\
               (forall key, key ∈ seen (fst st2) ->
                  key ∈ seen st \/ key_of_match signatures (c_procs c) key)).
    { intros st2 -> ->. split; [|exact E3].
      exists (take k new). split; [reflexivity|]. now apply Forall_take. }
    destruct r' as [[]|e]; [apply H; reflexivity|].
    destruct e; apply H; reflexivity.
Qed.

Lemma from_cycles_cons signatures hostname c cs chunk :
  from_match signatures hostname (c_procs c) chunk \/
  from_cycles signatures hostname cs chunk ->
  from_cycles signatures hostname (c :: cs) chunk.
Proof.
  intros [H | (c' & Hc & H)]; [exists c | exists c']; split; auto;
    [now left | now right].
Qed.

Lemma key_of_cycles_cons signatures c cs key :
  key_of_match signatures (c_procs c) key \/
  key_of_cycles signatures cs key ->
  key_of_cycles signatures (c :: cs) key.
Proof.
  intros [H | (c' & Hc & H)]; [exists c | exists c']; split; auto;
    [now left | now right].
Qed.

Lemma main_loop_adds signatures hostname debug cs : forall st,
  (exists new,
      chunks (fst (main_loop signatures hostname debug cs st))
      = chunks st ++ new /\
      Forall (from_cycles signatures hostname cs) new) /\
  (forall key,
      key ∈ seen (fst (main_loop signatures hostname debug cs st)) ->
      key ∈ seen st \/ key_of_cycles signatures cs key).
Proof.
  induction cs as [|c cs IH]; intros st; cbn [main_loop].
  - split; [|auto]. exists []. rewrite app_nil_r.
    split; [reflexivity | constructor].
  - destruct (scan_once_adds signatures hostname debug c st)
      as [(new & H1 & H2) H3].
    destruct (scan_once signatures hostname debug c st) as [st1 r] eqn:E.
    cbn [fst] in *.
    assert (Hhere : forall st2 : agent_state,
               chunks st2 = chunks st1 -> seen st2 = seen st1 ->
               (exists new0, chunks st2 = chunks st ++ new0 /\
                  Forall (from_cycles signatures hostname (c :: cs)) new0) /\
               (forall key, key ∈ seen st2 ->
                  key ∈ seen st \/ key_of_cycles signatures (c :: cs) key)).
    { intros st2 -> ->. split.
      - exists new. split; [exact H1|]. eapply Forall_impl; [exact H2|].
        intros ch Hch. apply from_cycles_cons. now left.
      - intros key Hk. destruct (H3 key Hk) as [?|?]; [now left|].
        right. apply key_of_cycles_cons. now left. }
    destruct r as [n|e].
    + destruct (c_sleep_interrupted c).
      { cbn [fst]. apply Hhere; destruct debug; reflexivity. }
      set (st2 := if debug then print_msg (MsgCycleComplete n) st1 else st1).
      assert (Hst2 : chunks st2 = chunks st1 /\ seen st2 = seen st1)
        by (unfold st2; destruct debug; auto).
      destruct Hst2 as [Hc2 Hs2].
      destruct (IH st2) as [(new' & H4 & H5) H6]. split.
      * exists (new ++ new'). rewrite H4, Hc2, H1, app_assoc.
        split; [reflexivity|]. apply Forall_app. split.
        -- eapply Forall_impl; [exact H2|].
           intros ch Hch. apply from_cycles_cons. now left.
        -- eapply Forall_impl; [exact H5|].
           intros ch Hch. apply from_cycles_cons. now right.
      * intros key Hk. destruct (H6 key Hk) as [Hk'|Hk'].
        -- rewrite Hs2 in Hk'. destruct (H3 key Hk') as [?|?]; [now left|].
           right. apply key_of_cycles_cons. now left.
        -- right. apply key_of_cycles_cons. now right.
    + destruct e; cbn [fst]; apply Hhere; reflexivity.
Qed.

End OriginFacts.


(** X2. The set [seen] only grows in a run, and every key that enters it
    is the pid and the signature name of a match met in one of the
    cycles. *)
Theorem seen_only_grows `{rt : PyRuntime} (signatures : list signature)
    (hostname : pystr) (debug : bool) (cs : list cycle) (st : agent_state) :
  seen st ⊆ seen (fst (main_loop signatures hostname debug cs st)) /\
  forall key,
    key ∈ seen (fst (main_loop signatures hostname debug cs st)) ->
    key ∈ seen st \/ key_of_cycles signatures cs key.
Proof.
  split; [|apply main_loop_adds].
  destruct (main_loop signatures hostname debug cs st) as [st' status] eqn:E.
  apply main_loop_step in E as (new & _ & Hsub & _). exact Hsub.
Qed.

(** X3. Whatever happens on the log, and whatever the process tables
    (a pid listed twice, two signatures of one name), a run appends at
    most one record for a pair (pid, signature name), and none for a pair
    that is in [seen] when it starts. *)
Theorem one_record_per_pair `{rt : PyRuntime} (signatures : list signature)
    (hostname : pystr) (debug : bool) (cs : list cycle) (st : agent_state) :
  exists new,
    chunks (fst (main_loop signatures hostname debug cs st)) = chunks st ++ new /\
    forall pid name,
      (count_records pid name new <= 1)%nat /\
      ((pid, name) ∈ seen st -> count_records pid name new = 0%nat).
Proof.
  destruct (main_loop signatures hostname debug cs st) as [st' status] eqn:E.
  apply main_loop_step in E as (new & H1 & _ & H2).
  exists new. split; [exact H1|]. intros pid name.
  destruct (H2 pid name) as [Hle Hone]. split; [exact Hle|].
  intros Hs. destruct (count_records pid name new) as [|[|n]];
    [reflexivity | now destruct (Hone eq_refl) | lia].
Qed.

Section MoreCycleFacts.

Context {rt : PyRuntime}.

Lemma scan_procs_live signatures hostname debug c procs' procs : forall st,
  scan_procs signatures hostname debug (with_procs c procs')
    (live_procs procs) st
  = scan_procs signatures hostname debug c procs st.
Proof.
  assert (Hsig : forall info sig st,
             scan_sig hostname debug (with_procs c procs') info sig st
             = scan_sig hostname debug c info sig st) by reflexivity.
  assert (Hsigs : forall info sigs st,
             scan_sigs hostname debug (with_procs c procs') info sigs st
             = scan_sigs hostname debug c info sigs st).
  { intros info sigs. induction sigs as [|s sigs IH]; intros st;
      [reflexivity|].
    cbn [scan_sigs]. rewrite Hsig.
    destruct (scan_sig hostname debug c info s st) as [st1 [[]|e]];
      [apply IH | reflexivity]. }
  induction procs as [|[info|] procs IH]; intros st; cbn [live_procs List.filter scan_procs].
  - reflexivity.
  - rewrite Hsigs.
    destruct (scan_sigs hostname debug c info signatures st) as [st1 [[]|e]];
      [apply IH | reflexivity].
  - apply IH.
Qed.

End MoreCycleFacts.

(** X4. A process that has gone, or denies access, when its [info] is
    read is skipped without a trace: the cycle is the one over the table
    without these entries. *)
Theorem gone_processes_skipped `{rt : PyRuntime} (signatures : list signature)
    (hostname : pystr) (debug : bool) (c : cycle) (st : agent_state) :
  scan_once signatures hostname debug
    (with_procs c (live_procs (c_procs c))) st
  = scan_once signatures hostname debug c st.
Proof.
  unfold scan_once. cbn [with_procs c_open c_procs].
  destruct (c_open c); [reflexivity|].
  now rewrite (scan_procs_live signatures hostname debug c).
Qed.

(* ===================================================================== *)
(** * The debug flag *)
(* ===================================================================== *)

Section DebugFacts.

Context {rt : PyRuntime}.

Lemma plain_msgs_app a b : plain_msgs (a ++ b) = plain_msgs a ++ plain_msgs b.
Proof. apply List.filter_app. Qed.

Lemma plain_msgs_debug a m :
  is_debug_msg m = true -> plain_msgs (a ++ [m]) = plain_msgs a.
Proof.
  intros H. rewrite plain_msgs_app. unfold plain_msgs at 2.
  cbn [List.filter]. rewrite H. cbn [negb]. apply app_nil_r.
Qed.

Lemma plain_msgs_plain a b m :
  is_debug_msg m = false -> plain_msgs a = plain_msgs b ->
  plain_msgs (a ++ [m]) = plain_msgs (b ++ [m]).
Proof. intros _ H. now rewrite !plain_msgs_app, H. Qed.

Lemma scan_sig_debug hostname c info sig a b :
  same_scan_but_debug a b ->
  same_scan_but_debug (fst (scan_sig hostname true c info sig a))
    (fst (scan_sig hostname false c info sig b)) /\
  snd (scan_sig hostname true c info sig a)
  = snd (scan_sig hostname false c info sig b).
Proof.
  intros (H1 & H2 & H3 & H4 & H5). unfold scan_sig.
  rewrite H1, H2, H3, H4.
  destruct (match_signature sig info); cbn [negb];
    [|split; [repeat split; assumption | reflexivity]].
  case_bool_decide;
    [split; [repeat split; assumption | reflexivity]|].
  destruct (c_write c (events_written b)) as [e|]; cbn [fst snd].
  - split; [|reflexivity]. repeat split; cbn; auto.
  - split; [|reflexivity]. repeat split; cbn; auto.
    now rewrite plain_msgs_debug.
Qed.

Lemma scan_sigs_debug hostname c info sigs : forall a b,
  same_scan_but_debug a b ->
  same_scan_but_debug (fst (scan_sigs hostname true c info sigs a))
    (fst (scan_sigs hostname false c info sigs b)) /\
  snd (scan_sigs hostname true c info sigs a)
  = snd (scan_sigs hostname false c info sigs b).
Proof.
  induction sigs as [|sig sigs IH]; intros a b Hab; [now split|].
  cbn [scan_sigs].
  destruct (scan_sig_debug hostname c info sig a b Hab) as [H1 H2].
  destruct (scan_sig hostname true c info sig a) as [a1 ra].
  destruct (scan_sig hostname false c info sig b) as [b1 rb].
  cbn [fst snd] in H1, H2. subst rb.
  destruct ra as [[]|e]; [now apply IH | now split].
Qed.

Lemma scan_procs_debug signatures hostname c procs : forall a b,
  same_scan_but_debug a b ->
  same_scan_but_debug (fst (scan_procs signatures hostname true c procs a))
    (fst (scan_procs signatures hostname false c procs b)) /\
  snd (scan_procs signatures hostname true c procs a)
  = snd (scan_procs signatures hostname false c procs b).
Proof.
  induction procs as [|[info|] procs IH]; intros a b Hab;
    [now split | | now apply IH].
  cbn [scan_procs].
  destruct (scan_sigs_debug hostname c info signatures a b Hab) as [H1 H2].
  destruct (scan_sigs hostname true c info signatures a) as [a1 ra].
  destruct (scan_sigs hostname false c info signatures b) as [b1 rb].
  cbn [fst snd] in H1, H2. subst rb.
  destruct ra as [[]|e]; [now apply IH | now split].
Qed.

Lemma scan_except_debug a b n e :
  same_but_debug a b ->
  same_but_debug (fst (scan_except a n e)) (fst (scan_except b n e)) /\
  snd (scan_except a n e) = snd (scan_except b n e).
Proof.
  intros (H1 & H2 & H3 & H4).
  destruct e as [msg| | | |]; cbn; try (split; [repeat split; assumption | reflexivity]).
  split; [|reflexivity]. repeat split; cbn; auto.
  now apply plain_msgs_plain.
Qed.

Lemma scan_once_debug signatures hostname c a b :
  same_but_debug a b ->
  same_but_debug (fst (scan_once signatures hostname true c a))
    (fst (scan_once signatures hostname false c b)) /\
  snd (scan_once signatures hostname true c a)
  = snd (scan_once signatures hostname false c b).
Proof.
  intros Hab. pose proof Hab as (H1 & H2 & H3 & H4). unfold scan_once.
  destruct (c_open c) as [e|]; [now apply scan_except_debug|].
  assert (H0 : same_scan_but_debug (scan_start a) (scan_start b))
    by (repeat split; cbn; auto).
  destruct (scan_procs_debug signatures hostname c (c_procs c) _ _ H0)
    as [(S1 & S2 & S3 & S4 & S5) Hr].
  destruct (scan_procs signatures hostname true c (c_procs c) (scan_start a))
    as [a1 ra].
  destruct (scan_procs signatures hostname false c (c_procs c) (scan_start b))
    as [b1 rb].
  cbn [fst snd] in S1, S2, S3, S4, S5, Hr. subst rb. rewrite S2, S4, H2.
  destruct (close_log c (ss_file b1) ra) as [stored r'].
  destruct r' as [[]|e].
  - cbn [fst snd]. split; [|reflexivity]. repeat split; cbn; auto.
  - apply scan_except_debug. repeat split; cbn; auto.
Qed.

Lemma print_msg_debug m a b :
  same_but_debug a b -> same_but_debug (print_msg m a) (print_msg m b).
Proof.
  intros (H1 & H2 & H3 & H4). repeat split; cbn; auto.
  now rewrite !plain_msgs_app, H4.
Qed.

Lemma main_loop_debug signatures hostname cs : forall a b,
  same_but_debug a b ->
  same_but_debug (fst (main_loop signatures hostname true cs a))
    (fst (main_loop signatures hostname false cs b)) /\
  snd (main_loop signatures hostname true cs a)
  = snd (main_loop signatures hostname false cs b).
Proof.
  induction cs as [|c cs IH]; intros a b Hab; [now split|].
  cbn [main_loop].
  destruct (scan_once_debug signatures hostname c a b Hab) as [H1 H2].
  destruct (scan_once signatures hostname true c a) as [a1 ra].
  destruct (scan_once signatures hostname false c b) as [b1 rb].
  cbn [fst snd] in H1, H2. subst rb.
  destruct ra as [n|e].
  - assert (H3 : same_but_debug (print_msg (MsgCycleComplete n) a1) b1).
    { destruct H1 as (S1 & S2 & S3 & S4). repeat split; cbn; auto.
      now rewrite plain_msgs_debug. }
    destruct (c_sleep_interrupted c).
    + cbn [fst snd]. split; [now apply print_msg_debug | reflexivity].
    + now apply IH.
  - destruct e; cbn [fst snd]; try (split; [assumption | reflexivity]).
    split; [now apply print_msg_debug | reflexivity].
Qed.

End DebugFacts.

(** X5. The [--debug] flag changes nothing but the console, and there
    only adds lines: with and without it a run leaves the same log, the
    same set [seen], the same number of clock readings and the same
    status, and the console without the [MATCH] and "Cycle complete"
    lines is the same. *)
Theorem debug_only_prints `{rt : PyRuntime} (signatures : list signature)
    (hostname : pystr) (cs : list cycle) (st : agent_state) :
  same_but_debug (fst (main_loop signatures hostname true cs st))
    (fst (main_loop signatures hostname false cs st)) /\
  snd (main_loop signatures hostname true cs st)
  = snd (main_loop signatures hostname false cs st).
Proof. apply main_loop_debug. repeat split. Qed.

(* ===================================================================== *)
(** * Scans that find nothing new *)
(* ===================================================================== *)

Section QuietFacts.

Context {rt : PyRuntime}.

Lemma scan_sigs_quiet hostname debug c info sigs st :
  (forall sig, In sig sigs -> match_signature sig info = true ->
               (pi_pid info, sig_name sig) ∈ ss_seen st) ->
  scan_sigs hostname debug c info sigs st = (st, Returns tt).
Proof.
  induction sigs as [|sig sigs IH]; intros H; [reflexivity|].
  cbn [scan_sigs].
  destruct (match_signature sig info) eqn:Hm.
  - rewrite scan_sig_seen by (apply H; [now left | exact Hm]).
    apply IH. intros s Hs. apply H. now right.
  - rewrite scan_sig_nomatch by exact Hm.
    apply IH. intros s Hs. apply H. now right.
Qed.

Lemma scan_procs_quiet signatures hostname debug c procs st :
  (forall info sig, In (Proc info) procs -> In sig signatures ->
                    match_signature sig info = true ->
                    (pi_pid info, sig_name sig) ∈ ss_seen st) ->
  scan_procs signatures hostname debug c procs st = (st, Returns tt).
Proof.
  induction procs as [|[info|] procs IH]; intros H; [reflexivity | |].
  - cbn [scan_procs]. rewrite scan_sigs_quiet.
    + apply IH. intros i s Hi. apply H. now right.
    + intros s Hs. apply H; [now left | exact Hs].
  - cbn [scan_procs]. apply IH. intros i s Hi. apply H. now right.
Qed.

Lemma scan_once_quiet signatures hostname debug c st :
  c_open c = None ->
  (forall info sig, In (Proc info) (c_procs c) -> In sig signatures ->
                    match_signature sig info = true ->
                    (pi_pid info, sig_name sig) ∈ seen st) ->
  scan_once signatures hostname debug c st = (created st, Returns 0%nat).
Proof.
  intros Ho H. unfold scan_once. rewrite Ho.
  rewrite scan_procs_quiet by exact H.
  cbn [scan_start close_log ss_file ss_seen ss_out ss_clock events_written].
  unfold created, chunks. now rewrite app_nil_r.
Qed.

Lemma scan_once_opened signatures hostname debug c st :
  c_open c = None ->
  created (fst (scan_once signatures hostname debug c st))
  = fst (scan_once signatures hostname debug c st).
Proof.
  intros Ho. unfold scan_once. rewrite Ho.
  destruct (scan_procs _ _ _ _ _ _) as [st1 r].
  destruct (close_log c (ss_file st1) r) as [stored [[]|e]]; [reflexivity|].
  destruct e; reflexivity.
Qed.

End QuietFacts.

(** X6. A scan in which the log opens and every match is already in
    [seen] (so also one that meets no match at all) returns 0 and leaves
    everything as it was, but for the log file, which is there
    afterwards; no write is tried, so that a full disk does not show. *)
Theorem quiet_scan_only_creates_log `{rt : PyRuntime}
    (signatures : list signature) (hostname : pystr) (debug : bool)
    (c : cycle) (st : agent_state) :
  c_open c = None ->
  (forall info sig, In (Proc info) (c_procs c) -> In sig signatures ->
                    match_signature sig info = true ->
                    (pi_pid info, sig_name sig) ∈ seen st) ->
  scan_once signatures hostname debug c st = (created st, Returns 0%nat).
Proof. apply scan_once_quiet. Qed.

(** X7. After a scan without a failure of the log, a scan of the same
    process table, whatever happens to the writes this time, returns 0
    and changes nothing: neither the log, nor [seen], nor the console. *)
Theorem rescan_is_silent `{rt : PyRuntime} (signatures : list signature)
    (hostname : pystr) (debug debug' : bool) (c c' : cycle)
    (st : agent_state) :
  io_ok c -> c_open c' = None -> c_procs c' = c_procs c ->
  scan_once signatures hostname debug' c'
    (fst (scan_once signatures hostname debug c st))
  = (fst (scan_once signatures hostname debug c st), Returns 0%nat).
Proof.
  intros Hio Ho Hp.
  destruct (scan_once_ok signatures hostname debug c st Hio)
    as (st1 & new & E & _ & _ & _ & Hmark).
  rewrite scan_once_quiet.
  - now rewrite (scan_once_opened _ _ _ _ _ (proj1 Hio)).
  - exact Ho.
  - rewrite Hp, E. exact Hmark.
Qed.

(* ===================================================================== *)
(** * Failures and interrupts *)
(* ===================================================================== *)

Section FailureFacts.

Context {rt : PyRuntime}.

(** An exception that leaves a cycle is not an [OSError], and it is
    that of opening the log, of a write, or of closing the file. *)
Lemma scan_once_raises signatures hostname debug c st st' e :
  scan_once signatures hostname debug c st = (st', Raises e) ->
  ~ is_oserror e /\
  (c_open c = Some e \/ (exists k, c_write c k = Some e) \/
   c_close c = Some e).
Proof.
  unfold scan_once. destruct (c_open c) as [e0|] eqn:Ho.
  - destruct e0; cbn; intros H; try discriminate H;
      injection H as <- <-; (split; [intros []|now left]).
  - destruct (scan_procs _ _ _ _ _ _) as [st1 r1] eqn:E.
    apply scan_procs_start in E as (_ & _ & _ & Hw).
    assert (Hfrom : forall e1, snd (close_log c (ss_file st1) r1) = Raises e1 ->
               (exists k, c_write c k = Some e1) \/ c_close c = Some e1).
    { intros e1.
      destruct (close_log_cases c (ss_file st1) r1)
        as [[-> _]|(e2 & -> & _ & Hc)]; cbn [snd].
      - intros ->. left. eauto.
      - intros [= <-]. now right. }
    destruct (close_log c (ss_file st1) r1) as [stored [[]|e1]];
      [discriminate|].
    specialize (Hfrom e1 eq_refl).
    destruct e1; cbn; intros H; try discriminate H;
      injection H as <- <-; (split; [intros []|now right]).
Qed.

Lemma main_loop_benign signatures hostname debug cs : forall st,
  Forall benign cs ->
  match snd (main_loop signatures hostname debug cs st) with
  | Running => Forall (fun c => c_sleep_interrupted c = false) cs
  | Stopped =>
      last (stdout (fst (main_loop signatures hostname debug cs st)))
      = Some MsgStopped
  | Crashed _ => False
  end.
Proof.
  induction cs as [|c cs IH]; intros st Hb; [constructor|].
  apply Forall_cons in Hb as [(Hb1 & Hb2 & Hb3) Hbs].
  cbn [main_loop].
  destruct (scan_once signatures hostname debug c st) as [st1 [n|e]] eqn:E.
  - destruct (c_sleep_interrupted c) eqn:Hs.
    + cbn [fst snd print_msg stdout]. apply last_snoc.
    + match goal with
      | |- context [main_loop _ _ _ cs ?x] => specialize (IH x Hbs)
      end.
      destruct (snd (main_loop signatures hostname debug cs _)); auto.
  - apply scan_once_raises in E as [Hn [Ho|[[k Hw]|Hc]]].
    + apply Hb1 in Ho. destruct e; cbn in *; try contradiction.
      apply last_snoc.
    + apply Hb2 in Hw. destruct e; cbn in *; try contradiction.
      apply last_snoc.
    + apply Hb3 in Hc. destruct e; cbn in *; try contradiction.
      apply last_snoc.
Qed.

Lemma open_fails_scan signatures hostname debug c st :
  open_fails c ->
  exists msg,
    scan_once signatures hostname debug c st
    = (print_msg (MsgWriteFailed msg) st, Returns 0%nat).
Proof.
  intros [[msg Ho] _]. exists msg. unfold scan_once. now rewrite Ho.
Qed.

Lemma main_loop_open_fails signatures hostname debug cs1 cs2 : forall st,
  Forall open_fails cs1 ->
  exists st1,
    main_loop signatures hostname debug (cs1 ++ cs2) st
    = main_loop signatures hostname debug cs2 st1 /\
    seen st1 = seen st /\ log st1 = log st /\ clock st1 = clock st.
Proof.
  induction cs1 as [|c cs1 IH]; intros st H.
  - exists st. auto.
  - apply Forall_cons in H as [Hc Hcs].
    destruct (open_fails_scan signatures hostname debug c st Hc) as [msg E].
    cbn [app main_loop]. rewrite E. rewrite (proj2 Hc).
    match goal with
    | |- context [main_loop _ _ _ (cs1 ++ cs2) ?x] =>
        destruct (IH x Hcs) as (st1 & H1 & H2 & H3 & H4)
    end.
    exists st1. split; [exact H1|].
    rewrite H2, H3, H4. destruct debug; auto.
Qed.

(** The argument of the de-duplication, from a cycle on. *)
Lemma logged_once_from signatures hostname debug c cs st pid name :
  (pid, name) ∉ seen st -> io_ok c -> occurs signatures pid name c ->
  exists new,
    chunks (fst (main_loop signatures hostname debug (c :: cs) st))
    = chunks st ++ new /\
    count_records pid name new = 1%nat.
Proof.
  intros Hfresh Hio (info & sig & Hi & Hs & <- & <- & Hm).
  destruct (scan_once_ok signatures hostname debug c st Hio)
    as (st1 & new1 & E & Hc & Hd & Hl & Hmark).
  pose proof (Hmark info sig Hi Hs Hm) as Hseen.
  pose proof (Hl _ _ Hseen Hfresh) as Hone.
  cbn [main_loop]. rewrite E.
  set (st2 := if debug then print_msg (MsgCycleComplete (length new1)) st1
              else st1).
  assert (H2 : chunks st2 = chunks st1 /\ seen st2 = seen st1)
    by (unfold st2; destruct debug; auto).
  destruct H2 as [H2c H2s].
  destruct (c_sleep_interrupted c).
  - exists new1. cbn [fst]. rewrite print_msg_chunks, H2c, Hc. auto.
  - destruct (main_loop signatures hostname debug cs st2) as [st3 status] eqn:E3.
    apply (seen_suppressed _ _ _ _ _ _ _ (pi_pid info) (sig_name sig)) in E3
      as (new2 & H3 & H4); [|now rewrite H2s].
    exists (new1 ++ new2). cbn [fst]. rewrite H3, H2c, Hc, <- app_assoc.
    split; [reflexivity|]. rewrite count_records_app. lia.
Qed.

End FailureFacts.

(** X8. When nothing but [OSError] and Ctrl+C can happen, a run does not
    crash: either all its cycles are done and none was interrupted, or it
    was stopped by Ctrl+C and the last thing on the console is the
    goodbye message. *)
Theorem run_ends_only_by_interrupt `{rt : PyRuntime}
    (signatures : list signature) (hostname : pystr) (debug : bool)
    (cs : list cycle) (st : agent_state) :
  Forall benign cs ->
  match snd (main_loop signatures hostname debug cs st) with
  | Running => Forall (fun c => c_sleep_interrupted c = false) cs
  | Stopped =>
      last (stdout (fst (main_loop signatures hostname debug cs st)))
      = Some MsgStopped
  | Crashed _ => False
  end.
Proof. apply main_loop_benign. Qed.

(** X9. Cycles in which the log cannot be opened change neither the log
    nor [seen]; so a process that matches while the log cannot be opened
    and is still there in the first cycle without a failure of the log
    is logged then, exactly once for the rest of the run. *)
Theorem open_failure_retried `{rt : PyRuntime} (signatures : list signature)
    (hostname : pystr) (debug : bool) (cs1 cs2 : list cycle) (c : cycle)
    (st : agent_state) (pid : Z) (name : pystr) :
  Forall open_fails cs1 ->
  io_ok c ->
  (pid, name) ∉ seen st ->
  occurs signatures pid name c ->
  chunks (fst (main_loop signatures hostname debug cs1 st)) = chunks st /\
  seen (fst (main_loop signatures hostname debug cs1 st)) = seen st /\
  exists new,
    chunks (fst (main_loop signatures hostname debug (cs1 ++ c :: cs2) st))
    = chunks st ++ new /\
    count_records pid name new = 1%nat.
Proof.
  intros H1 Hio Hfresh Hocc.
  destruct (main_loop_open_fails signatures hostname debug cs1 [] st H1)
    as (st0 & E0 & S0 & L0 & _).
  rewrite app_nil_r in E0. rewrite E0. cbn [main_loop fst].
  unfold chunks at 1 2. rewrite L0, S0.
  split; [reflexivity|]. split; [reflexivity|].
  destruct (main_loop_open_fails signatures hostname debug cs1 (c :: cs2) st H1)
    as (st1 & E1 & S1 & L1 & _).
  rewrite E1.
  destruct (logged_once_from signatures hostname debug c cs2 st1 pid name)
    as (new & Hn & Hc); [now rewrite S1 | exact Hio | exact Hocc |].
  exists new. rewrite Hn. unfold chunks. now rewrite L1.
Qed.

(* ===================================================================== *)
(** * The reader on a log that the agent appends to *)
(* ===================================================================== *)

Lemma readlines_nil s : readlines s = [] -> s = [].
Proof.
  destruct s as [|c s]; [reflexivity|]. cbn [readlines].
  destruct (c =? 10); [discriminate|].
  destruct (c =? 13); [destruct s as [|d s]; [discriminate|];
                       destruct (d =? 10); discriminate|].
  destruct (readlines s); discriminate.
Qed.

Lemma whole_lines_tail c s : whole_lines (c :: s) -> s <> [] -> whole_lines s.
Proof.
  intros [H|H] Hs; [discriminate|]. right.
  destruct s as [|d s]; [contradiction | exact H].
Qed.

Lemma readlines_app_le n : forall a b,
  (length a <= n)%nat -> whole_lines a ->
  readlines (a ++ b) = readlines a ++ readlines b.
Proof.
  induction n as [|n IH]; intros a b Hn Hw.
  { destruct a; [reflexivity | cbn in Hn; lia]. }
  destruct a as [|c a]; [reflexivity|].
  cbn [length] in Hn. cbn [app readlines].
  destruct (N.eqb_spec c 10) as [->|Hc10].
  { destruct a as [|d a]; [reflexivity|].
    rewrite IH; [reflexivity | lia |].
    apply (whole_lines_tail 10); [exact Hw | discriminate]. }
  destruct a as [|d a].
  { destruct Hw as [Hw|Hw]; [discriminate|]. cbn in Hw. congruence. }
  assert (Hw1 : whole_lines (d :: a))
    by (apply (whole_lines_tail c); [exact Hw | discriminate]).
  destruct (N.eqb_spec c 13) as [->|Hc13].
  - cbn [app]. destruct (N.eqb_spec d 10) as [->|Hd].
    + destruct a as [|d' a]; [reflexivity|].
      rewrite IH; [reflexivity | cbn in *; lia |].
      apply (whole_lines_tail 10); [exact Hw1 | discriminate].
    + change (d :: a ++ b) with ((d :: a) ++ b).
      rewrite IH; [reflexivity | lia | exact Hw1].
  - rewrite IH by (lia || exact Hw1).
    destruct (readlines (d :: a)) as [|l ls] eqn:E;
      [apply readlines_nil in E; discriminate | reflexivity].
Qed.

Lemma readlines_app a b :
  whole_lines a -> readlines (a ++ b) = readlines a ++ readlines b.
Proof. apply (readlines_app_le (length a)). lia. Qed.

Lemma load_lines_app a b : load_lines (a ++ b) = load_lines a ++ load_lines b.
Proof.
  induction a as [|l a IH]; [reflexivity|].
  cbn [app load_lines]. destruct (strip l); [exact IH|].
  destruct (loads _); [now rewrite IH | exact IH].
Qed.



Section ReadBack.

Context {rt : PyRuntime}.




End ReadBack.


(* ===================================================================== *)
(** * Summaries that do not fail *)
(* ===================================================================== *)










Section SummaryFacts.

Context {rt : PyRuntime}.






End SummaryFacts.



(* ===================================================================== *)
(** * What the tables count *)
(* ===================================================================== *)

Lemma total_count_incr v c : total_count (counter_incr v c) = S (total_count c).
Proof.
  induction c as [|[k n] c IH]; [reflexivity|].
  cbn [counter_incr]. destruct (key_eqb k v); cbn [total_count foldr snd] in *.
  - lia.
  - fold (total_count (counter_incr v c)). fold (total_count c). lia.
Qed.

Lemma total_count_tally vs : forall c,
  total_count (tally vs c) = (total_count c + length vs)%nat.
Proof.
  induction vs as [|v vs IH]; intros c; unfold tally in *;
    cbn [fold_left length]; [lia|].
  rewrite IH, total_count_incr. lia.
Qed.

Lemma exact_key_hashable v : exact_key v = true -> hashable v = true.
Proof. destruct v; auto. Qed.

(** X14. Each table of the summary counts every event once: for a list
    of event objects whose field is absent, [null], a boolean, an integer
    or a string, the count of such a value is the number of events whose
    field equals it, an event without the field counting for
    ["unknown"], and the counts of the table add up to the number of
    events. *)
Theorem table_counts_events (key : pystr) (events : list json) :
  Forall (fun e => is_object e = true /\ exact_key (table_field key e) = true)
    events ->
  exists c,
    count_field key events [] = Returns c /\
    counter_ok c /\
    total_count c = length events /\
    forall k, exact_key k = true ->
              counter_get k c = count_of k (List.map (table_field key) events).
Proof.
  intros H. exists (tally (List.map (table_field key) events) []).
  assert (Hv : Forall (fun v => hashable v = true)
                 (List.map (table_field key) events)).
  { apply Forall_map. eapply Forall_impl; [exact H|].
    intros e [_ He]. now apply exact_key_hashable. }
  split.
  { apply count_field_tally. eapply Forall_impl; [exact H|].
    intros e [Ho He]. split; [exact Ho | now apply exact_key_hashable]. }
  split; [apply tally_ok; [exact Hv | apply counter_ok_nil]|].
  split; [now rewrite total_count_tally, length_map|].
  intros k Hk.
  now rewrite tally_get by (auto using counter_ok_nil, exact_key_hashable).
Qed.

(* ===================================================================== *)
(** * Summaries that fail *)
(* ===================================================================== *)

Lemma dt_lt_mixed a b : aware a <> aware b -> dt_lt a b = Raises TypeError.
Proof.
  unfold aware, dt_lt.
  destruct (dt_offset a), (dt_offset b); intros H; congruence.
Qed.

Lemma dt_lt_unmixed a b :
  aware a = aware b -> exists r, dt_lt a b = Returns r.
Proof.
  unfold aware, dt_lt.
  destruct (dt_offset a), (dt_offset b); intros H; try discriminate; eauto.
Qed.

Lemma min_from_mixed l : forall m,
  (exists x, In x l /\ aware x <> aware m) -> min_from m l = Raises TypeError.
Proof.
  induction l as [|y l IH]; intros m (x & Hin & Hx); [destruct Hin|].
  cbn [min_from].
  destruct (bool_decide (aware y = aware m)) eqn:E.
  - apply bool_decide_eq_true in E.
    destruct (dt_lt_unmixed y m E) as [r ->].
    assert (Hl : In x l).
    { destruct Hin as [<-|Hin]; [contradiction | exact Hin]. }
    destruct r; apply IH; exists x; (split; [exact Hl|]); congruence.
  - apply bool_decide_eq_false in E. now rewrite dt_lt_mixed.
Qed.

Section FailingSummaries.

Context {rt : PyRuntime}.

Lemma compute_time_range_mixed (ts : list datetime) a b :
  In a ts -> In b ts -> aware a <> aware b ->
  compute_time_range ts = Raises TypeError.
Proof.
  intros Ha Hb Hab. destruct ts as [|t l]; [destruct Ha|].
  cbn [compute_time_range]. rewrite min_from_mixed; [reflexivity|].
  destruct (bool_decide (aware a = aware t)) eqn:E.
  - apply bool_decide_eq_true in E. exists b. split; [|congruence].
    destruct Hb as [<-|Hb]; [congruence | exact Hb].
  - apply bool_decide_eq_false in E. exists a. split; [|exact E].
    destruct Ha as [<-|Ha]; [congruence | exact Ha].
Qed.

Lemma timestamps_nonempty events a : In a (timestamps events) -> events <> [].
Proof. intros H ->. destruct H. Qed.

End FailingSummaries.

(** X15. A log in which one time stamp parses as a naive time and
    another as an aware one makes the summary of its records fail with
    [TypeError] before anything of it is printed: the two do not
    compare. *)
Theorem mixed_timestamps_raise `{rt : PyRuntime} (events : list json)
    (top : Z) (a b : datetime) :
  Forall (fun e => record_like e = true) events ->
  In a (timestamps events) -> In b (timestamps events) ->
  dt_offset a = None -> dt_offset b <> None ->
  print_summary events top = ([], Some TypeError).
Proof.
  intros Hrec Ha Hb Hna Hnb.
  rewrite print_summary_records;
    [|exact (timestamps_nonempty events a Ha) | exact Hrec].
  rewrite (compute_time_range_mixed (timestamps events) a b Ha Hb);
    [reflexivity|].
  unfold aware. rewrite Hna. destruct (dt_offset b); congruence.
Qed.

Lemma count_field_exn key events : forall c,
  Forall (fun e => is_object e = true) events ->
  (exists c', count_field key events c = Returns c') \/
  count_field key events c = Raises TypeError.
Proof.
  induction events as [|e events IH]; intros c H; [left; now exists c|].
  apply Forall_cons in H as [He H].
  destruct e as [ | | | | | | m]; try discriminate He.
  cbn [count_field]. destruct (hashable _); [now apply IH | now right].
Qed.

Lemma count_field_unhashable key events e : forall c,
  Forall (fun e => is_object e = true) events ->
  In e events -> hashable (table_field key e) = false ->
  count_field key events c = Raises TypeError.
Proof.
  induction events as [|x events IH]; intros c H Hin Hbad; [destruct Hin|].
  apply Forall_cons in H as [Hx H].
  destruct x as [ | | | | | | m]; try discriminate Hx.
  cbn [count_field].
  destruct (hashable (default (JStr (pys "unknown")) (dict_get key m))) eqn:E;
    [|reflexivity].
  apply IH; [exact H | | exact Hbad].
  destruct Hin as [<-|Hin]; [|exact Hin].
  cbn [table_field] in Hbad. congruence.
Qed.

(** X16. A list or an object as the risk, signature name, user name or
    host name of one event of a log of objects makes the summary fail
    with [TypeError] before anything of it is printed: the value cannot
    be a key of a [Counter]. *)
Theorem unhashable_field_breaks_summary `{rt : PyRuntime} (events : list json)
    (top : Z) (key : pystr) (e : json) :
  Forall (fun e => is_object e = true) events ->
  In key table_keys -> In e events ->
  hashable (table_field key e) = false ->
  print_summary events top = ([], Some TypeError).
Proof.
  intros Hobj Hk Hin Hbad.
  pose proof (fun k => count_field_exn k events [] Hobj) as Hex.
  pose proof (count_field_unhashable key events e [] Hobj Hin Hbad) as Hr.
  unfold print_summary.
  destruct events as [|e0 l] eqn:Eev; [destruct Hin|]. rewrite <- Eev in *.
  destruct Hk as [<-|[<-|[<-|[<-|[]]]]].
  - now rewrite Hr.
  - destruct (Hex (pys "risk")) as [[c1 ->]| ->]; [|reflexivity].
    now rewrite Hr.
  - destruct (Hex (pys "risk")) as [[c1 ->]| ->]; [|reflexivity].
    destruct (Hex (pys "signature_name")) as [[c2 ->]| ->]; [|reflexivity].
    now rewrite Hr.
  - destruct (Hex (pys "risk")) as [[c1 ->]| ->]; [|reflexivity].
    destruct (Hex (pys "signature_name")) as [[c2 ->]| ->]; [|reflexivity].
    destruct (Hex (pys "username")) as [[c3 ->]| ->]; [|reflexivity].
    now rewrite Hr.
Qed.














(* ===================================================================== *)
(** * The rows of a table *)
(* ===================================================================== *)

Lemma with_count_insert n x l :
  with_count n (insert_desc x l) = with_count n (x :: l).
Proof.
  induction l as [|y l IH]; [reflexivity|].
  cbn [insert_desc]. destruct (Nat.leb_spec (snd y) (snd x)) as [Hle|Hlt];
    [reflexivity|].
  unfold with_count in *. cbn [List.filter] in *. rewrite IH.
  destruct (Nat.eqb_spec (snd x) n) as [Hx|Hx];
    destruct (Nat.eqb_spec (snd y) n) as [Hy|Hy]; try reflexivity.
  lia.
Qed.

Lemma with_count_sort n c : with_count n (sort_desc c) = with_count n c.
Proof.
  induction c as [|x c IH]; [reflexivity|].
  change (sort_desc (x :: c)) with (insert_desc x (sort_desc c)).
  rewrite with_count_insert. unfold with_count in *. cbn [List.filter].
  now rewrite IH.
Qed.

Lemma desc_sorted_app a b :
  desc_sorted (a ++ b) ->
  forall x y, In x a -> In y b -> (snd y <= snd x)%nat.
Proof.
  induction a as [|z a IH]; intros H x y Hx Hy; [destruct Hx|].
  cbn [app desc_sorted] in H. destruct H as [Hz Hs].
  destruct Hx as [<-|Hx].
  - rewrite Forall_forall in Hz. apply Hz. apply list_elem_of_In.
    apply in_or_app. now right.
  - now apply IH.
Qed.

(** X18. A table shows at most [top] rows, those with the largest
    counts, in decreasing order of count: every item that is left out
    has a count no larger than every item shown; items of equal count
    keep the order in which their keys were first seen; and with [top]
    zero or negative no row is shown. *)
Theorem top_rows_are_largest (top : Z) (c : counter) :
  length (most_common top c) = Nat.min (Z.to_nat top) (length c) /\
  desc_sorted (most_common top c) /\
  (exists rest,
      most_common top c ++ rest ≡ₚ c /\
      (forall n, with_count n (most_common top c ++ rest) = with_count n c) /\
      forall x y, In x (most_common top c) -> In y rest ->
                  (snd y <= snd x)%nat) /\
  ((top <= 0)%Z -> most_common top c = []).
Proof.
  unfold most_common.
  pose proof (sort_desc_perm c) as Hp.
  pose proof (sort_desc_sorted c) as Hs.
  rewrite <- (take_drop (Z.to_nat top) (sort_desc c)) in Hs.
  split; [|split; [|split]].
  - rewrite length_take, (Permutation_length Hp). reflexivity.
  - clear Hp. revert Hs. generalize (drop (Z.to_nat top) (sort_desc c)).
    induction (take (Z.to_nat top) (sort_desc c)) as [|x l IH]; intros r H;
      [exact I|].
    cbn [app desc_sorted] in *. destruct H as [Hx Hl]. split.
    + apply Forall_app in Hx. tauto.
    + now apply (IH r).
  - exists (drop (Z.to_nat top) (sort_desc c)).
    rewrite take_drop. split; [exact Hp|]. split.
    + intros n. apply with_count_sort.
    + now apply desc_sorted_app.
  - intros H. replace (Z.to_nat top) with 0%nat by lia. reflexivity.
Qed.

(* ===================================================================== *)
(** * Lines of the log that do not decode *)
(* ===================================================================== *)

Lemma readlines_one_line l rest :
  one_line l -> readlines (l ++ 10 :: rest) = (l ++ [10]) :: readlines rest.
Proof.
  intros Hl. induction Hl as [|c l [H10 H13] _ IH]; [reflexivity|].
  cbn [app readlines]. rewrite IH.
  destruct (N.eqb_spec c 10); [contradiction|].
  destruct (N.eqb_spec c 13); [contradiction|]. reflexivity.
Qed.

Lemma lstrip_app_space a b :
  lstrip a = [] -> lstrip (a ++ b) = lstrip b.
Proof.
  induction a as [|c a IH]; [reflexivity|].
  cbn [app lstrip]. destruct (is_space c); [exact IH | discriminate].
Qed.

Lemma lstrip_app_keep a b :
  lstrip a <> [] -> lstrip (a ++ b) = lstrip a ++ b.
Proof.
  induction a as [|c a IH]; [contradiction|].
  cbn [app lstrip]. destruct (is_space c); [exact IH | reflexivity].
Qed.

Lemma strip_line_end l : strip (l ++ [10]) = strip l.
Proof.
  unfold strip. destruct (lstrip l) as [|c s] eqn:E.
  - rewrite lstrip_app_space by exact E. reflexivity.
  - rewrite lstrip_app_keep by (rewrite E; discriminate). rewrite E.
    rewrite rev_app_distr. cbn [rev app].
    now rewrite lstrip_space by reflexivity.
Qed.

Lemma load_line_skipped line :
  loads (strip line) = None -> load_lines [line ++ [10]] = [].
Proof.
  intros H. cbn [load_lines]. rewrite strip_line_end.
  destruct (strip line) eqn:E; [reflexivity|]. now rewrite H.
Qed.

(** X19. A line that does not decode as JSON, or is blank, is skipped
    wherever it stands in the file: when the text before it ends where a
    line ends, the reader returns the same events as for the file
    without that line. This is stated for a line within the limits of
    the decoder, on which [json.loads] raises nothing but
    [json.JSONDecodeError]: a line nested too deep or with too long an
    integer ends the reader with an exception that it does not catch. *)
Theorem undecodable_line_skipped (before line after : pystr) :
  whole_lines before ->
  one_line line ->
  within_decoder_limits line ->
  loads (strip line) = None ->
  load_events (Some (before ++ line ++ 10 :: after))
  = load_events (Some (before ++ after)).
Proof.
  intros Hw Hl _ Hn. unfold load_events. f_equal.
  rewrite (readlines_app before (line ++ 10 :: after) Hw).
  rewrite (readlines_app before after Hw).
  rewrite readlines_one_line by exact Hl.
  rewrite !load_lines_app. f_equal.
  change ((line ++ [10]) :: readlines after)
    with ([line ++ [10]] ++ readlines after).
  now rewrite load_lines_app, load_line_skipped.
Qed.

(* ===================================================================== *)
(** * What [--debug] announces *)
(* ===================================================================== *)

Section Announce.

Context {rt : PyRuntime}.













End Announce.


(* ===================================================================== *)
(** * The matcher and longer command lines *)
(* ===================================================================== *)

Lemma str_join_app_r sep args : forall post,
  exists b, str_join sep (args ++ post) = str_join sep args ++ b.
Proof.
  induction args as [|x [|y args] IH]; intros post.
  - exists (str_join sep post). reflexivity.
  - destruct post as [|p post].
    + exists []. cbn. now rewrite app_nil_r.
    + exists (sep ++ str_join sep (p :: post)). reflexivity.
  - destruct (IH post) as [b Hb].
    exists b. change ((x :: y :: args) ++ post) with (x :: y :: (args ++ post)).
    rewrite !str_join_cons2.
    change (y :: args ++ post) with ((y :: args) ++ post).
    rewrite Hb, <- !app_assoc. reflexivity.
Qed.

Lemma str_join_app_l sep pre : forall l,
  exists a, str_join sep (pre ++ l) = a ++ str_join sep l.
Proof.
  induction pre as [|p pre IH]; intros l.
  - now exists [].
  - destruct (IH l) as [a Ha]. cbn [app].
    destruct (pre ++ l) as [|q r] eqn:E.
    + apply app_eq_nil in E as [-> ->]. exists p. cbn. now rewrite app_nil_r.
    + rewrite str_join_cons2, Ha. exists (p ++ sep ++ a).
      now rewrite <- !app_assoc.
Qed.

Lemma str_join_middle sep pre args post :
  exists a b,
    str_join sep (pre ++ args ++ post) = a ++ str_join sep args ++ b.
Proof.
  destruct (str_join_app_l sep pre (args ++ post)) as [a Ha].
  destruct (str_join_app_r sep args post) as [b Hb].
  exists a, b. now rewrite Ha, Hb.
Qed.

Lemma substring_of_middle p s a b :
  substring_of p s -> substring_of p (a ++ s ++ b).
Proof.
  intros (pre & post & ->). exists (a ++ pre), (post ++ b).
  now rewrite <- !app_assoc.
Qed.

(** X21. Arguments added to a command line, before or after, do not hide
    a match: a signature that matches a process still matches it with the
    longer command line (ASCII command lines; on others Python's
    [str.lower] need not commute with joining). *)
Theorem added_arguments_keep_match `{rt : PyRuntime} (sig : signature)
    (info : proc_info) (pre post : list pystr) :
  lower_spec rt ->
  is_ascii (str_join (pys " ") (pre ++ default [] (pi_cmdline info) ++ post)) ->
  match_signature sig info = true ->
  match_signature sig
    {| pi_pid := pi_pid info;
       pi_name := pi_name info;
       pi_cmdline := Some (pre ++ default [] (pi_cmdline info) ++ post);
       pi_username := pi_username info |} = true.
Proof.
  intros Hlow Hascii. unfold match_signature.
  set (args := default [] (pi_cmdline info)) in *.
  cbn [pi_name pi_cmdline].
  change (default [] (Some (pre ++ args ++ post))) with (pre ++ args ++ post).
  destruct (str_eqb (lower (default [] (sig_pattern sig))) [] ||
            str_eqb (default [] (sig_match_type sig)) []); [trivial|].
  destruct (str_eqb (default [] (sig_match_type sig)) process_name_contains);
    [trivial|].
  destruct (str_eqb (default [] (sig_match_type sig)) cmdline_contains);
    [|trivial].
  destruct (str_join_middle (pys " ") pre args post) as (a & b & E).
  rewrite E in Hascii |- *.
  assert (Hmid : is_ascii (str_join (pys " ") args)).
  { unfold is_ascii in *. apply Forall_app in Hascii as [_ H].
    now apply Forall_app in H as [H _]. }
  rewrite (lower_ascii rt Hlow _ Hmid), (lower_ascii rt Hlow _ Hascii).
  rewrite !contains_spec. unfold ascii_lower. rewrite !List.map_app.
  apply substring_of_middle.
Qed.

(* ===================================================================== *)
(** * Failures of the log *)
(* ===================================================================== *)

Section LogFailures.

Context {rt : PyRuntime}.


(** One cycle, by the way its log fails: what is counted is what the
    calls of [f.write] that returned have handed over, what is in the
    log is that up to one of these records, and an [OSError] is
    reported and not raised. *)
Lemma scan_once_outcome signatures hostname debug c st :
  exists k,
    chunks (fst (scan_once signatures hostname debug c st))
    = chunks st ++ take k (cycle_writes signatures hostname debug c st) /\
    (c_close c = None ->
     take k (cycle_writes signatures hostname debug c st)
     = cycle_writes signatures hostname debug c st) /\
    (cycle_fault signatures hostname debug c st = None ->
     take k (cycle_writes signatures hostname debug c st)
     = cycle_writes signatures hostname debug c st) /\
    (forall j,
        (j < length (cycle_writes signatures hostname debug c st))%nat ->
        c_write c j = None) /\
    match cycle_fault signatures hostname debug c st with
    | Some (OSError msg) =>
        snd (scan_once signatures hostname debug c st)
        = Returns (length (cycle_writes signatures hostname debug c st)) /\
        last (stdout (fst (scan_once signatures hostname debug c st)))
        = Some (MsgWriteFailed msg)
    | Some e => snd (scan_once signatures hostname debug c st) = Raises e
    | None =>
        snd (scan_once signatures hostname debug c st)
        = Returns (length (cycle_writes signatures hostname debug c st))
    end.
Proof.
  unfold scan_once, cycle_writes, cycle_fault.
  destruct (c_open c) as [e|].
  { exists 0%nat. cbn [take length]. rewrite app_nil_r.
    destruct e; cbn [scan_except fst snd stdout];
      repeat split; auto; try (intros j Hj; lia); try discriminate.
    apply last_snoc. }
  destruct (scan_procs _ _ _ _ _ _) as [st1 r1] eqn:E. cbn [fst].
  apply scan_procs_start in E as (E2 & _ & E4 & _).
  destruct (close_log_cases c (ss_file st1) r1)
    as [[-> _]|(e & -> & _ & Hc)]; cbn [snd].
  - exists (length (ss_file st1)). rewrite firstn_all.
    destruct r1 as [[]|e]; [|destruct e];
      cbn [scan_except fst snd stdout]; unfold chunks; cbn [log default];
      rewrite ?E2; repeat split; auto; try discriminate.
    apply last_snoc.
  - exists (c_flushed c). rewrite Hc.
    destruct e; cbn [scan_except fst snd stdout]; unfold chunks;
      cbn [log default]; rewrite ?E2; repeat split; auto; try discriminate.
    apply last_snoc.
Qed.

(** A failure of the log that is not an [OSError] is not caught: it
    leaves the cycle. *)
Lemma other_failure_leaves_cycle signatures hostname debug c st e :
  cycle_fault signatures hostname debug c st = Some e -> ~ is_oserror e ->
  snd (scan_once signatures hostname debug c st) = Raises e.
Proof.
  intros Hf He.
  destruct (scan_once_outcome signatures hostname debug c st)
    as (_ & _ & _ & _ & _ & Hr).
  rewrite Hf in Hr. destruct e; try exact Hr. now destruct He.
Qed.



End LogFailures.



(* ===================================================================== *)
(** * Examples for the properties of the run and of the reader *)
(* ===================================================================== *)


Lemma quiet_scan_only_creates_log_witness :
  c_open (quiet_cycle [Proc bash_proc]) = None /\
  (forall info sig,
      In (Proc info) (c_procs (quiet_cycle [Proc bash_proc])) ->
      In sig SIGNATURES ->
      @match_signature test_runtime sig info = true ->
      (pi_pid info, sig_name sig) ∈ seen sample_state) /\
  @scan_once test_runtime SIGNATURES (pys "host") false
    (quiet_cycle [Proc bash_proc]) sample_state
  = (created sample_state, Returns 0%nat).
Proof.
  assert (H : forall info sig,
             In (Proc info) (c_procs (quiet_cycle [Proc bash_proc])) ->
             In sig SIGNATURES ->
             @match_signature test_runtime sig info = true ->
             (pi_pid info, sig_name sig) ∈ seen sample_state).
  { intros info sig [Hi|[]] Hs Hm. injection Hi as <-.
    repeat (destruct Hs as [<-|Hs]; [vm_compute in Hm; discriminate Hm|]).
    destruct Hs. }
  split; [reflexivity|]. split; [exact H|].
  exact (@quiet_scan_only_creates_log test_runtime SIGNATURES (pys "host")
           false (quiet_cycle [Proc bash_proc]) sample_state eq_refl H).
Defined.

Lemma rescan_is_silent_witness :
  io_ok ollama_cycle /\
  c_open full_disk_cycle = None /\
  c_procs full_disk_cycle = c_procs ollama_cycle /\
  @scan_once test_runtime SIGNATURES (pys "host") true full_disk_cycle
    (fst (@scan_once test_runtime SIGNATURES (pys "host") false ollama_cycle
            sample_state))
  = (fst (@scan_once test_runtime SIGNATURES (pys "host") false ollama_cycle
            sample_state), Returns 0%nat).
Proof.
  assert (H : io_ok ollama_cycle) by (split; [|split]; reflexivity).
  split; [exact H|]. split; [reflexivity|]. split; [reflexivity|].
  exact (@rescan_is_silent test_runtime SIGNATURES (pys "host") false true
           ollama_cycle full_disk_cycle sample_state H eq_refl eq_refl).
Defined.

Lemma run_ends_only_by_interrupt_witness :
  Forall benign [closed_cycle; full_disk_cycle; interrupted_cycle] /\
  match snd (@main_loop test_runtime SIGNATURES (pys "host") false
               [closed_cycle; full_disk_cycle; interrupted_cycle]
               sample_state) with
  | Running =>
      Forall (fun c => c_sleep_interrupted c = false)
        [closed_cycle; full_disk_cycle; interrupted_cycle]
  | Stopped =>
      last (stdout (fst (@main_loop test_runtime SIGNATURES (pys "host") false
                           [closed_cycle; full_disk_cycle; interrupted_cycle]
                           sample_state)))
      = Some MsgStopped
  | Crashed _ => False
  end.
Proof.
  assert (H : Forall benign [closed_cycle; full_disk_cycle; interrupted_cycle]).
  { repeat constructor; cbn; intros; simplify_eq; exact I. }
  split; [exact H|].
  exact (@run_ends_only_by_interrupt test_runtime SIGNATURES (pys "host") false
           [closed_cycle; full_disk_cycle; interrupted_cycle] sample_state H).
Defined.

Lemma open_failure_retried_witness :
  Forall open_fails [closed_cycle] /\
  io_ok ollama_cycle /\
  (1234%Z, pys "ollama_local_llm") ∉ seen sample_state /\
  @occurs test_runtime SIGNATURES 1234 (pys "ollama_local_llm") ollama_cycle /\
  chunks (fst (@main_loop test_runtime SIGNATURES (pys "host") false
                 [closed_cycle] sample_state)) = chunks sample_state /\
  seen (fst (@main_loop test_runtime SIGNATURES (pys "host") false
               [closed_cycle] sample_state)) = seen sample_state /\
  exists new,
    chunks (fst (@main_loop test_runtime SIGNATURES (pys "host") false
                   ([closed_cycle] ++ ollama_cycle :: [ollama_cycle])
                   sample_state))
    = chunks sample_state ++ new /\
    count_records 1234 (pys "ollama_local_llm") new = 1%nat.
Proof.
  assert (H1 : Forall open_fails [closed_cycle]).
  { repeat constructor. eexists. reflexivity. }
  assert (H2 : io_ok ollama_cycle) by (split; [|split]; reflexivity).
  assert (H3 : (1234%Z, pys "ollama_local_llm") ∉ seen sample_state)
    by apply not_elem_of_empty.
  assert (H4 : @occurs test_runtime SIGNATURES 1234 (pys "ollama_local_llm")
                 ollama_cycle).
  { exists (ollama_proc 1234 None), sig_ollama.
    repeat split; try (left; reflexivity). }
  split; [exact H1|]. split; [exact H2|]. split; [exact H3|].
  split; [exact H4|].
  exact (@open_failure_retried test_runtime SIGNATURES (pys "host") false
           [closed_cycle] [ollama_cycle] ollama_cycle sample_state 1234
           (pys "ollama_local_llm") H1 H2 H3 H4).
Defined.




(* ===================================================================== *)
(** * Examples for the properties of the tables and of the matcher *)
(* ===================================================================== *)

Lemma table_counts_events_witness :
  Forall (fun e => is_object e = true /\
                   exact_key (table_field (pys "risk") e) = true)
    three_records /\
  exists c,
    count_field (pys "risk") three_records [] = Returns c /\
    counter_ok c /\
    total_count c = length three_records /\
    forall k, exact_key k = true ->
              counter_get k c
              = count_of k (List.map (table_field (pys "risk")) three_records).
Proof.
  assert (H : Forall (fun e => is_object e = true /\
                               exact_key (table_field (pys "risk") e) = true)
                three_records)
    by (repeat constructor).
  split; [exact H|].
  exact (table_counts_events (pys "risk") three_records H).
Defined.

Lemma mixed_timestamps_raise_witness :
  Forall (fun e => record_like e = true) mixed_records /\
  In {| dt_wall := 3; dt_offset := None |}
    (@timestamps zulu_runtime mixed_records) /\
  In {| dt_wall := 5; dt_offset := Some 0%Z |}
    (@timestamps zulu_runtime mixed_records) /\
  dt_offset {| dt_wall := 3; dt_offset := None |} = None /\
  dt_offset {| dt_wall := 5; dt_offset := Some 0%Z |} <> None /\
  @print_summary zulu_runtime mixed_records 5 = ([], Some TypeError).
Proof.
  assert (H1 : Forall (fun e => record_like e = true) mixed_records)
    by (repeat constructor).
  assert (H2 : In {| dt_wall := 3; dt_offset := None |}
                 (@timestamps zulu_runtime mixed_records))
    by (vm_compute; left; reflexivity).
  assert (H3 : In {| dt_wall := 5; dt_offset := Some 0%Z |}
                 (@timestamps zulu_runtime mixed_records))
    by (vm_compute; right; left; reflexivity).
  assert (H5 : dt_offset {| dt_wall := 5; dt_offset := Some 0%Z |} <> None)
    by discriminate.
  split; [exact H1|]. split; [exact H2|]. split; [exact H3|].
  split; [reflexivity|]. split; [exact H5|].
  exact (@mixed_timestamps_raise zulu_runtime mixed_records 5 _ _
           H1 H2 H3 eq_refl H5).
Defined.

Lemma unhashable_field_breaks_summary_witness :
  Forall (fun e => is_object e = true) list_risk_records /\
  In (pys "risk") table_keys /\
  In (JObj [(pys "risk", JArr [])]) list_risk_records /\
  hashable (table_field (pys "risk") (JObj [(pys "risk", JArr [])])) = false /\
  @print_summary test_runtime list_risk_records 5 = ([], Some TypeError).
Proof.
  assert (H1 : Forall (fun e => is_object e = true) list_risk_records)
    by (repeat constructor).
  assert (H2 : In (pys "risk") table_keys) by (left; reflexivity).
  assert (H3 : In (JObj [(pys "risk", JArr [])]) list_risk_records)
    by (right; left; reflexivity).
  split; [exact H1|]. split; [exact H2|]. split; [exact H3|].
  split; [reflexivity|].
  exact (@unhashable_field_breaks_summary test_runtime list_risk_records 5
           (pys "risk") (JObj [(pys "risk", JArr [])]) H1 H2 H3 eq_refl).
Defined.


Lemma undecodable_line_skipped_witness :
  whole_lines (event_line (risk_record "high")) /\
  one_line (pys "{oops") /\
  within_decoder_limits (pys "{oops") /\
  loads (strip (pys "{oops")) = None /\
  load_events
    (Some (event_line (risk_record "high") ++ pys "{oops" ++
           10 :: event_line (risk_record "low")))
  = load_events
      (Some (event_line (risk_record "high") ++ event_line (risk_record "low"))).
Proof.
  assert (H1 : whole_lines (event_line (risk_record "high")))
    by (right; vm_compute; reflexivity).
  assert (H2 : one_line (pys "{oops"))
    by (repeat constructor; discriminate).
  assert (H3 : loads (strip (pys "{oops")) = None)
    by (vm_compute; reflexivity).
  assert (H4 : within_decoder_limits (pys "{oops"))
    by (split; [vm_compute; lia | vm_compute; reflexivity]).
  split; [exact H1|]. split; [exact H2|]. split; [exact H4|].
  split; [exact H3|].
  exact (undecodable_line_skipped (event_line (risk_record "high"))
           (pys "{oops") (event_line (risk_record "low")) H1 H2 H4 H3).
Defined.

Lemma added_arguments_keep_match_witness :
  lower_spec test_runtime /\
  is_ascii (str_join (pys " ")
              ([pys "sudo"] ++ default [] (pi_cmdline (curl_proc 7 None)) ++
               [pys "--silent"])) /\
  @match_signature test_runtime sig_openai (curl_proc 7 None) = true /\
  @match_signature test_runtime sig_openai
    {| pi_pid := pi_pid (curl_proc 7 None);
       pi_name := pi_name (curl_proc 7 None);
       pi_cmdline :=
         Some ([pys "sudo"] ++ default [] (pi_cmdline (curl_proc 7 None)) ++
               [pys "--silent"]);
       pi_username := pi_username (curl_proc 7 None) |} = true.
Proof.
  assert (H : is_ascii (str_join (pys " ")
                          ([pys "sudo"] ++
                           default [] (pi_cmdline (curl_proc 7 None)) ++
                           [pys "--silent"])))
    by (unfold is_ascii; apply (bool_decide_unpack _); vm_compute; exact I).
  split; [exact test_runtime_lower|]. split; [exact H|].
  split; [reflexivity|].
  exact (@added_arguments_keep_match test_runtime sig_openai (curl_proc 7 None)
           [pys "sudo"] [pys "--silent"] test_runtime_lower H eq_refl).
Defined.


